(** * BlockDAG core of qitmeer: a shallow embedding of
    [core/blockdag/blockdag.go] and the properties of its framework. *)

From Stdlib Require Import ZArith Lia.
From stdpp Require Import base option list gmap fin_maps sorting.

Local Open Scope Z_scope.

(** ** Machine integers *)

(** Go's [uint] is 64 bits wide on the supported platforms; additions and
    subtractions wrap around. *)
Definition uint_size : Z := 2 ^ 64.
Definition uint (z : Z) : Z := z mod uint_size.

(** [int(x)] for [x : uint]: the same 64 bits read as a signed number. *)
Definition int_of_uint (z : Z) : Z :=
  if decide (z < 2 ^ 63) then z else z - uint_size.

(** ** Outcomes of a call *)

(** A call returns, panics (a method called on a nil interface, a nil
    pointer dereferenced, a failed type assertion), or, in this embedding
    only, uses up the bound given to a loop or to a recursion. *)
Inductive result (A : Type) : Type :=
| Ok (a : A)
| Panic
| OutOfFuel.
Arguments Ok {A} a.
Arguments Panic {A}.
Arguments OutOfFuel {A}.

#[global] Instance result_ret : MRet result := λ A a, Ok a.
#[global] Instance result_bind : MBind result := λ A B f m,
  match m with
  | Ok a => f a
  | Panic => Panic
  | OutOfFuel => OutOfFuel
  end.

(** Calling a method on a possibly-nil reference. *)
Definition deref {A : Type} (r : option A) : result A :=
  match r with
  | Some a => Ok a
  | None => Panic
  end.

(** ** Hashes and hash sets *)

(** [hash.Hash] is a 32-byte array compared byte-wise; it is read here as
    the number its bytes spell. The framework only compares hashes for
    equality. A [*hash.Hash] that may be nil is an [option Hash]. *)
Abbreviation Hash := N (only parsing).

(** Modelled from the spec: [dag.HashSet] (package qitmeer-lib, not part of
    the sources) is a set of block identifiers with an insertion-ordered
    companion sequence and an optional payload pairing. The payload paired
    with a hash is always a reference to the block of that hash, so the set
    is kept as the sequence of its keys and a payload is read through the
    block map of the framework, which all references share. Iterating
    [GetMap()] visits the keys in sequence order. *)
Abbreviation HashSet := (list N) (only parsing).

Definition NewHashSet : HashSet := [].
Definition hs_Has (s : HashSet) (h : Hash) : bool := bool_decide (h ∈ s).
Definition hs_Add (s : HashSet) (h : Hash) : HashSet :=
  if hs_Has s h then s else s ++ [h].
Definition hs_Remove (s : HashSet) (h : Hash) : HashSet :=
  filter (λ k, k ≠ h) s.
Definition hs_Exclude (s other : HashSet) : HashSet :=
  filter (λ k, k ∉ other) s.
Definition hs_IsEmpty (s : HashSet) : bool :=
  match s with [] => true | _ => false end.
Definition hs_Size (s : HashSet) : Z := Z.of_nat (length s).
Definition hs_AddList (s : HashSet) (l : list Hash) : HashSet :=
  foldl hs_Add s l.

(** ** Blocks *)

(** Modelled from the spec: the [Block] record and its methods (file
    block.go of this package, not part of the sources): identity, parents,
    children, main parent, weight, order, layer and height. *)
Record Block := mkBlock {
  b_id : Z;
  b_hash : Hash;
  b_parents : option HashSet;
  b_children : HashSet;
  b_mainParent : option Hash;
  b_weight : Z;
  b_order : Z;
  b_layer : Z;
  b_height : Z
}.

Definition HasChildren (b : Block) : bool := negb (hs_IsEmpty (b_children b)).
Definition HasParents (b : Block) : bool :=
  match b_parents b with
  | None => false
  | Some ps => negb (hs_IsEmpty ps)
  end.

Definition AddChild (b : Block) (child : Hash) : Block :=
  mkBlock (b_id b) (b_hash b) (b_parents b) (hs_Add (b_children b) child)
    (b_mainParent b) (b_weight b) (b_order b) (b_layer b) (b_height b).

Definition SetParents (b : Block) (ps : option HashSet) : Block :=
  mkBlock (b_id b) (b_hash b) ps (b_children b)
    (b_mainParent b) (b_weight b) (b_order b) (b_layer b) (b_height b).

Definition SetMainParent (b : Block) (p : option Hash) : Block :=
  mkBlock (b_id b) (b_hash b) (b_parents b) (b_children b)
    p (b_weight b) (b_order b) (b_layer b) (b_height b).

Definition SetLayer (b : Block) (l : Z) : Block :=
  mkBlock (b_id b) (b_hash b) (b_parents b) (b_children b)
    (b_mainParent b) (b_weight b) (b_order b) l (b_height b).

(** Modelled from the spec: the comparator of [BlockSlice] (block.go, not
    part of the sources): by order ascending, the insertion counter [id]
    breaking ties. *)
Definition Less (a b : Block) : bool :=
  bool_decide (b_order a < b_order b ∨ (b_order a = b_order b ∧ b_id a < b_id b)).

(** [sort.Sort] returns a permutation of the slice in which no element is
    [Less] than one before it. It is embedded as insertion sort; on blocks
    with pairwise different ids the comparator is a strict total order and
    every such permutation is this one. *)
Fixpoint sort_insert (x : Block) (l : list Block) : list Block :=
  match l with
  | [] => [x]
  | y :: l' => if Less y x then y :: sort_insert x l' else x :: y :: l'
  end.

Definition sort_Sort (l : list Block) : list Block :=
  foldr sort_insert [] l.

(** What [IBlockData] exposes: [GetHash()], [GetParents()] (a slice of
    hash pointers, any of which may be nil) and [GetTimestamp()]. *)
Record BlockData := mkBlockData {
  d_hash : Hash;
  d_parents : list (option Hash);
  d_timestamp : Z
}.

(** Modelled from the spec: [dag.GraphState] (package qitmeer-lib, not part
    of the sources): tip set, maximum tip layer, total block count and
    main-chain height. *)
Record GraphState := mkGraphState {
  gs_tips : HashSet;
  gs_layer : Z;
  gs_total : Z;
  gs_mainHeight : Z
}.

Definition NewGraphState : GraphState := mkGraphState NewHashSet 0 0 0.

(** What a strategy decides for a block: order, height, weight and main
    parent. *)
Record Marks := mkMarks {
  m_order : Z;
  m_height : Z;
  m_weight : Z;
  m_mainParent : option Hash
}.

Definition marks_of (b : Block) : Marks :=
  mkMarks (b_order b) (b_height b) (b_weight b) (b_mainParent b).

Definition remark (f : Block → Marks) (b : Block) : Block :=
  mkBlock (b_id b) (b_hash b) (b_parents b) (b_children b)
    (m_mainParent (f b)) (m_weight (f b)) (m_order (f b)) (b_layer b)
    (m_height (f b)).

(** ** The framework *)

Section Framework.

(** The private state of the bound strategy. *)
Context {IState : Type}.

Record BlockDAG := mkBlockDAG {
  bd_genesis : Hash;
  bd_blocks : gmap N Block;
  bd_blockTotal : Z;
  bd_tips : option HashSet;
  bd_lastTime : Z;
  bd_order : gmap Z N;
  bd_instance : IState
}.

(** What the strategy's [AddBlock] leaves behind. *)
Record Verdict := mkVerdict {
  v_instance : IState;
  v_marks : Block → Marks;
  v_order : gmap Z N;
  v_list : option (list Hash)
}.

(** Modelled from the spec: the strategies behind [IBlockDAG] (Phantom,
    Phantom_v2, Conflux, Spectre; not part of the sources). A strategy
    keeps its own state, wraps the record the framework built, assigns
    order, height, weight and main parent of blocks and the order index,
    and answers the main-chain queries; it does not touch the block map,
    the tip set, genesis, the block count or the arrival time. *)
Record IBlockDAG := mkIBlockDAG {
  iCreateBlock : BlockDAG → Block → IState;
  iAddBlock : BlockDAG → Hash → Verdict;
  iIsOnMainChain : BlockDAG → option Block → bool;
  iGetMainChainTip : BlockDAG → option Block
}.

Context (inst : IBlockDAG).

Definition set_instance (bd : BlockDAG) (s : IState) : BlockDAG :=
  mkBlockDAG (bd_genesis bd) (bd_blocks bd) (bd_blockTotal bd) (bd_tips bd)
    (bd_lastTime bd) (bd_order bd) s.

Definition set_tips (bd : BlockDAG) (t : option HashSet) : BlockDAG :=
  mkBlockDAG (bd_genesis bd) (bd_blocks bd) (bd_blockTotal bd) t
    (bd_lastTime bd) (bd_order bd) (bd_instance bd).

Definition commit (bd : BlockDAG) (v : Verdict) : BlockDAG :=
  mkBlockDAG (bd_genesis bd) (remark (v_marks v) <$> bd_blocks bd)
    (bd_blockTotal bd) (bd_tips bd) (bd_lastTime bd) (v_order v)
    (v_instance v).

(** [GetBlock]: nil for a nil pointer and for a hash that is not a key. *)
Definition GetBlock (bd : BlockDAG) (h : option Hash) : option Block :=
  match h with
  | None => None
  | Some h => bd_blocks bd !! h
  end.

Definition HasBlock (bd : BlockDAG) (h : option Hash) : bool :=
  match GetBlock bd h with
  | Some _ => true
  | None => false
  end.

Fixpoint HasBlocks (bd : BlockDAG) (hs : list (option Hash)) : bool :=
  match hs with
  | [] => true
  | h :: hs' => if negb (HasBlock bd h) then false else HasBlocks bd hs'
  end.

Definition GetBlockTotal (bd : BlockDAG) : Z := bd_blockTotal bd.

Definition IsDAG (bd : BlockDAG) (b : BlockData) : bool := true.

(** The payload paired with key [k] in a hash set of the framework. *)
Definition payload (bd : BlockDAG) (k : Hash) : result Block :=
  deref (bd_blocks bd !! k).

(** The loop of [updateTips]: every key of the tip set is visited once, and
    removed when its block has children. *)
Fixpoint pruneTips (bd : BlockDAG) (keys : list Hash) (tips : HashSet)
  : result HashSet :=
  match keys with
  | [] => Ok tips
  | k :: keys' =>
      block ← deref (GetBlock bd (Some k));
      pruneTips bd keys' (if HasChildren block then hs_Remove tips k else tips)
  end.

Definition updateTips (bd : BlockDAG) (b : Block) : result BlockDAG :=
  match bd_tips bd with
  | None => Ok (set_tips bd (Some (hs_Add NewHashSet (b_hash b))))
  | Some tips =>
      tips' ← pruneTips bd tips tips;
      Ok (set_tips bd (Some (hs_Add tips' (b_hash b))))
  end.

(** The state of the loop over the parents in [AddBlock]: the block map
    (whose parent records receive the child), the block under construction
    and [maxLayer]. *)
Record Linking := mkLinking {
  lk_blocks : gmap N Block;
  lk_block : Block;
  lk_maxLayer : Z
}.

Fixpoint linkParents (first : bool) (parents : list (option Hash))
  (st : Linking) : result Linking :=
  match parents with
  | [] => Ok st
  | None :: _ => Panic
  | Some h :: parents' =>
      parent ← deref (lk_blocks st !! h);
      ps ← deref (b_parents (lk_block st));
      let block := SetParents (lk_block st) (Some (hs_Add ps h)) in
      let parent' := AddChild parent (b_hash block) in
      let block := if first then SetMainParent block (Some (b_hash parent'))
                   else block in
      let maxLayer :=
        if decide (lk_maxLayer st = 0 ∨ lk_maxLayer st < b_layer parent')
        then b_layer parent' else lk_maxLayer st in
      linkParents false parents'
        (mkLinking (<[h := parent']> (lk_blocks st)) block maxLayer)
  end.

(** [parents] is the nil slice exactly when the DAG is empty (a non-empty
    DAG has rejected an empty parent list by then), so [parents != nil] is
    read as: the list is not empty. *)
Definition AddBlock (bd : BlockDAG) (b : option BlockData)
  : result (BlockDAG * option (list Hash)) :=
  match b with
  | None => Ok (bd, None)
  | Some b =>
    if HasBlock bd (Some (d_hash b)) then Ok (bd, None) else
    let checked :=
      if decide (GetBlockTotal bd > 0) then
        let parents := d_parents b in
        if decide (length parents = 0%nat) then None
        else if negb (HasBlocks bd parents) then None
        else Some parents
      else Some [] in
    match checked with
    | None => Ok (bd, None)
    | Some parents =>
      if negb (IsDAG bd b) then Ok (bd, None) else
      let block :=
        mkBlock (GetBlockTotal bd) (d_hash b) None [] None 1 0 0 0 in
      st ← match parents with
           | [] => Ok (mkLinking (bd_blocks bd) block 0)
           | _ =>
             st ← linkParents true parents
                    (mkLinking (bd_blocks bd)
                       (SetParents block (Some NewHashSet)) 0);
             Ok (mkLinking (lk_blocks st)
                   (SetLayer (lk_block st) (uint (lk_maxLayer st + 1)))
                   (lk_maxLayer st))
           end;
      let block := lk_block st in
      let s := iCreateBlock inst bd block in
      let bd1 :=
        mkBlockDAG
          (if decide (GetBlockTotal bd = 0) then b_hash block
           else bd_genesis bd)
          (<[b_hash block := block]> (lk_blocks st))
          (uint (bd_blockTotal bd + 1))
          (bd_tips bd) (bd_lastTime bd) (bd_order bd) s in
      bd2 ← updateTips bd1 block;
      let t := d_timestamp b in
      let bd3 :=
        mkBlockDAG (bd_genesis bd2) (bd_blocks bd2) (bd_blockTotal bd2)
          (bd_tips bd2)
          (if decide (bd_lastTime bd2 < t) then t else bd_lastTime bd2)
          (bd_order bd2) (bd_instance bd2) in
      let v := iAddBlock inst bd3 (b_hash block) in
      Ok (commit bd3 v, v_list v)
    end
  end.

(** [GetLayer]: the method is called on whatever [GetBlock] returned. *)
Definition GetLayer (bd : BlockDAG) (h : option Hash) : result Z :=
  block ← deref (GetBlock bd h);
  Ok (b_layer block).

Definition IsOnMainChain (bd : BlockDAG) (h : option Hash) : bool :=
  iIsOnMainChain inst bd (GetBlock bd h).

Definition GetMainChainTip (bd : BlockDAG) : option Block :=
  iGetMainChainTip inst bd.

(** A loop over the keys of a hash set that threads a state. *)
Fixpoint forKeys {A : Type} (body : A → Hash → result A) (keys : list Hash)
  (a : A) : result A :=
  match keys with
  | [] => Ok a
  | k :: keys' => a' ← body a k; forKeys body keys' a'
  end.

(** [GetFutureSet]: [fuel] bounds the depth of the recursion. *)
Fixpoint GetFutureSet (fuel : nat) (bd : BlockDAG) (fs : HashSet)
  (b : option Block) : result HashSet :=
  match fuel with
  | O => OutOfFuel
  | S fuel' =>
      b ← deref b;
      let children := b_children b in
      if hs_IsEmpty children then Ok fs
      else forKeys (λ fs k,
             if negb (hs_Has fs k)
             then GetFutureSet fuel' bd (hs_Add fs k) (GetBlock bd (Some k))
             else Ok fs) children fs
  end.

Fixpoint isVirtualTip (b : Block) (futureSet anticone children : HashSet)
  : bool :=
  match children with
  | [] => true
  | k :: children' =>
      if decide (k = b_hash b) then false
      else if negb (hs_Has futureSet k) && negb (hs_Has anticone k) then false
      else isVirtualTip b futureSet anticone children'
  end.

(** [recAnticone]: [fuel] bounds the depth of the recursion. A nil parent
    set has no map to iterate. *)
Fixpoint recAnticone (fuel : nat) (bd : BlockDAG) (b : Block)
  (futureSet anticone : HashSet) (h : Hash) : result HashSet :=
  match fuel with
  | O => OutOfFuel
  | S fuel' =>
      if decide (h = b_hash b) then Ok anticone else
      node ← deref (GetBlock bd (Some h));
      let children := b_children node in
      let needRecursion :=
        if hs_IsEmpty children then true
        else isVirtualTip b futureSet anticone children in
      if needRecursion then
        let anticone :=
          if negb (hs_Has futureSet h) then hs_Add anticone h else anticone in
        parents ← deref (b_parents node);
        forKeys (λ anticone k, recAnticone fuel' bd b futureSet anticone k)
          parents anticone
      else Ok anticone
  end.

Definition GetAnticone (fuel : nat) (bd : BlockDAG) (b : option Block)
  (exclude : option HashSet) : result HashSet :=
  futureSet ← GetFutureSet fuel bd NewHashSet b;
  b ← deref b;
  tips ← deref (bd_tips bd);
  anticone ← forKeys (λ anticone k, recAnticone fuel bd b futureSet anticone k)
               tips NewHashSet;
  Ok (match exclude with
      | Some exclude => hs_Exclude anticone exclude
      | None => anticone
      end).

(** The loop of [GetConfirmations]: [fuel] bounds the number of blocks
    taken from the queue. *)
Fixpoint confirmLoop (fuel : nat) (bd : BlockDAG) (mainTip : option Block)
  (queue : list Hash) : result Z :=
  match queue with
  | [] => Ok 0
  | cur :: queue' =>
      match fuel with
      | O => OutOfFuel
      | S fuel' =>
          cur ← payload bd cur;
          if IsOnMainChain bd (Some (b_hash cur)) then
            mainTip ← deref mainTip;
            Ok (uint (1 + b_height mainTip - b_height cur))
          else if negb (HasChildren cur) then Ok 0
          else confirmLoop fuel' bd mainTip (queue' ++ b_children cur)
      end
  end.

Definition GetConfirmations (fuel : nat) (bd : BlockDAG) (h : option Hash)
  : result Z :=
  match GetBlock bd h with
  | None => Ok 0
  | Some block =>
      let mainTip := GetMainChainTip bd in
      if IsOnMainChain bd h then
        mainTip ← deref mainTip;
        Ok (uint (b_height mainTip - b_height block))
      else if negb (HasChildren block) then Ok 0
      else confirmLoop fuel bd mainTip [b_hash block]
  end.

(** The loop of [GetGraphState] over the tips: the largest layer. *)
Fixpoint maxTipLayer (bd : BlockDAG) (keys : list Hash) (layer : Z)
  : result Z :=
  match keys with
  | [] => Ok layer
  | k :: keys' =>
      tip ← payload bd k;
      maxTipLayer bd keys'
        (if decide (b_layer tip > layer) then b_layer tip else layer)
  end.

Definition GetGraphState (bd : BlockDAG) : result GraphState :=
  gs ← match bd_tips bd with
       | None => Ok NewGraphState
       | Some tips =>
           if negb (hs_IsEmpty tips) then
             layer ← maxTipLayer bd tips 0;
             Ok (mkGraphState (hs_AddList NewHashSet tips) layer 0 0)
           else Ok NewGraphState
       end;
  mainTip ← deref (GetMainChainTip bd);
  Ok (mkGraphState (gs_tips gs) (gs_layer gs) (GetBlockTotal bd)
        (b_height mainTip)).

(** Modelled from the spec: [GraphState.IsExcellent] (package qitmeer-lib,
    not part of the sources), true when the holder strictly dominates the
    other state. The framework takes it as given. *)
Context (IsExcellent : GraphState → GraphState → bool).

(** The test on the children of [cur] in [LocateBlocks]. *)
Fixpoint childrenLocated (gs : GraphState) (fs children : HashSet) : bool :=
  match children with
  | [] => true
  | k :: children' =>
      if hs_Has (gs_tips gs) k || negb (hs_Has fs k) then false
      else childrenLocated gs fs children'
  end.

(** The parents of [cur] that [LocateBlocks] appends to the queue. *)
Definition parentsToVisit (fs parents : HashSet) : list Hash :=
  filter (λ k, hs_Has fs k = false) parents.

(** The loop of [LocateBlocks]: [fuel] bounds the number of blocks taken
    from the queue. *)
Fixpoint locateLoop (fuel : nat) (bd : BlockDAG) (gs : GraphState)
  (queue : list Hash) (fs : HashSet) : result HashSet :=
  match queue with
  | [] => Ok fs
  | cur :: queue' =>
      match fuel with
      | O => OutOfFuel
      | S fuel' =>
          if hs_Has (gs_tips gs) cur then locateLoop fuel' bd gs queue' fs
          else
            curb ← payload bd cur;
            let needRec :=
              if HasChildren curb
              then childrenLocated gs fs (b_children curb) else true in
            if needRec then
              let fs := hs_Add fs cur in
              let queue' :=
                match b_parents curb with
                | Some parents =>
                    if HasParents curb
                    then queue' ++ parentsToVisit fs parents else queue'
                | None => queue'
                end in
              locateLoop fuel' bd gs queue' fs
            else locateLoop fuel' bd gs queue' fs
      end
  end.

(** The payloads of a hash set, in key order. *)
Fixpoint payloads (bd : BlockDAG) (keys : list Hash) : result (list Block) :=
  match keys with
  | [] => Ok []
  | k :: keys' =>
      b ← payload bd k;
      bs ← payloads bd keys';
      Ok (b :: bs)
  end.

Definition LocateBlocks (fuel : nat) (bd : BlockDAG) (gs : GraphState)
  (maxHashes : Z) : result (option (list Hash)) :=
  ours ← GetGraphState bd;
  if IsExcellent gs ours then Ok None else
  tips ← deref (bd_tips bd);
  fs ← locateLoop fuel bd gs tips (hs_AddList NewHashSet tips);
  fsSlice ← payloads bd fs;
  let fsSlice :=
    if decide (2 ≤ length fsSlice)%nat then sort_Sort fsSlice else fsSlice in
  Ok (Some (b_hash <$> take (Z.to_nat (int_of_uint maxHashes)) fsSlice)).

(** Modelled from the spec: the methods of [IBlockDAG] with which a
    strategy (not part of the sources) may answer in place of the
    framework: [GetTipsList] and [GetBlockByOrder]; nil asks for the
    framework's default. *)
Record IBlockDAGQueries := mkIBlockDAGQueries {
  iGetTipsList : BlockDAG → option (list (option Block));
  iGetBlockByOrder : BlockDAG → Z → option Hash
}.

Context (queries : IBlockDAGQueries).

(** Modelled from the spec: [Hash.IsEqual] (package qitmeer-lib, not part
    of the sources): two nil pointers are equal, a nil pointer equals no
    hash, hashes are compared byte-wise. *)
Definition IsEqual (h target : option Hash) : bool :=
  match h, target with
  | None, None => true
  | Some a, Some b => bool_decide (a = b)
  | _, _ => false
  end.

Definition GetGenesis (bd : BlockDAG) : option Block :=
  GetBlock bd (Some (bd_genesis bd)).

Definition GetGenesisHash (bd : BlockDAG) : option Hash :=
  Some (bd_genesis bd).

Definition GetTips (bd : BlockDAG) : option HashSet := bd_tips bd.

(** [GetTipsList]: the strategy's list, or the blocks of all tips. *)
Definition GetTipsList (bd : BlockDAG) : result (list (option Block)) :=
  match iGetTipsList queries bd with
  | Some result => Ok result
  | None =>
      tips ← deref (bd_tips bd);
      Ok ((λ k : N, GetBlock bd (Some k)) <$> (tips : list N))
  end.

(** [GetBlockByOrder]: the strategy's answer, or the entry of the order
    index when [order] is below the number of its entries. *)
Definition GetBlockByOrder (bd : BlockDAG) (order : Z) : option Hash :=
  match iGetBlockByOrder queries bd order with
  | Some result => Some result
  | None =>
      if decide (Z.of_nat (size (bd_order bd)) ≤ order) then None
      else bd_order bd !! order
  end.

Definition GetLastBlock (bd : BlockDAG) : option Block :=
  if decide (GetBlockTotal bd = 0) then None
  else match GetBlockByOrder bd (uint (GetBlockTotal bd - 1)) with
       | None => None
       | Some result => GetBlock bd (Some result)
       end.

Definition GetPrevious (bd : BlockDAG) (h : option Hash) : option Hash :=
  match h with
  | None => None
  | Some _ =>
      if IsEqual h (GetGenesisHash bd) then None
      else match GetBlock bd h with
           | None => None
           | Some b =>
               if decide (b_order b = 0) then None
               else GetBlockByOrder bd (uint (b_order b - 1))
           end
  end.

(** [SortBlock]: a slice of at most one pointer is returned as it is;
    otherwise the stored blocks among [src] are sorted and their hashes
    returned. *)
Definition SortBlock (bd : BlockDAG) (src : list (option Hash))
  : list (option Hash) :=
  if decide (length src ≤ 1)%nat then src
  else
    let srcBlockS := omap (GetBlock bd) src in
    let srcBlockS :=
      if decide (2 ≤ length srcBlockS)%nat then sort_Sort srcBlockS
      else srcBlockS in
    (λ b, Some (b_hash b)) <$> srcBlockS.

End Framework.

Arguments BlockDAG : clear implicits.
Arguments Verdict : clear implicits.
Arguments IBlockDAG : clear implicits.
Arguments IBlockDAGQueries : clear implicits.

(** [Init]: the zero value of the framework, bound to a strategy whose
    [Init] left the state [s0], at wall time [now] (in seconds). *)
Definition Init {IState : Type} (s0 : IState) (now : Z) : BlockDAG IState :=
  mkBlockDAG 0%N ∅ 0 None now ∅ s0.

(** Feeding a sequence of inputs to [AddBlock]. *)
Fixpoint AddBlocks {IState : Type} (inst : IBlockDAG IState)
  (bd : BlockDAG IState) (bs : list (option BlockData))
  : result (BlockDAG IState) :=
  match bs with
  | [] => Ok bd
  | b :: bs' => r ← AddBlock inst bd b; AddBlocks inst r.1 bs'
  end.

(** ** A strategy to run the framework with *)

(** Modelled from the spec: a stand-in for the strategies, which are not part
    of the sources. Its state is the main chain, tip first; a block extends
    the main chain when its main parent is the main-chain tip; the order of
    a block is its insertion counter and the height of a main-chain block is
    its distance from genesis along the chain. *)
Module FirstParentChain.

Definition extends (bd : BlockDAG (list N)) (h : Hash) : bool :=
  match bd_instance bd with
  | [] => true
  | tip :: _ =>
      match bd_blocks bd !! h with
      | Some b => bool_decide (b_mainParent b = Some tip)
      | None => false
      end
  end.

Definition CreateBlock (bd : BlockDAG (list N)) (b : Block) : list N :=
  bd_instance bd.

Definition AddBlock (bd : BlockDAG (list N)) (h : Hash) : Verdict (list N) :=
  let chain := bd_instance bd in
  let ext := extends bd h in
  mkVerdict
    (if ext then h :: chain else chain)
    (λ b, if decide (b_hash b = h)
          then mkMarks (b_id b)
                 (if ext then Z.of_nat (length chain) else 0)
                 (b_weight b) (b_mainParent b)
          else marks_of b)
    (match bd_blocks bd !! h with
     | Some b => <[b_id b := h]> (bd_order bd)
     | None => bd_order bd
     end)
    (Some [h]).

Definition IsOnMainChain (bd : BlockDAG (list N)) (b : option Block) : bool :=
  match b with
  | Some b => bool_decide (b_hash b ∈ bd_instance bd)
  | None => false
  end.

Definition GetMainChainTip (bd : BlockDAG (list N)) : option Block :=
  match bd_instance bd with
  | [] => None
  | tip :: _ => bd_blocks bd !! tip
  end.

Definition strategy : IBlockDAG (list N) :=
  mkIBlockDAG CreateBlock AddBlock IsOnMainChain GetMainChainTip.

(** It leaves [GetTipsList] and [GetBlockByOrder] to the framework. *)
Definition queries : IBlockDAGQueries (list N) :=
  mkIBlockDAGQueries (λ _, None) (λ _ _, None).

End FirstParentChain.

(** Modelled from the spec: [IsExcellent] as the lexicographic preference on
    (mainHeight, total, layer, number of tips); a state does not dominate
    one it ties with. *)
Definition lexIsExcellent (gs other : GraphState) : bool :=
  if decide (gs_mainHeight gs ≠ gs_mainHeight other)
  then bool_decide (gs_mainHeight gs > gs_mainHeight other)
  else if decide (gs_total gs ≠ gs_total other)
  then bool_decide (gs_total gs > gs_total other)
  else if decide (gs_layer gs ≠ gs_layer other)
  then bool_decide (gs_layer gs > gs_layer other)
  else bool_decide (hs_Size (gs_tips gs) > hs_Size (gs_tips other)).

(** ** Fixtures *)

Module Fixtures.

Definition G : BlockData := mkBlockData 100 [] 10.
Definition A : BlockData := mkBlockData 101 [Some 100%N] 11.
Definition B : BlockData := mkBlockData 102 [Some 100%N] 12.
Definition C : BlockData := mkBlockData 103 [Some 101%N; Some 102%N] 13.
Definition B' : BlockData := mkBlockData 102 [Some 101%N] 12.

Definition start : BlockDAG (list N) := Init [] 0.

Definition run (bs : list BlockData) : result (BlockDAG (list N)) :=
  AddBlocks FirstParentChain.strategy start (Some <$> bs).

Definition D : BlockData := mkBlockData 104 [Some 102%N] 14.
Definition E : BlockData := mkBlockData 105 [Some 101%N; Some 102%N] 15.

(** The framework a run ends in. *)
Definition built (r : result (BlockDAG (list N))) : BlockDAG (list N) :=
  match r with
  | Ok bd => bd
  | _ => start
  end.

(** Linear chain of three, diamond, two tips. *)
Definition chain3 := run [G; A; B'].
Definition diamond := run [G; A; B; C].
Definition twoTips := run [G; A; B].

(** B, off the main chain G, A, E, gets the childless D and then E as
    children; and the same blocks with E arriving before D. *)
Definition fork := run [G; A; B; D; E].
Definition fork' := run [G; A; B; E; D].

End Fixtures.

(** ** Specification predicates *)

Section Predicates.
Context {IState : Type}.
Implicit Types (bd : BlockDAG IState).

(** The structural rejections of [AddBlock]: a nil input, a hash that is
    already stored, and, on a non-empty DAG, an empty parent list or a
    parent that is not stored. *)
Inductive Rejected bd : option BlockData → Prop :=
| rejected_nil : Rejected bd None
| rejected_known d :
    HasBlock bd (Some (d_hash d)) = true → Rejected bd (Some d)
| rejected_orphan d :
    bd_blockTotal bd > 0 → d_parents d = [] → Rejected bd (Some d)
| rejected_parent d (p : option N) :
    bd_blockTotal bd > 0 → p ∈ d_parents d → HasBlock bd p = false →
    Rejected bd (Some d).

(** What [AddBlock] asks of a block it stores. *)
Definition Accepted bd (d : BlockData) : Prop :=
  HasBlock bd (Some (d_hash d)) = false ∧
  (bd_blockTotal bd > 0 →
   d_parents d ≠ [] ∧ ∀ p, p ∈ d_parents d → HasBlock bd p = true).

(** The tip set, nil read as the empty set. *)
Definition tips_of bd : HashSet := default [] (bd_tips bd).

(** [l] is one more than the largest layer among the blocks [ps]. *)
Definition IsLayer bd (ps : HashSet) (l : Z) : Prop :=
  (∀ p, p ∈ ps → ∃ pb, bd_blocks bd !! p = Some pb ∧ b_layer pb + 1 ≤ l) ∧
  (∃ p pb, p ∈ ps ∧ bd_blocks bd !! p = Some pb ∧ l = b_layer pb + 1).

(** [c] is a child of [x]; the future of [x] is what its child edges
    reach, the past of [x] is what reaches it. *)
Definition child bd (x c : N) : Prop :=
  ∃ b, bd_blocks bd !! x = Some b ∧ c ∈ b_children b.

Definition Future bd : N → N → Prop := tc (child bd).

(** Neither [h], nor in its future, nor in its past. *)
Definition Anticone bd (h x : N) : Prop :=
  is_Some (bd_blocks bd !! x) ∧ x ≠ h ∧ ¬ Future bd h x ∧ ¬ Future bd x h.

(** The tips are exactly the stored blocks without children. *)
Definition TipsExact bd : Prop :=
  ∀ h, h ∈ tips_of bd ↔
       ∃ b, bd_blocks bd !! h = Some b ∧ b_children b = [].

(** Genesis is at layer 0 and every other block one above its highest
    parent. *)
Definition LayersExact bd : Prop :=
  ∀ h b, bd_blocks bd !! h = Some b →
    if decide (h = bd_genesis bd) then b_layer b = 0
    else ∃ ps, b_parents b = Some ps ∧ IsLayer bd ps (b_layer b).

(** The structural invariants of the framework. *)
Record WF bd : Prop := mkWF {
  wf_total : 0 ≤ bd_blockTotal bd < uint_size;
  wf_hash : ∀ h b, bd_blocks bd !! h = Some b → b_hash b = h;
  wf_id : ∀ h b, bd_blocks bd !! h = Some b →
    0 ≤ b_id b < bd_blockTotal bd;
  wf_id_inj : ∀ h1 h2 b1 b2,
    bd_blocks bd !! h1 = Some b1 → bd_blocks bd !! h2 = Some b2 →
    b_id b1 = b_id b2 → h1 = h2;
  wf_parents : ∀ h b ps,
    bd_blocks bd !! h = Some b → b_parents b = Some ps →
    ps ≠ [] ∧ NoDup ps ∧
    ∀ p, p ∈ ps →
      ∃ pb, bd_blocks bd !! p = Some pb ∧ h ∈ b_children pb ∧
            b_id pb < b_id b;
  wf_children : ∀ h b,
    bd_blocks bd !! h = Some b →
    NoDup (b_children b) ∧
    ∀ c, c ∈ b_children b →
      ∃ cb ps, bd_blocks bd !! c = Some cb ∧ b_parents cb = Some ps ∧
               h ∈ ps;
  wf_genesis : ∀ h b, bd_blocks bd !! h = Some b →
    (b_parents b = None ↔ h = bd_genesis bd);
  wf_genesis_known : ∀ h b, bd_blocks bd !! h = Some b →
    is_Some (bd_blocks bd !! bd_genesis bd);
  wf_tips :
    match bd_tips bd with
    | None => bd_blocks bd = ∅
    | Some ts => NoDup ts
    end ∧ TipsExact bd;
  wf_layer : ∀ h b, bd_blocks bd !! h = Some b →
    0 ≤ b_layer b ≤ b_id b ∧
    match b_parents b with
    | None => b_layer b = 0
    | Some ps => IsLayer bd ps (b_layer b)
    end
}.

End Predicates.

(** The frameworks that [Init] and fewer than 2^64 calls of [AddBlock]
    build. *)
Definition Reachable {IState : Type} (inst : IBlockDAG IState)
  (bd : BlockDAG IState) : Prop :=
  ∃ s0 now bs, Z.of_nat (length bs) < uint_size ∧
    AddBlocks inst (Init s0 now) bs = Ok bd.

(** ** Bookkeeping for the loop over the parents *)

(** The block map once the parents [done] have received the child [h]. *)
Definition adopted (m : gmap N Block) (h : N) (done : list N) (k : N)
  : option Block :=
  if decide (k ∈ done) then (λ b, AddChild b h) <$> m !! k else m !! k.

(** What holds of the loop state once the parents [done] are linked: [m]
    is the block map it started from, [h] and [id0] the hash and the
    insertion counter of the new block. *)
Record LinkInv (m : gmap N Block) (h : N) (id0 : Z) (done : list N)
  (st : Linking) : Prop := mkLinkInv {
  li_blocks : ∀ k, lk_blocks st !! k = adopted m h done k;
  li_block : ∃ qs,
    lk_block st = mkBlock id0 h (Some qs) [] (head done) 1 0 0 0 ∧
    NoDup qs ∧ ∀ p, p ∈ qs ↔ p ∈ done;
  li_covers : ∀ p, p ∈ done →
    ∃ pb, m !! p = Some pb ∧ b_layer pb ≤ lk_maxLayer st;
  li_attained :
    (done = [] ∧ lk_maxLayer st = 0) ∨
    ∃ p pb, p ∈ done ∧ m !! p = Some pb ∧ lk_maxLayer st = b_layer pb
}.

(** What [AddBlock] does to the structure of the framework when it stores
    [d]: counters, the new block, the blocks that were there, the tips. *)
Record Added {IState : Type} (bd : BlockDAG IState) (d : BlockData)
  (bd' : BlockDAG IState) : Prop := mkAdded {
  ad_total : bd_blockTotal bd' = bd_blockTotal bd + 1;
  ad_genesis : bd_genesis bd' =
    if decide (bd_blockTotal bd = 0) then d_hash d else bd_genesis bd;
  ad_lastTime : bd_lastTime bd' = bd_lastTime bd `max` d_timestamp d;
  ad_new : ∃ nb,
    bd_blocks bd' !! d_hash d = Some nb ∧
    b_id nb = bd_blockTotal bd ∧ b_hash nb = d_hash d ∧ b_children nb = [] ∧
    if decide (bd_blockTotal bd = 0)
    then b_parents nb = None ∧ b_layer nb = 0
    else ∃ qs, b_parents nb = Some qs ∧ qs ≠ [] ∧ NoDup qs ∧
               (∀ p, p ∈ qs ↔ Some p ∈ d_parents d) ∧
               IsLayer bd qs (b_layer nb);
  ad_old : ∀ k b, bd_blocks bd !! k = Some b →
    ∃ b', bd_blocks bd' !! k = Some b' ∧
      b_id b' = b_id b ∧ b_hash b' = b_hash b ∧
      b_parents b' = b_parents b ∧ b_layer b' = b_layer b ∧
      b_children b' =
        if decide (Some k ∈ d_parents d)
        then hs_Add (b_children b) (d_hash d) else b_children b;
  ad_fresh : ∀ k, k ≠ d_hash d → bd_blocks bd !! k = None →
    bd_blocks bd' !! k = None;
  ad_tips : ∃ ts, bd_tips bd' = Some ts ∧ NoDup ts ∧
    ∀ k, k ∈ ts ↔ k = d_hash d ∨ (k ∈ tips_of bd ∧ Some k ∉ d_parents d)
}.

(** ** Order of the located blocks, and the measure of the queue *)

(** (order, id) of [a] is at most that of [b]. *)
Definition BlockLe (a b : Block) : Prop :=
  b_order a < b_order b ∨ (b_order a = b_order b ∧ b_id a ≤ b_id b).

Definition HashLe {IState : Type} (bd : BlockDAG IState) (h1 h2 : N) : Prop :=
  ∃ b1 b2, bd_blocks bd !! h1 = Some b1 ∧ bd_blocks bd !! h2 = Some b2 ∧
           BlockLe b1 b2.

(** The sum of 2^i over a list of exponents. *)
Fixpoint sum_pow2 (l : list nat) : nat :=
  match l with
  | [] => 0
  | i :: l' => 2 ^ i + sum_pow2 l'
  end.


(** The insertion counter of a stored hash, as a natural number. *)
Definition idOf {IState : Type} (bd : BlockDAG IState) (k : N) : nat :=
  match bd_blocks bd !! k with
  | Some b => Z.to_nat (b_id b)
  | None => 0
  end.

(** The measure of a queue of [LocateBlocks]: a block weighs more than all
    blocks stored before it together. *)
Definition queueWeight {IState : Type} (bd : BlockDAG IState) (q : list N)
  : nat := sum_pow2 (idOf bd <$> q).

(** ** Declared parents *)

(** The hashes a block declares as parents, nil pointers left out. *)
Definition declared (d : BlockData) : list N := omap id (d_parents d).

(** ** Future sets *)

(** How many blocks a path of child edges from [b] can still visit. *)
Definition rank {IState : Type} (bd : BlockDAG IState) (b : Block) : nat :=
  Z.to_nat (bd_blockTotal bd - b_id b).

(** What [GetFutureSet] adds to [fs] for the block [h]. *)
Definition FutureAdded {IState : Type} (bd : BlockDAG IState) (h : N) (b : Block) (fs fs' : list N) : Prop :=
  NoDup fs' ∧
  (∀ x, x ∈ fs → x ∈ fs') ∧
  (∀ x, x ∈ fs' → x ∈ fs ∨ Future bd h x) ∧
  (∀ c, c ∈ b_children b → c ∈ fs') ∧
  (∀ x, x ∈ fs' → x ∉ fs → ∀ c, child bd x c → c ∈ fs').

(** ** Blocks of the fixtures *)

(** Genesis and the main-chain tip A as the two-tips DAG stores them. *)
Definition twoTipsG : Block :=
  mkBlock 0 100 None [101%N; 102%N] None 1 0 0 0.
Definition twoTipsA : Block :=
  mkBlock 1 101 (Some [100%N]) [] (Some 100%N) 1 1 1 1.

(** ** Confirmations and the order index *)

(** How far the insertion counter of a stored hash is from the last one. *)
Definition coId {IState : Type} (bd : BlockDAG IState) (k : N) : nat :=
  match bd_blocks bd !! k with
  | Some b => Z.to_nat (bd_blockTotal bd - 1 - b_id b)
  | None => 0
  end.

(** The measure of the queue of [GetConfirmations]: a block weighs more
    than all blocks stored after it together. *)
Definition confirmWeight {IState : Type} (bd : BlockDAG IState) (q : list N)
  : nat := sum_pow2 (coId bd <$> q).

(** The order index lists the stored blocks by their order: its keys are
    0, ..., n-1 and entry [i] is the hash of the stored block whose order
    is [i]. *)
Definition OrderIndexed {IState : Type} (bd : BlockDAG IState) : Prop :=
  (∀ i, is_Some (bd_order bd !! i) ↔ 0 ≤ i < Z.of_nat (size (bd_order bd))) ∧
  (∀ i p, bd_order bd !! i = Some p →
     ∃ pb, bd_blocks bd !! p = Some pb ∧ b_order pb = i) ∧
  (∀ h b, bd_blocks bd !! h = Some b → bd_order bd !! b_order b = Some h).

(** B and the main-chain tip E as the fork stores them; A and B' as the
    chain of three stores them. *)
Definition forkB : Block :=
  mkBlock 2 102 (Some [100%N]) [104%N; 105%N] (Some 100%N) 1 2 1 0.
Definition forkE : Block :=
  mkBlock 4 105 (Some [101%N; 102%N]) [] (Some 101%N) 1 4 2 2.
Definition chain3G : Block :=
  mkBlock 0 100 None [101%N] None 1 0 0 0.
Definition chain3A : Block :=
  mkBlock 1 101 (Some [100%N]) [102%N] (Some 100%N) 1 1 1 1.
Definition chain3B : Block :=
  mkBlock 2 102 (Some [101%N]) [] (Some 101%N) 1 2 2 2.

(** ** Anticone *)

(** Stored, not [hb] and not in the past of [hb]. *)
Definition Outside {IState : Type} (bd : BlockDAG IState) (hb x : N) : Prop :=
  is_Some (bd_blocks bd !! x) ∧ x ≠ hb ∧ ¬ Future bd x hb.

(** Every child of [x] is classified: none is [hb], each is in the future
    set [F] or in the anticone [A] gathered so far. *)
Definition admissible {IState : Type} (bd : BlockDAG IState) (hb : N)
  (F A : list N) (x : N) : Prop :=
  ∃ xb, bd_blocks bd !! x = Some xb ∧
        Forall (λ c, c ≠ hb ∧ (c ∈ F ∨ c ∈ A)) (b_children xb).

(** What holds between calls of [recAnticone]: [A] is the anticone
    gathered so far, [V] the blocks whose parents were visited. *)
Record AnticoneInv {IState : Type} (bd : BlockDAG IState) (hb : N)
  (F A : list N) (V : gset N) : Prop := mkAnticoneInv {
  ai_nodup : NoDup A;
  ai_split : ∀ x, x ∈ A ↔ x ∈ V ∧ x ∉ F;
  ai_sound : ∀ x, x ∈ V → Outside bd hb x
}.

(** What calls of [recAnticone] do to [A] and [V]: a parent of a block
    they expanded is expanded as soon as it is admissible. *)
Record AnticoneStep {IState : Type} (bd : BlockDAG IState) (hb : N)
  (F A : list N) (V : gset N) (A' : list N) (V' : gset N) : Prop :=
  mkAnticoneStep {
  as_inv : AnticoneInv bd hb F A' V';
  as_mono : V ⊆ V';
  as_closed : ∀ x p, x ∈ V' → x ∉ V → child bd p x → p ≠ hb →
    admissible bd hb F A' p → p ∈ V'
}.

(** * Properties *)

(** ** Hash sets *)

Section HashSets.
Implicit Types (s : list N) (h x : N).

Lemma hs_Has_true s h : hs_Has s h = true ↔ h ∈ s.
Proof. unfold hs_Has. by rewrite bool_decide_eq_true. Qed.

Lemma hs_Has_false s h : hs_Has s h = false ↔ h ∉ s.
Proof. unfold hs_Has. by rewrite bool_decide_eq_false. Qed.

Lemma elem_of_hs_Add s h x : x ∈ hs_Add s h ↔ x ∈ s ∨ x = h.
Proof.
  unfold hs_Add. destruct (hs_Has s h) eqn:Hh.
  - apply hs_Has_true in Hh. split; [by left|]. by intros [?| ->].
  - rewrite elem_of_app, list_elem_of_singleton. done.
Qed.

Lemma NoDup_hs_Add s h : NoDup s → NoDup (hs_Add s h).
Proof.
  intros Hs. unfold hs_Add. destruct (hs_Has s h) eqn:Hh; [done|].
  apply hs_Has_false in Hh. apply NoDup_app. split; [done|].
  split; [|apply NoDup_singleton].
  intros x Hx ->%list_elem_of_singleton. done.
Qed.

Lemma hs_Add_idemp s h : hs_Add (hs_Add s h) h = hs_Add s h.
Proof.
  unfold hs_Add at 1. 
  assert (hs_Has (hs_Add s h) h = true) as ->; [|done].
  apply hs_Has_true, elem_of_hs_Add. by right.
Qed.

Lemma hs_Add_nonempty s h : hs_Add s h ≠ [].
Proof.
  intros Heq. assert (h ∈ hs_Add s h) as Hin by (apply elem_of_hs_Add; by right).
  rewrite Heq in Hin. by apply elem_of_nil in Hin.
Qed.

Lemma elem_of_hs_Remove s h x : x ∈ hs_Remove s h ↔ x ∈ s ∧ x ≠ h.
Proof. unfold hs_Remove. rewrite list_elem_of_filter. tauto. Qed.

Lemma NoDup_hs_Remove s h : NoDup s → NoDup (hs_Remove s h).
Proof. apply NoDup_filter. Qed.

Lemma hs_IsEmpty_true s : hs_IsEmpty s = true ↔ s = [].
Proof. by destruct s. Qed.

End HashSets.

Lemma AddChild_idemp b h : AddChild (AddChild b h) h = AddChild b h.
Proof. unfold AddChild. simpl. by rewrite hs_Add_idemp. Qed.



(** ** Rejections and query misses *)

Section Rejections.
Context {IState : Type} (inst : IBlockDAG IState).
Implicit Types (bd : BlockDAG IState).

Lemma HasBlocks_false bd (ps : list (option N)) p :
  p ∈ ps → HasBlock bd p = false → HasBlocks bd ps = false.
Proof.
  induction ps as [|q ps IH]; intros Hin Hp.
  - by apply elem_of_nil in Hin.
  - apply elem_of_cons in Hin as [->|Hin]; simpl.
    + by rewrite Hp.
    + destruct (HasBlock bd q); simpl; [by apply IH | done].
Qed.

Lemma HasBlocks_true bd (ps : list (option N)) :
  HasBlocks bd ps = true ↔ ∀ p, p ∈ ps → HasBlock bd p = true.
Proof.
  induction ps as [|q ps IH]; simpl.
  - split; [intros _ p Hp; by apply elem_of_nil in Hp | done].
  - destruct (HasBlock bd q) eqn:Hq; simpl.
    + rewrite IH. split.
      * intros H p [->|Hp]%elem_of_cons; auto.
      * intros H p Hp. apply H. by right.
    + split; [done|]. intros H. rewrite <- Hq. apply H. by left.
Qed.

Lemma HasBlock_Some bd h :
  HasBlock bd (Some h) = true ↔ is_Some (bd_blocks bd !! h).
Proof.
  unfold HasBlock, GetBlock. destruct (bd_blocks bd !! h); split;
    first [done | by eauto | by intros [? ?]].
Qed.

(** A rejected input leaves [AddBlock] without effect. *)
Lemma AddBlock_Rejected bd (b : option BlockData) :
  Rejected bd b → AddBlock inst bd b = Ok (bd, None).
Proof.
  intros Hrej. destruct Hrej as [|d Hknown|d Htotal Hnil|d p Htotal Hin Hp];
    simpl; [done|by rewrite Hknown|..];
    destruct (HasBlock bd (Some (d_hash d))); try done;
    unfold GetBlockTotal; rewrite decide_True by done.
  - by rewrite Hnil.
  - rewrite (HasBlocks_false bd _ p Hin Hp). simpl.
    by destruct (decide (length (d_parents d) = 0%nat)).
Qed.

(** C1: [AddBlock] is atomic on rejection. For a nil input, a hash that is
    already among the blocks, or, on a non-empty DAG, a parent list that is
    empty or names a hash that is not among the blocks, [AddBlock] returns
    nil and the framework (blocks, blockTotal, tips, genesis, order,
    lastTime and the bound strategy) is the one it was called on; a second
    [AddBlock] of a stored hash is the second case. *)
Theorem AddBlock_rejection_atomic bd (b : option BlockData) :
  Rejected bd b → AddBlock inst bd b = Ok (bd, None).
Proof.
  intros [|d Hknown|d Htotal Hnil|d p Htotal Hin Hp]; simpl.
  - done.
  - by rewrite Hknown.
  - destruct (HasBlock bd (Some (d_hash d))); [done|].
    unfold GetBlockTotal. rewrite decide_True by done.
    rewrite Hnil. done.
  - destruct (HasBlock bd (Some (d_hash d))); [done|].
    unfold GetBlockTotal. rewrite decide_True by done.
    rewrite (HasBlocks_false bd _ p Hin Hp). simpl.
    by destruct (decide (length (d_parents d) = 0%nat)).
Qed.

(** C10: for a hash that is not among the blocks (or a nil pointer),
    [GetConfirmations] returns 0, whatever bound its loop is given. *)
Theorem GetConfirmations_unknown (fuel : nat) bd (h : option N) :
  GetBlock bd h = None → GetConfirmations inst fuel bd h = Ok 0.
Proof. intros Hnone. unfold GetConfirmations. by rewrite Hnone. Qed.

Lemma GetBlock_unknown bd h :
  bd_blocks bd !! h = None → GetBlock bd (Some h) = None.
Proof. done. Qed.

Lemma HasBlock_unknown bd h :
  bd_blocks bd !! h = None → HasBlock bd (Some h) = false.
Proof. intros H. unfold HasBlock, GetBlock. by rewrite H. Qed.

(** [GetLayer] calls [GetLayer()] on the nil interface that [GetBlock]
    returns for a hash that is not among the blocks. *)
Lemma GetLayer_unknown bd (h : option N) :
  GetBlock bd h = None → GetLayer bd h = Panic.
Proof. intros H. unfold GetLayer. by rewrite H. Qed.

Lemma GetLayer_known bd h b :
  bd_blocks bd !! h = Some b → GetLayer bd (Some h) = Ok (b_layer b).
Proof. intros H. unfold GetLayer, GetBlock. by rewrite H. Qed.

End Rejections.

(** C1 at an input: block B of the diamond offered a second time. *)
Lemma AddBlock_rejection_atomic_witness :
  ∃ bd, Fixtures.diamond = Ok bd ∧
    Rejected bd (Some Fixtures.B) ∧
    AddBlock FirstParentChain.strategy bd (Some Fixtures.B) = Ok (bd, None).
Proof.
  eexists. split; [vm_compute; reflexivity|].
  assert (Hrej : ∀ bd : BlockDAG (list N),
    HasBlock bd (Some 102%N) = true → Rejected bd (Some Fixtures.B)).
  { intros bd H. by apply rejected_known. }
  split.
  - apply Hrej. vm_compute. reflexivity.
  - apply (AddBlock_rejection_atomic FirstParentChain.strategy).
    apply Hrej. vm_compute. reflexivity.
Defined.

(** C10 at an input: a hash the two-tips DAG does not hold. *)
Lemma GetConfirmations_unknown_witness :
  GetBlock Fixtures.start (Some 7%N) = None ∧
  GetConfirmations FirstParentChain.strategy 5 Fixtures.start (Some 7%N) = Ok 0.
Proof.
  split; [reflexivity|].
  apply (GetConfirmations_unknown FirstParentChain.strategy 5 Fixtures.start
           (Some 7%N)).
  reflexivity.
Defined.

(** C9: at a hash that is not among the blocks [GetBlock] returns nil and
    [HasBlock] false, but [GetLayer] does not return: it panics, where the
    claim has it return a sentinel. Evaluated on the two-tips DAG at the
    hash 7, which it does not hold. *)
Theorem GetLayer_unknown_hash_panics :
  ∃ bd, Fixtures.twoTips = Ok bd ∧
    GetBlock bd (Some 7%N) = None ∧
    HasBlock bd (Some 7%N) = false ∧
    GetLayer bd (Some 7%N) = Panic.
Proof. eexists. split; [vm_compute; reflexivity|]. by vm_compute. Qed.

(** C5: B is off the main chain and has the main-chain block E (height 2,
    the main tip) among its children, so the claim gives it
    1 + 2 - 2 = 1 confirmation; the loop takes the childless D from the
    queue first and returns 0. With E stored before D it returns 1. *)
Theorem GetConfirmations_stops_at_childless :
  ∃ bd bd', Fixtures.fork = Ok bd ∧ Fixtures.fork' = Ok bd' ∧
    IsOnMainChain FirstParentChain.strategy bd (Some 102%N) = false ∧
    b_children <$> bd_blocks bd !! 102%N = Some [104%N; 105%N] ∧
    IsOnMainChain FirstParentChain.strategy bd (Some 105%N) = true ∧
    b_height <$> GetMainChainTip FirstParentChain.strategy bd = Some 2 ∧
    b_height <$> bd_blocks bd !! 105%N = Some 2 ∧
    GetConfirmations FirstParentChain.strategy 10 bd (Some 102%N) = Ok 0 ∧
    GetConfirmations FirstParentChain.strategy 10 bd' (Some 102%N) = Ok 1.
Proof.
  eexists _, _.
  split; [vm_compute; reflexivity|].
  split; [vm_compute; reflexivity|].
  by vm_compute.
Qed.

Section FirstBlock.
Context {IState : Type} (inst : IBlockDAG IState).
Implicit Types (bd : BlockDAG IState).

(** C8, as the code has it: on an empty DAG (no blocks, blockTotal 0, no
    tip set yet) [AddBlock] accepts every block, whatever parents it
    declares: the block is stored without parents, at layer 0 and with
    id 0, becomes genesis and the only tip, and blockTotal becomes 1. *)
Theorem AddBlock_first_block bd (d : BlockData) :
  bd_blockTotal bd = 0 → bd_blocks bd = ∅ → bd_tips bd = None →
  ∃ bd' r b,
    AddBlock inst bd (Some d) = Ok (bd', r) ∧
    bd_genesis bd' = d_hash d ∧
    bd_blockTotal bd' = 1 ∧
    bd_tips bd' = Some [d_hash d] ∧
    bd_blocks bd' !! d_hash d = Some b ∧
    b_parents b = None ∧ b_children b = [] ∧ b_layer b = 0 ∧ b_id b = 0 ∧
    ∀ h, h ≠ d_hash d → bd_blocks bd' !! h = None.
Proof.
  intros Htotal Hblocks Htips.
  unfold AddBlock, HasBlock, GetBlock, GetBlockTotal, IsDAG.
  rewrite Hblocks, lookup_empty, Htotal. simpl.
  unfold updateTips. simpl. rewrite Htips. simpl.
  eexists _, _, _. split; [reflexivity|]. simpl.
  split; [done|]. split; [done|]. split; [done|].
  split; [by rewrite lookup_fmap, lookup_insert_eq|]. simpl.
  split_and!; try done.
  intros h Hne. by rewrite lookup_fmap, lookup_insert_ne, lookup_empty.
Qed.

End FirstBlock.

(** C8 at an input: block A, which declares G as its parent, offered to the
    framework as [Init] leaves it. *)
Lemma AddBlock_first_block_witness :
  bd_blockTotal Fixtures.start = 0 ∧ bd_blocks Fixtures.start = ∅ ∧
  bd_tips Fixtures.start = None ∧
  ∃ bd' r b,
    AddBlock FirstParentChain.strategy Fixtures.start (Some Fixtures.A)
      = Ok (bd', r) ∧
    bd_genesis bd' = 101%N ∧
    bd_blockTotal bd' = 1 ∧
    bd_tips bd' = Some [101%N] ∧
    bd_blocks bd' !! 101%N = Some b ∧
    b_parents b = None ∧ b_children b = [] ∧ b_layer b = 0 ∧ b_id b = 0 ∧
    ∀ h, h ≠ 101%N → bd_blocks bd' !! h = None.
Proof.
  split; [reflexivity|]. split; [reflexivity|]. split; [reflexivity|].
  apply (AddBlock_first_block FirstParentChain.strategy Fixtures.start
           Fixtures.A); reflexivity.
Defined.

(** C8 as stated fails: A declares a parent, the DAG is empty, and
    [AddBlock] neither returns nil nor leaves the DAG empty. *)
Lemma AddBlock_first_block_with_parents_accepted :
  bd_blockTotal Fixtures.start = 0 ∧ d_parents Fixtures.A ≠ [] ∧
  ∃ bd', AddBlock FirstParentChain.strategy Fixtures.start (Some Fixtures.A)
           = Ok (bd', Some [101%N]) ∧
         bd_blockTotal bd' = 1 ∧ bd_genesis bd' = 101%N ∧
         is_Some (bd_blocks bd' !! 101%N).
Proof.
  split; [reflexivity|]. split; [done|].
  eexists. split; [vm_compute; reflexivity|].
  split; [reflexivity|]. split; [reflexivity|].
  eexists. vm_compute. reflexivity.
Qed.

Section Locator.
Context {IState : Type} (inst : IBlockDAG IState).
Context (IsExcellent : GraphState → GraphState → bool).
Implicit Types (bd : BlockDAG IState).

(** C6, as the code has it: [LocateBlocks] returns nil when the peer's
    state strictly dominates the framework's own, that is when
    [gs.IsExcellent(bd.GetGraphState())] holds. *)
Theorem LocateBlocks_peer_excellent (fuel : nat) bd (gs ours : GraphState)
  (maxHashes : Z) :
  GetGraphState inst bd = Ok ours → IsExcellent gs ours = true →
  LocateBlocks inst IsExcellent fuel bd gs maxHashes = Ok None.
Proof.
  intros Hours Hex. unfold LocateBlocks. rewrite Hours. simpl.
  by rewrite Hex.
Qed.

End Locator.

(** C6 at an input: a peer ahead of the two-tips DAG on the main chain. *)
Lemma LocateBlocks_peer_excellent_witness :
  Fixtures.twoTips = Ok (Fixtures.built Fixtures.twoTips) ∧
  GetGraphState FirstParentChain.strategy (Fixtures.built Fixtures.twoTips)
    = Ok (mkGraphState [101%N; 102%N] 1 3 1) ∧
  lexIsExcellent (mkGraphState [109%N] 9 10 9)
    (mkGraphState [101%N; 102%N] 1 3 1) = true ∧
  LocateBlocks FirstParentChain.strategy lexIsExcellent 0
    (Fixtures.built Fixtures.twoTips) (mkGraphState [109%N] 9 10 9) 5
    = Ok None.
Proof.
  split; [vm_compute; reflexivity|].
  split; [vm_compute; reflexivity|].
  split; [vm_compute; reflexivity|].
  apply (LocateBlocks_peer_excellent FirstParentChain.strategy lexIsExcellent
           0 (Fixtures.built Fixtures.twoTips) (mkGraphState [109%N] 9 10 9)
           (mkGraphState [101%N; 102%N] 1 3 1) 5);
    vm_compute; reflexivity.
Defined.

(** C6 as stated fails: a peer whose state equals that of the two-tips DAG
    is not dominated by it, and [LocateBlocks] returns the two tips. *)
Lemma LocateBlocks_equal_states_not_empty :
  ∃ bd ours, Fixtures.twoTips = Ok bd ∧
    GetGraphState FirstParentChain.strategy bd = Ok ours ∧
    lexIsExcellent ours ours = false ∧
    LocateBlocks FirstParentChain.strategy lexIsExcellent 10 bd ours 5
      = Ok (Some [101%N; 102%N]).
Proof.
  eexists _, _. split; [vm_compute; reflexivity|].
  split; [vm_compute; reflexivity|].
  split; vm_compute; reflexivity.
Qed.

(** ** The loop over the parents *)

Section Linking.
Context (m : gmap N Block) (h : N) (id0 : Z).
Hypothesis m_hash : ∀ k b, m !! k = Some b → b_hash b = k.
Hypothesis m_layer : ∀ k b, m !! k = Some b → 0 ≤ b_layer b.

Lemma linkParents_inv (ps : list (option N)) : ∀ done st,
  LinkInv m h id0 done st →
  Forall (λ p, ∃ k, p = Some k ∧ is_Some (m !! k)) ps →
  ∃ st', linkParents (bool_decide (done = [])) ps st = Ok st' ∧
         LinkInv m h id0 (done ++ omap id ps) st'.
Proof.
  induction ps as [|p ps IH]; intros done st Hinv Hps.
  - exists st. simpl. by rewrite app_nil_r.
  - apply Forall_cons in Hps as [(k & -> & [pb Hpb]) Hps].
    destruct Hinv as [Hblocks (qs & Hblock & Hnd & Hqs) Hcov Hatt].
    assert (∃ parent, lk_blocks st !! k = Some parent ∧
              AddChild parent h = AddChild pb h ∧ b_layer parent = b_layer pb ∧
              b_hash parent = k) as (parent & Hparent & Hadd & Hlayer & Hhash).
    { rewrite Hblocks. unfold adopted. rewrite Hpb. simpl.
      destruct (decide (k ∈ done)); eexists; (split; [done|]).
      - rewrite AddChild_idemp. split_and!; [done|done|]. simpl. eauto.
      - split_and!; [done|done|]. eauto. }
    set (st1 := mkLinking (<[k := AddChild pb h]> (lk_blocks st))
                  (mkBlock id0 h (Some (hs_Add qs k)) [] (head (done ++ [k])) 1 0 0 0)
                  (if decide (lk_maxLayer st = 0 ∨ lk_maxLayer st < b_layer pb)
                   then b_layer pb else lk_maxLayer st)).
    assert (LinkInv m h id0 (done ++ [k]) st1) as Hinv1.
    { split; simpl.
      - intros k'. unfold adopted. destruct (decide (k' = k)) as [->|Hne].
        + rewrite lookup_insert_eq.
          rewrite decide_True by (apply elem_of_app; right; by left).
          by rewrite Hpb.
        + rewrite lookup_insert_ne by done. rewrite Hblocks. unfold adopted.
          destruct (decide (k' ∈ done)) as [Hd|Hd],
            (decide (k' ∈ done ++ [k])) as [Hd'|Hd']; try done.
          * exfalso. apply Hd'. apply elem_of_app. by left.
          * apply elem_of_app in Hd' as [?| ->%list_elem_of_singleton]; done.
      - exists (hs_Add qs k). split; [done|]. split; [by apply NoDup_hs_Add|].
        intros p. rewrite elem_of_hs_Add, elem_of_app, list_elem_of_singleton.
        by rewrite Hqs.
      - pose proof (m_layer k pb Hpb) as Hk0.
        intros p [Hp| ->%list_elem_of_singleton]%elem_of_app.
        + destruct (Hcov p Hp) as (pb' & Hpb' & Hle). exists pb'.
          split; [done|]. case_decide; lia.
        + exists pb. split; [done|]. case_decide; lia.
      - right. case_decide as Hc.
        + exists k, pb. split; [apply elem_of_app; right; by left|done].
        + destruct Hatt as [[_ H0]|(p & pb' & Hp & Hpb' & Hmax)]; [tauto|].
          exists p, pb'. split; [apply elem_of_app; by left|done]. }
    destruct (IH (done ++ [k]) st1 Hinv1 Hps) as (st' & Hrun & Hinv').
    exists st'. split.
    + simpl. rewrite Hparent. simpl. rewrite Hblock. simpl.
      rewrite bool_decide_eq_false_2 in Hrun by (by destruct done).
      rewrite <- Hrun. f_equal. unfold st1. f_equal.
      * by rewrite Hadd.
      * unfold SetParents, SetMainParent. simpl. rewrite Hhash.
        destruct done; simpl; by rewrite ?bool_decide_eq_true_2, ?bool_decide_eq_false_2.
      * by rewrite Hlayer.
    + by rewrite <- app_assoc in Hinv'.
Qed.

End Linking.

(** ** Storing a block *)

Section Adding.
Context {IState : Type} (inst : IBlockDAG IState).
Implicit Types (bd : BlockDAG IState).

Lemma pruneTips_spec bd (keys : list N) : ∀ tips : list N,
  (∀ k, k ∈ keys → is_Some (bd_blocks bd !! k)) →
  ∃ ts, pruneTips bd keys tips = Ok ts ∧
    (NoDup tips → NoDup ts) ∧
    ∀ x, x ∈ ts ↔
      x ∈ tips ∧
      ¬ (x ∈ keys ∧ ∃ b, bd_blocks bd !! x = Some b ∧ b_children b ≠ []).
Proof.
  induction keys as [|k keys IH]; intros tips Hknown.
  - exists tips. split; [done|]. split; [done|]. intros x.
    split; [|tauto]. intros Hx. split; [done|].
    intros [Hnil _]. by apply elem_of_nil in Hnil.
  - destruct (Hknown k) as [b Hb]; [by left|].
    simpl. rewrite Hb. simpl.
    destruct (IH (if HasChildren b then hs_Remove tips k else tips))
      as (ts & Hrun & Hnd & Hts).
    { intros k' Hk'. apply Hknown. by right. }
    exists ts. split; [done|]. split.
    { intros Htips. apply Hnd. destruct (HasChildren b); [|done].
      by apply NoDup_hs_Remove. }
    intros x. rewrite Hts. clear Hts Hrun Hnd IH.
    unfold HasChildren. destruct (hs_IsEmpty (b_children b)) eqn:He; simpl.
    + apply hs_IsEmpty_true in He. split.
      * intros [Hx Hno]. split; [done|].
        intros [[->|Hin]%elem_of_cons (b' & Hb' & Hne)].
        -- rewrite Hb in Hb'. by simplify_eq.
        -- apply Hno. eauto.
      * intros [Hx Hno]. split; [done|]. intros [Hin Hch].
        apply Hno. split; [by right|done].
    + assert (b_children b ≠ []) as Hne
        by (intros Heq; by rewrite Heq in He).
      rewrite elem_of_hs_Remove. split.
      * intros [[Hx Hxk] Hno]. split; [done|].
        intros [[->|Hin]%elem_of_cons Hch]; [done|]. apply Hno. eauto.
      * intros [Hx Hno]. split; [split; [done|] |].
        -- intros ->. apply Hno. split; [by left|eauto].
        -- intros [Hin Hch]. apply Hno. split; [by right|done].
Qed.

Lemma HasBlock_true_inv bd (p : option N) :
  HasBlock bd p = true → ∃ k, p = Some k ∧ is_Some (bd_blocks bd !! k).
Proof.
  unfold HasBlock, GetBlock. destruct p as [k|]; [|done].
  destruct (bd_blocks bd !! k) eqn:Hk; [|done]. eauto.
Qed.

Lemma elem_of_omap_id (ps : list (option N)) (k : N) :
  k ∈ omap id ps ↔ Some k ∈ ps.
Proof.
  rewrite list_elem_of_omap. split.
  - intros (x & Hx & Heq). simpl in Heq. by subst.
  - intros Hk. by exists (Some k).
Qed.

Lemma AddBlock_Added bd (d : BlockData) :
  WF bd → bd_blockTotal bd + 1 < uint_size → Accepted bd d →
  ∃ bd' r, AddBlock inst bd (Some d) = Ok (bd', r) ∧ Added bd d bd'.
Proof.
  intros Hwf Hbound [Hfresh Hpar].
  pose proof (wf_total bd Hwf) as Htotal.
  assert (bd_blocks bd !! d_hash d = None) as Hnew.
  { unfold HasBlock, GetBlock in Hfresh.
    by destruct (bd_blocks bd !! d_hash d). }
  unfold AddBlock. rewrite Hfresh. unfold GetBlockTotal, IsDAG.
  destruct (decide (bd_blockTotal bd > 0)) as [Hpos|Hzero].
  - destruct (Hpar Hpos) as [Hne Hknown].
    rewrite decide_False by (destruct (d_parents d); done).
    rewrite (proj2 (HasBlocks_true bd _) Hknown). simpl.
    set (block0 := mkBlock (bd_blockTotal bd) (d_hash d) None [] None 1 0 0 0).
    set (st0 := mkLinking (bd_blocks bd) (SetParents block0 (Some NewHashSet)) 0).
    assert (LinkInv (bd_blocks bd) (d_hash d) (bd_blockTotal bd) [] st0) as Hinv0.
    { split; simpl.
      - intros k. unfold adopted. by rewrite decide_False by apply not_elem_of_nil.
      - exists []. split; [done|]. split; [constructor|done].
      - intros p Hp. by apply elem_of_nil in Hp.
      - by left. }
    destruct (linkParents_inv (bd_blocks bd) (d_hash d) (bd_blockTotal bd) (wf_hash bd Hwf)
                (λ k b Hb, proj1 (proj1 (wf_layer bd Hwf k b Hb)))
                (d_parents d) [] st0 Hinv0) as (st & Hrun & Hinv).
    { apply Forall_forall. intros p Hp. apply HasBlock_true_inv. auto. }
    simpl in Hrun.
    set (P := omap id (d_parents d)) in *.
    destruct Hinv as [Hblocks (qs & Hblock & Hnd & Hqs) Hcov Hatt].
    simpl in Hblocks, Hqs, Hcov, Hatt.
    assert (∀ p, p ∈ qs ↔ Some p ∈ d_parents d) as Hqs'.
    { intros p. rewrite Hqs. apply elem_of_omap_id. }
    assert (qs ≠ []) as Hqne.
    { destruct (d_parents d) as [|p0 ps0] eqn:Hps; [done|].
      destruct (HasBlock_true_inv bd p0) as (k0 & -> & _).
      { apply Hknown. by left. }
      intros Hq. assert (k0 ∈ qs) as Hin by (apply Hqs'; by left).
      rewrite Hq in Hin. by apply elem_of_nil in Hin. }
    assert (IsLayer bd qs (lk_maxLayer st + 1)) as Hlayer.
    { split.
      - intros p Hp. destruct (Hcov p (proj1 (Hqs p) Hp)) as (pb & Hpb & Hle).
        exists pb. split; [done|lia].
      - destruct Hatt as [[HP _]|(p & pb & Hp & Hpb & Hmax)].
        + destruct qs as [|q qs']; [done|].
          assert (q ∈ P) as Hq by (apply Hqs; by left).
          rewrite HP in Hq. by apply elem_of_nil in Hq.
        + exists p, pb. split; [by apply Hqs|]. split; [done|lia]. }
    assert (uint (lk_maxLayer st + 1) = lk_maxLayer st + 1) as Huint.
    { destruct Hlayer as [_ (p & pb & Hp & Hpb & Hmax)].
      pose proof (wf_layer bd Hwf p pb Hpb) as [Hl _].
      pose proof (wf_id bd Hwf p pb Hpb) as Hid.
      unfold uint. apply Z.mod_small. lia. }
    assert (uint (bd_blockTotal bd + 1) = bd_blockTotal bd + 1) as Hutotal.
    { unfold uint. apply Z.mod_small. lia. }
    destruct (bd_tips bd) as [ts|] eqn:Htips; last first.
    { exfalso. pose proof (wf_tips bd Hwf) as [Hempty _].
      rewrite Htips in Hempty.
      destruct Hlayer as [_ (p & pb & _ & Hpb & _)].
      rewrite Hempty in Hpb. by rewrite lookup_empty in Hpb. }
    pose proof (wf_tips bd Hwf) as [Hts_nd Hts]. rewrite Htips in Hts_nd.
    unfold TipsExact, tips_of in Hts. rewrite Htips in Hts. simpl in Hts.
    set (nb := SetLayer (lk_block st) (lk_maxLayer st + 1)).
    set (m1 := <[(d_hash d) := nb]> (lk_blocks st)).
    assert (∀ k, m1 !! k = if decide (k = (d_hash d)) then Some nb
                           else adopted (bd_blocks bd) (d_hash d) P k) as Hm1.
    { intros k. unfold m1. case_decide as Hk.
      - subst k. by rewrite lookup_insert_eq.
      - by rewrite lookup_insert_ne, Hblocks. }
    set (bd1 := mkBlockDAG (bd_genesis bd) m1 (bd_blockTotal bd + 1)
                  (Some ts) (bd_lastTime bd) (bd_order bd)
                  (iCreateBlock inst bd nb)).
    destruct (pruneTips_spec bd1 ts ts) as (ts' & Hprune & Hnd' & Hts').
    { intros k Hk. simpl. rewrite Hm1. case_decide; [done|].
      apply Hts in Hk as (b & Hb & _). unfold adopted.
      rewrite Hb. by case_decide. }
    assert (∀ x, x ∈ ts' ↔ x ∈ ts ∧ Some x ∉ d_parents d) as Hts''.
    { intros x. rewrite Hts'. simpl. split.
      - intros [Hx Hno]. split; [done|]. intros Hin. apply Hno.
        split; [done|]. apply Hts in Hx as (b & Hb & Hch).
        exists (AddChild b (d_hash d)). rewrite Hm1.
        rewrite decide_False by (intros ->; congruence).
        unfold adopted. rewrite decide_True by by apply elem_of_omap_id.
        rewrite Hb. split; [done|]. simpl. apply hs_Add_nonempty.
      - intros [Hx Hno]. split; [done|]. intros [_ (b' & Hb' & Hch)].
        pose proof Hx as Hx'. apply Hts in Hx' as (b & Hb & Hch0).
        rewrite Hm1 in Hb'.
        rewrite decide_False in Hb' by (intros ->; congruence).
        unfold adopted in Hb'.
        rewrite decide_False in Hb' by (unfold P; by rewrite elem_of_omap_id).
        congruence. }
    assert (∀ (A : Type) (a b : A),
      match d_parents d with [] => a | _ :: _ => b end = b) as Hmatch
      by (intros; by destruct (d_parents d)).
    rewrite Hmatch, Hrun. simpl. rewrite Huint, Hutotal.
    rewrite decide_False by lia.
    fold nb. unfold updateTips. simpl.
    assert (b_hash (lk_block st) = (d_hash d)) as Hnbh by by rewrite Hblock.
    rewrite Hnbh. fold m1. fold bd1. rewrite Hprune. simpl.
    eexists _, _. split; [reflexivity|].
    split; simpl.
    + done.
    + by destruct (decide (bd_blockTotal bd = 0)); [lia|].
    + case_decide; lia.
    + eexists. split.
      { rewrite lookup_fmap, Hm1.
        destruct (decide (d_hash d = d_hash d)); [reflexivity|done]. }
      unfold nb. rewrite Hblock. simpl. split_and!; try done.
      destruct (decide (bd_blockTotal bd = 0)); [lia|]. exists qs. done.
    + intros k b Hb. rewrite lookup_fmap, Hm1.
      destruct (decide (k = d_hash d)) as [->|_]; [congruence|].
      unfold adopted. rewrite Hb.
      destruct (decide (k ∈ P)) as [Hk|Hk]; simpl.
      * eexists. split; [done|]. simpl. split_and!; try done.
        case_decide as Hno; [done|].
        exfalso. apply Hno. apply elem_of_omap_id. exact Hk.
      * eexists. split; [done|]. simpl. split_and!; try done.
        case_decide as Hin; [|done].
        exfalso. apply Hk. apply elem_of_omap_id. exact Hin.
    + intros k Hk Hnone.
      rewrite lookup_fmap, Hm1.
      destruct (decide (k = d_hash d)); [done|].
      unfold adopted. rewrite Hnone. by destruct (decide (k ∈ P)).
    + exists (hs_Add ts' (d_hash d)). split; [done|].
      split; [apply NoDup_hs_Add; auto|].
      intros k. rewrite elem_of_hs_Add, Hts''. unfold tips_of.
      rewrite Htips. simpl. tauto.
  - assert (bd_blockTotal bd = 0) as H0 by lia.
    assert (bd_blocks bd = ∅) as Hempty.
    { apply map_eq. intros k. rewrite lookup_empty.
      destruct (bd_blocks bd !! k) as [b|] eqn:Hb; [|done].
      pose proof (wf_id bd Hwf k b Hb). lia. }
    assert (tips_of bd = []) as Htips.
    { destruct (tips_of bd) as [|x ts] eqn:Hts; [done|].
      pose proof (wf_tips bd Hwf) as [_ Hex].
      destruct (proj1 (Hex x)) as (b & Hb & _); [rewrite Hts; by left|].
      by rewrite Hempty, lookup_empty in Hb. }
    assert (∃ ts, updateTips
      (mkBlockDAG (d_hash d)
         (<[d_hash d := mkBlock 0 (d_hash d) None [] None 1 0 0 0]> ∅) 1
         (bd_tips bd) (bd_lastTime bd) (bd_order bd)
         (iCreateBlock inst bd (mkBlock 0 (d_hash d) None [] None 1 0 0 0)))
      (mkBlock 0 (d_hash d) None [] None 1 0 0 0)
      = Ok (mkBlockDAG (d_hash d)
         (<[d_hash d := mkBlock 0 (d_hash d) None [] None 1 0 0 0]> ∅) 1
         (Some ts) (bd_lastTime bd) (bd_order bd)
         (iCreateBlock inst bd (mkBlock 0 (d_hash d) None [] None 1 0 0 0)))
      ∧ ts = [d_hash d]) as (ts & Hupd & ->).
    { unfold updateTips, tips_of in *. simpl.
      destruct (bd_tips bd) as [ts|]; simpl in *.
      - subst ts. simpl. eauto.
      - eauto. }
    simpl. rewrite Hempty, H0. simpl.
    change (uint (0 + 1)) with 1. rewrite Hupd. simpl.
    eexists _, _. split; [reflexivity|].
    split; simpl.
    + lia.
    + by rewrite H0.
    + case_decide; lia.
    + eexists. split; [by rewrite lookup_fmap, lookup_insert_eq|].
      simpl. rewrite H0. done.
    + intros k b Hb. by rewrite Hempty, lookup_empty in Hb.
    + intros k Hk _. by rewrite lookup_fmap, lookup_insert_ne, lookup_empty.
    + exists [d_hash d]. split; [done|]. split; [apply NoDup_singleton|].
      intros k. rewrite list_elem_of_singleton, Htips.
      split; [by left|]. intros [?|[Hnil _]]; [done|].
      by apply elem_of_nil in Hnil.
Qed.

Lemma Added_lookup bd (d : BlockData) bd' :
  Added bd d bd' → ∀ k b', bd_blocks bd' !! k = Some b' →
  k = d_hash d ∨
  (k ≠ d_hash d ∧ ∃ b, bd_blocks bd !! k = Some b ∧
     b_id b' = b_id b ∧ b_hash b' = b_hash b ∧
     b_parents b' = b_parents b ∧ b_layer b' = b_layer b ∧
     b_children b' =
       if decide (Some k ∈ d_parents d)
       then hs_Add (b_children b) (d_hash d) else b_children b).
Proof.
  intros Had k b' Hb'. destruct (decide (k = d_hash d)) as [|Hne]; [by left|].
  right. split; [done|].
  destruct (bd_blocks bd !! k) as [b|] eqn:Hb.
  - destruct (ad_old _ _ _ Had k b Hb) as (b'' & Hb'' & Hrest).
    exists b. split; [done|]. congruence.
  - rewrite (ad_fresh _ _ _ Had k Hne Hb) in Hb'. done.
Qed.

Lemma IsLayer_mono bd bd' (ps : list N) (l : Z) :
  (∀ p pb, bd_blocks bd !! p = Some pb →
     ∃ pb', bd_blocks bd' !! p = Some pb' ∧ b_layer pb' = b_layer pb) →
  IsLayer bd ps l → IsLayer bd' ps l.
Proof.
  intros Hkeep [Hall (p & pb & Hp & Hpb & Hl)]. split.
  - intros q Hq. destruct (Hall q Hq) as (qb & Hqb & Hle).
    destruct (Hkeep q qb Hqb) as (qb' & Hqb' & Heq).
    exists qb'. split; [done|lia].
  - destruct (Hkeep p pb Hpb) as (pb' & Hpb' & Heq).
    exists p, pb'. split; [done|]. split; [done|lia].
Qed.

Lemma Added_WF bd (d : BlockData) bd' :
  WF bd → bd_blockTotal bd + 1 < uint_size →
  bd_blocks bd !! d_hash d = None →
  Added bd d bd' → WF bd'.
Proof.
  intros Hwf Hbound Hnew Had.
  pose proof (wf_total bd Hwf) as Htotal.
  pose proof (Added_lookup bd d bd' Had) as Hlook.
  destruct (ad_new _ _ _ Had) as (nb & Hnb & Hnid & Hnhash & Hnch & Hnpar).
  assert (∀ p pb, bd_blocks bd !! p = Some pb →
     ∃ pb', bd_blocks bd' !! p = Some pb' ∧ b_layer pb' = b_layer pb) as Hkeep.
  { intros p pb Hpb. destruct (ad_old _ _ _ Had p pb Hpb) as (pb' & ? & ? & ? & ? & ? & ?).
    eauto. }
  assert (∀ k b, bd_blocks bd !! k = Some b → bd_blockTotal bd ≠ 0) as Hnz.
  { intros k b Hb. pose proof (wf_id bd Hwf k b Hb). lia. }
  split.
  - rewrite (ad_total _ _ _ Had). lia.
  - intros k b' Hb'. destruct (Hlook k b' Hb') as [->|(Hne & b & Hb & _ & Hh & _)].
    + congruence.
    + rewrite Hh. by apply (wf_hash bd Hwf).
  - intros k b' Hb'. rewrite (ad_total _ _ _ Had).
    destruct (Hlook k b' Hb') as [->|(Hne & b & Hb & Hid & _)].
    + assert (b' = nb) as -> by congruence. lia.
    + pose proof (wf_id bd Hwf k b Hb). lia.
  - intros k1 k2 b1 b2 Hb1 Hb2 Heq.
    destruct (Hlook k1 b1 Hb1) as [->|(Hne1 & c1 & Hc1 & Hid1 & _)],
             (Hlook k2 b2 Hb2) as [->|(Hne2 & c2 & Hc2 & Hid2 & _)].
    + done.
    + assert (b1 = nb) as -> by congruence.
      pose proof (wf_id bd Hwf k2 c2 Hc2). lia.
    + assert (b2 = nb) as -> by congruence.
      pose proof (wf_id bd Hwf k1 c1 Hc1). lia.
    + apply (wf_id_inj bd Hwf k1 k2 c1 c2 Hc1 Hc2). lia.
  - intros k b' ps Hb' Hps.
    destruct (Hlook k b' Hb') as [->|(Hne & b & Hb & Hid & _ & Hpar & _)].
    + assert (b' = nb) as -> by congruence.
      destruct (decide (bd_blockTotal bd = 0)) as [|Hz];
        [destruct Hnpar; congruence|].
      destruct Hnpar as (qs & Hqs & Hqne & Hqnd & Hqin & Hql).
      assert (ps = qs) as -> by congruence.
      split; [done|]. split; [done|]. intros p Hp.
      destruct (proj1 Hql p Hp) as (pb & Hpb & _).
      destruct (ad_old _ _ _ Had p pb Hpb) as (pb' & Hpb' & Hpid & _ & _ & _ & Hpch).
      exists pb'. split; [done|].
      rewrite decide_True in Hpch by by apply Hqin.
      split; [rewrite Hpch; apply elem_of_hs_Add; by right|].
      pose proof (wf_id bd Hwf p pb Hpb). lia.
    + rewrite Hpar in Hps.
      destruct (wf_parents bd Hwf k b ps Hb Hps) as (Hpne & Hpnd & Hpin).
      split; [done|]. split; [done|]. intros p Hp.
      destruct (Hpin p Hp) as (pb & Hpb & Hkin & Hlt).
      destruct (ad_old _ _ _ Had p pb Hpb) as (pb' & Hpb' & Hpid & _ & _ & _ & Hpch).
      exists pb'. split; [done|]. split; [|lia].
      rewrite Hpch. case_decide; [|done]. apply elem_of_hs_Add. by left.
  - intros k b' Hb'.
    destruct (Hlook k b' Hb') as [->|(Hne & b & Hb & _ & _ & _ & _ & Hch)].
    + assert (b' = nb) as -> by congruence. rewrite Hnch.
      split; [constructor|]. intros c Hc. by apply elem_of_nil in Hc.
    + destruct (wf_children bd Hwf k b Hb) as [Hcnd Hcin].
      assert (∀ c, c ∈ b_children b →
        ∃ cb ps, bd_blocks bd' !! c = Some cb ∧ b_parents cb = Some ps ∧ k ∈ ps)
        as Hold.
      { intros c Hc. destruct (Hcin c Hc) as (cb & ps & Hcb & Hps & Hk).
        destruct (ad_old _ _ _ Had c cb Hcb) as (cb' & Hcb' & _ & _ & Hcp & _).
        exists cb', ps. split; [done|]. split; [congruence|done]. }
      rewrite Hch. case_decide as Hpar; [|done].
      split; [by apply NoDup_hs_Add|].
      intros c [Hc| ->]%elem_of_hs_Add; [by apply Hold|].
      destruct (decide (bd_blockTotal bd = 0)) as [Hz|Hz];
        [by apply Hnz in Hb|].
      destruct Hnpar as (qs & Hqs & Hqne & Hqnd & Hqin & Hql).
      exists nb, qs. split; [done|]. split; [done|]. by apply Hqin.
  - intros k b' Hb'. rewrite (ad_genesis _ _ _ Had).
    destruct (Hlook k b' Hb') as [->|(Hne & b & Hb & _ & _ & Hpar & _)].
    + assert (b' = nb) as -> by congruence.
      destruct (decide (bd_blockTotal bd = 0)) as [Hz|Hz].
      * by destruct Hnpar.
      * destruct Hnpar as (qs & Hqs & Hqne & Hqnd & Hqin & Hql).
        rewrite Hqs. split; [done|]. intros Hgen. exfalso.
        destruct Hql as [_ (p & pb & _ & Hpb & _)].
        destruct (wf_genesis_known bd Hwf p pb Hpb) as [g Hg].
        rewrite <- Hgen in Hg. congruence.
    + rewrite decide_False by by eapply Hnz.
      rewrite Hpar. by apply (wf_genesis bd Hwf).
  - intros k b' Hb'. rewrite (ad_genesis _ _ _ Had).
    destruct (decide (bd_blockTotal bd = 0)) as [Hz|Hz]; [by eexists|].
    destruct Hnpar as (qs & Hqs & Hqne & Hqnd & Hqin & Hql).
    destruct Hql as [_ (p & pb & _ & Hpb & _)].
    destruct (wf_genesis_known bd Hwf p pb Hpb) as [g Hg].
    destruct (ad_old _ _ _ Had _ g Hg) as (g' & Hg' & _). by eexists.
  - destruct (ad_tips _ _ _ Had) as (ts & Hts & Htnd & Htin).
    rewrite Hts. split; [done|]. unfold TipsExact, tips_of. rewrite Hts. simpl.
    pose proof (wf_tips bd Hwf) as [_ Hex]. unfold TipsExact in Hex.
    intros k. rewrite Htin. split.
    + intros [->|[Hk Hnp]]; [by exists nb|].
      apply Hex in Hk as (b & Hb & Hch).
      destruct (ad_old _ _ _ Had k b Hb) as (b' & Hb' & _ & _ & _ & _ & Hch').
      exists b'. split; [done|]. rewrite Hch'. by rewrite decide_False.
    + intros (b' & Hb' & Hch').
      destruct (Hlook k b' Hb') as [->|(Hne & b & Hb & _ & _ & _ & _ & Hch)];
        [by left|].
      right. rewrite Hch' in Hch. case_decide as Hp.
      * exfalso. by eapply hs_Add_nonempty.
      * split; [|done]. apply Hex. eauto.
  - intros k b' Hb'.
    destruct (Hlook k b' Hb') as [->|(Hne & b & Hb & Hid & _ & Hpar & Hl & _)].
    + assert (b' = nb) as -> by congruence.
      destruct (decide (bd_blockTotal bd = 0)) as [Hz|Hz].
      * destruct Hnpar as [-> ->]. lia.
      * destruct Hnpar as (qs & -> & Hqne & Hqnd & Hqin & Hql).
        split; [|by eapply IsLayer_mono].
        destruct Hql as [_ (p & pb & _ & Hpb & ->)].
        pose proof (wf_layer bd Hwf p pb Hpb) as [? _].
        pose proof (wf_id bd Hwf p pb Hpb). lia.
    + pose proof (wf_layer bd Hwf k b Hb) as [Hrange Hlay].
      rewrite Hid, Hl, Hpar. split; [done|].
      destruct (b_parents b); [by eapply IsLayer_mono|done].
Qed.

End Adding.

(** ** Frameworks built by [AddBlock] *)

Section Reaching.
Context {IState : Type} (inst : IBlockDAG IState).
Implicit Types (bd : BlockDAG IState).

Lemma Accepted_or_Rejected bd (d : BlockData) :
  Accepted bd d ∨ Rejected bd (Some d).
Proof.
  destruct (HasBlock bd (Some (d_hash d))) eqn:Hh;
    [right; by apply rejected_known|].
  destruct (decide (bd_blockTotal bd > 0)) as [Hpos|Hzero];
    [|left; split; [done|]; intros; lia].
  destruct (d_parents d) as [|p ps] eqn:Hps;
    [right; by apply rejected_orphan|].
  destruct (HasBlocks bd (d_parents d)) eqn:Hall.
  - left. split; [done|]. intros _. rewrite Hps. split; [done|].
    rewrite <- Hps. by apply HasBlocks_true.
  - right.
    assert (∃ q, q ∈ d_parents d ∧ HasBlock bd q = false) as (q & Hq & Hno).
    { clear Hps. induction (d_parents d) as [|q qs IH]; [done|].
      simpl in Hall. destruct (HasBlock bd q) eqn:Hq; simpl in Hall.
      - destruct (IH Hall) as (q' & Hq' & Hno). exists q'. split; [by right|done].
      - exists q. split; [by left|done]. }
    by eapply rejected_parent.
Qed.

Lemma WF_Init (s0 : IState) (now : Z) : WF (Init s0 now).
Proof.
  split; simpl;
    try by (intros;
            match goal with
            | H : ∅ !! _ = Some _ |- _ => by rewrite lookup_empty in H
            end).
  - unfold uint_size. lia.
  - split; [done|]. intros h. unfold tips_of. simpl. split.
    + intros H. by apply elem_of_nil in H.
    + intros (b & Hb & _). by rewrite lookup_empty in Hb.
Qed.

(** From a well-formed framework [AddBlock] returns, and leaves a
    well-formed framework with the same or one more block. *)
Lemma AddBlock_WF bd (b : option BlockData) :
  WF bd → bd_blockTotal bd + 1 < uint_size →
  ∃ bd' r, AddBlock inst bd b = Ok (bd', r) ∧ WF bd' ∧
    bd_blockTotal bd' ≤ bd_blockTotal bd + 1.
Proof.
  intros Hwf Hbound.
  assert (Rejected bd b → ∃ bd' r, AddBlock inst bd b = Ok (bd', r) ∧ WF bd' ∧
    bd_blockTotal bd' ≤ bd_blockTotal bd + 1) as Hrej.
  { intros Hr. exists bd, None.
    split; [by apply AddBlock_Rejected|]. split; [done|lia]. }
  destruct b as [d|]; [|apply Hrej; constructor].
  destruct (Accepted_or_Rejected bd d) as [Hacc|Hr]; [|by apply Hrej].
  destruct (AddBlock_Added inst bd d Hwf Hbound Hacc) as (bd' & r & Hrun & Had).
  exists bd', r. split; [done|]. split.
  - apply (Added_WF bd d bd'); try done.
    destruct Hacc as [Hfresh _]. unfold HasBlock, GetBlock in Hfresh.
    by destruct (bd_blocks bd !! d_hash d).
  - rewrite (ad_total _ _ _ Had). lia.
Qed.

Lemma AddBlocks_WF (bs : list (option BlockData)) : ∀ bd,
  WF bd → bd_blockTotal bd + Z.of_nat (length bs) < uint_size →
  ∃ bd', AddBlocks inst bd bs = Ok bd' ∧ WF bd' ∧
    bd_blockTotal bd' ≤ bd_blockTotal bd + Z.of_nat (length bs).
Proof.
  induction bs as [|b bs IH]; intros bd Hwf Hbound.
  - exists bd. simpl. split; [done|]. split; [done|lia].
  - simpl length in *.
    destruct (AddBlock_WF bd b Hwf) as (bd1 & r & Hrun & Hwf1 & Hle); [lia|].
    destruct (IH bd1 Hwf1) as (bd' & Hrun' & Hwf' & Hle'); [lia|].
    exists bd'. simpl. rewrite Hrun. simpl. split; [done|].
    split; [done|lia].
Qed.

Lemma Reachable_WF bd : Reachable inst bd → WF bd.
Proof.
  intros (s0 & now & bs & Hlen & Hrun).
  destruct (AddBlocks_WF bs (Init s0 now) (WF_Init s0 now))
    as (bd' & Hrun' & Hwf & _); [simpl; lia|].
  congruence.
Qed.

Lemma WF_LayersExact bd : WF bd → LayersExact bd.
Proof.
  intros Hwf h b Hb.
  pose proof (wf_layer bd Hwf h b Hb) as [_ Hl].
  pose proof (wf_genesis bd Hwf h b Hb) as Hg.
  case_decide as Hh.
  - apply Hg in Hh. by rewrite Hh in Hl.
  - destruct (b_parents b) as [ps|]; [eauto|]. exfalso. by apply Hh, Hg.
Qed.

(** C2: the tip set is exact after every successful [AddBlock]: from a
    framework built by [AddBlock] calls, storing a block leaves as tips
    exactly the stored blocks without children; they are the new block and
    the former tips that are not among its parents. *)
Theorem AddBlock_tips_exact bd (d : BlockData) :
  Reachable inst bd → bd_blockTotal bd + 1 < uint_size → Accepted bd d →
  ∃ bd' r, AddBlock inst bd (Some d) = Ok (bd', r) ∧
    TipsExact bd' ∧
    ∀ k, k ∈ tips_of bd' ↔
         k = d_hash d ∨ (k ∈ tips_of bd ∧ Some k ∉ d_parents d).
Proof.
  intros Hreach Hbound Hacc.
  pose proof (Reachable_WF bd Hreach) as Hwf.
  destruct (AddBlock_Added inst bd d Hwf Hbound Hacc) as (bd' & r & Hrun & Had).
  exists bd', r. split; [done|]. split.
  - apply (wf_tips bd'). apply (Added_WF bd d bd'); try done.
    destruct Hacc as [Hfresh _]. unfold HasBlock, GetBlock in Hfresh.
    by destruct (bd_blocks bd !! d_hash d).
  - destruct (ad_tips _ _ _ Had) as (ts & Hts & _ & Hin).
    unfold tips_of at 1. rewrite Hts. done.
Qed.

(** C3: in a framework built by [AddBlock] calls genesis is at layer 0 and
    every other block one layer above its highest parent; and [AddBlock]
    leaves the layer of every stored block as it was. *)
Theorem layers_exact_and_fixed bd :
  Reachable inst bd →
  LayersExact bd ∧
  ∀ b bd' r, bd_blockTotal bd + 1 < uint_size →
    AddBlock inst bd b = Ok (bd', r) →
    ∀ h blk, bd_blocks bd !! h = Some blk →
      ∃ blk', bd_blocks bd' !! h = Some blk' ∧ b_layer blk' = b_layer blk.
Proof.
  intros Hreach. pose proof (Reachable_WF bd Hreach) as Hwf.
  split; [by apply WF_LayersExact|].
  intros b bd' r Hbound Hrun h blk Hblk.
  assert (Rejected bd b → ∃ blk', bd_blocks bd' !! h = Some blk' ∧
            b_layer blk' = b_layer blk) as Hrej.
  { intros Hr. rewrite (AddBlock_rejection_atomic inst bd b Hr) in Hrun.
    simplify_eq. eauto. }
  destruct b as [d|]; [|apply Hrej; constructor].
  destruct (Accepted_or_Rejected bd d) as [Hacc|Hr]; [|by apply Hrej].
  destruct (AddBlock_Added inst bd d Hwf Hbound Hacc) as (bd2 & r2 & Hrun2 & Had).
  rewrite Hrun in Hrun2. simplify_eq.
  destruct (ad_old _ _ _ Had h blk Hblk) as (blk' & Hblk' & _ & _ & _ & Hl & _).
  eauto.
Qed.

End Reaching.

(** The two-tips DAG is built by three calls of [AddBlock]. *)
Lemma twoTips_Reachable :
  Reachable FirstParentChain.strategy (Fixtures.built Fixtures.twoTips).
Proof.
  exists [], 0, [Some Fixtures.G; Some Fixtures.A; Some Fixtures.B].
  split; vm_compute; reflexivity.
Qed.

Lemma twoTips_accepts_C :
  Accepted (Fixtures.built Fixtures.twoTips) Fixtures.C.
Proof.
  split; [vm_compute; reflexivity|]. intros _. split; [done|].
  apply Forall_forall. repeat constructor.
Qed.

(** C2 at an input: C, the child of both tips, offered to the two-tips
    DAG. *)
Lemma AddBlock_tips_exact_witness :
  Reachable FirstParentChain.strategy (Fixtures.built Fixtures.twoTips) ∧
  bd_blockTotal (Fixtures.built Fixtures.twoTips) + 1 < uint_size ∧
  Accepted (Fixtures.built Fixtures.twoTips) Fixtures.C ∧
  ∃ bd' r,
    AddBlock FirstParentChain.strategy (Fixtures.built Fixtures.twoTips)
      (Some Fixtures.C) = Ok (bd', r) ∧
    TipsExact bd' ∧
    ∀ k, k ∈ tips_of bd' ↔
         k = d_hash Fixtures.C ∨
         (k ∈ tips_of (Fixtures.built Fixtures.twoTips) ∧
          Some k ∉ d_parents Fixtures.C).
Proof.
  split; [exact twoTips_Reachable|].
  split; [vm_compute; reflexivity|].
  split; [exact twoTips_accepts_C|].
  apply (AddBlock_tips_exact FirstParentChain.strategy
           (Fixtures.built Fixtures.twoTips) Fixtures.C).
  - exact twoTips_Reachable.
  - vm_compute. reflexivity.
  - exact twoTips_accepts_C.
Defined.

(** C3 at an input: the two-tips DAG. *)
Lemma layers_exact_and_fixed_witness :
  Reachable FirstParentChain.strategy (Fixtures.built Fixtures.twoTips) ∧
  LayersExact (Fixtures.built Fixtures.twoTips) ∧
  ∀ b bd' r,
    bd_blockTotal (Fixtures.built Fixtures.twoTips) + 1 < uint_size →
    AddBlock FirstParentChain.strategy (Fixtures.built Fixtures.twoTips) b
      = Ok (bd', r) →
    ∀ h blk, bd_blocks (Fixtures.built Fixtures.twoTips) !! h = Some blk →
      ∃ blk', bd_blocks bd' !! h = Some blk' ∧ b_layer blk' = b_layer blk.
Proof.
  split; [exact twoTips_Reachable|].
  apply (layers_exact_and_fixed FirstParentChain.strategy
           (Fixtures.built Fixtures.twoTips)).
  exact twoTips_Reachable.
Defined.

(** ** Sorting by (order, id) *)

Section Sorting.

Lemma Less_false a b : Less b a = false ↔ BlockLe a b.
Proof.
  unfold Less, BlockLe. rewrite bool_decide_eq_false. lia.
Qed.

Lemma Less_true a b : Less a b = true → BlockLe a b.
Proof.
  unfold Less, BlockLe. rewrite bool_decide_eq_true. lia.
Qed.

Lemma BlockLe_trans a b c : BlockLe a b → BlockLe b c → BlockLe a c.
Proof. unfold BlockLe. lia. Qed.

Lemma sort_insert_elem x l y : y ∈ sort_insert x l ↔ y = x ∨ y ∈ l.
Proof.
  induction l as [|z l IH]; simpl.
  - rewrite list_elem_of_singleton. split; [by left|].
    intros [?|H]; [done|by apply elem_of_nil in H].
  - destruct (Less z x); rewrite !elem_of_cons, ?IH; tauto.
Qed.

Lemma sort_insert_sorted x l :
  StronglySorted BlockLe l → StronglySorted BlockLe (sort_insert x l).
Proof.
  induction 1 as [|z l Hs IH Hz]; simpl.
  - repeat constructor.
  - destruct (Less z x) eqn:Hzx.
    + constructor; [done|]. apply Forall_forall. intros y Hy.
      apply sort_insert_elem in Hy as [->|Hy].
      * by apply Less_true.
      * rewrite Forall_forall in Hz. by apply Hz.
    + apply Less_false in Hzx. constructor; [by constructor|].
      constructor; [done|]. eapply Forall_impl; [done|].
      intros y Hy. by eapply BlockLe_trans.
Qed.

Lemma sort_Sort_sorted l : StronglySorted BlockLe (sort_Sort l).
Proof.
  induction l as [|x l IH]; simpl; [constructor|by apply sort_insert_sorted].
Qed.

Lemma sort_Sort_elem l y : y ∈ sort_Sort l ↔ y ∈ l.
Proof.
  induction l as [|x l IH]; simpl; [done|].
  rewrite sort_insert_elem, elem_of_cons, IH. done.
Qed.

Lemma StronglySorted_take {A} (R : A → A → Prop) (n : nat) (l : list A) :
  StronglySorted R l → StronglySorted R (take n l).
Proof.
  intros Hs. rewrite <- (take_drop n l) in Hs.
  by apply StronglySorted_app_1_l in Hs.
Qed.

Lemma StronglySorted_short {A} (R : A → A → Prop) (l : list A) :
  ¬ (2 ≤ length l)%nat → StronglySorted R l.
Proof.
  destruct l as [|x [|y l]]; simpl; intros H; [repeat constructor..|lia].
Qed.

End Sorting.

(** ** Weights *)

Section Weights.

Lemma sum_pow2_filter (P : nat → Prop) `{∀ i, Decision (P i)} (l : list nat) :
  (sum_pow2 l = sum_pow2 (filter P l) + sum_pow2 (filter (λ i, ¬ P i) l))%nat.
Proof.
  induction l as [|i l IH]; [done|].
  rewrite !filter_cons. simpl.
  destruct (decide (P i)), (decide (¬ P i)); simpl; try tauto; lia.
Qed.

Lemma sum_pow2_lt (n : nat) : ∀ l : list nat,
  NoDup l → Forall (λ i, i < n)%nat l → (sum_pow2 l < 2 ^ n)%nat.
Proof.
  induction n as [|n IH]; intros l Hnd Hlt.
  - destruct l as [|i l]; [simpl; lia|].
    apply Forall_cons in Hlt as [Hi _]. lia.
  - rewrite (sum_pow2_filter (λ i, i = n) l).
    assert (sum_pow2 (filter (λ i, i = n) l) ≤ 2 ^ n)%nat as Htop.
    { assert (NoDup (filter (λ i, i = n) l)) as Hnd' by by apply NoDup_filter.
      destruct (filter (λ i, i = n) l) as [|a [|b l']] eqn:Hf; simpl.
      - lia.
      - assert (a ∈ filter (λ i, i = n) l) as Ha by (rewrite Hf; by left).
        apply list_elem_of_filter in Ha as [-> _]. lia.
      - exfalso.
        assert (a ∈ filter (λ i, i = n) l) as Ha by (rewrite Hf; by left).
        assert (b ∈ filter (λ i, i = n) l) as Hb
          by (rewrite Hf; right; by left).
        apply list_elem_of_filter in Ha as [-> _].
        apply list_elem_of_filter in Hb as [-> _].
        apply NoDup_cons in Hnd' as [Hnin _]. apply Hnin. by left. }
    assert (sum_pow2 (filter (λ i, ¬ i = n) l) < 2 ^ n)%nat as Hrest.
    { apply IH; [by apply NoDup_filter|].
      apply Forall_forall. intros i [Hne Hi]%list_elem_of_filter.
      rewrite Forall_forall in Hlt. specialize (Hlt i Hi). lia. }
    rewrite Nat.pow_succ_r'. lia.
Qed.

End Weights.

(** ** The locator *)

Section Locating.
Context {IState : Type} (inst : IBlockDAG IState).
Context (IsExcellent : GraphState → GraphState → bool).
Implicit Types (bd : BlockDAG IState).

Lemma sum_pow2_app (l1 l2 : list nat) :
  sum_pow2 (l1 ++ l2) = (sum_pow2 l1 + sum_pow2 l2)%nat.
Proof. induction l1 as [|i l1 IH]; simpl; lia. Qed.

Lemma queueWeight_cons bd k (q : list N) :
  queueWeight bd (k :: q) = (2 ^ idOf bd k + queueWeight bd q)%nat.
Proof. done. Qed.

Lemma queueWeight_app bd (q1 q2 : list N) :
  queueWeight bd (q1 ++ q2) = (queueWeight bd q1 + queueWeight bd q2)%nat.
Proof. unfold queueWeight. by rewrite fmap_app, sum_pow2_app. Qed.

Lemma queueWeight_filter bd (P : N → Prop) `{∀ k, Decision (P k)}
  (q : list N) :
  (queueWeight bd (filter P q) ≤ queueWeight bd q)%nat.
Proof.
  induction q as [|k q IH]; [done|].
  rewrite filter_cons. destruct (decide (P k));
    rewrite ?queueWeight_cons; lia.
Qed.

Lemma pow2_pos (n : nat) : (1 ≤ 2 ^ n)%nat.
Proof. induction n; simpl; lia. Qed.

Lemma parents_weight bd k b (ps : list N) :
  WF bd → bd_blocks bd !! k = Some b → b_parents b = Some ps →
  (queueWeight bd ps < 2 ^ idOf bd k)%nat.
Proof.
  intros Hwf Hb Hps.
  destruct (wf_parents bd Hwf k b ps Hb Hps) as (_ & Hnd & Hin).
  apply sum_pow2_lt.
  - apply NoDup_fmap_2_strong; [|done].
    intros p1 p2 Hp1 Hp2 Heq.
    destruct (Hin p1 Hp1) as (b1 & Hb1 & _), (Hin p2 Hp2) as (b2 & Hb2 & _).
    unfold idOf in Heq. rewrite Hb1, Hb2 in Heq.
    pose proof (wf_id bd Hwf p1 b1 Hb1).
    pose proof (wf_id bd Hwf p2 b2 Hb2).
    apply (wf_id_inj bd Hwf p1 p2 b1 b2 Hb1 Hb2). lia.
  - apply Forall_forall. intros i (p & -> & Hp)%list_elem_of_fmap.
    destruct (Hin p Hp) as (pb & Hpb & _ & Hlt).
    unfold idOf. rewrite Hb, Hpb.
    pose proof (wf_id bd Hwf p pb Hpb). lia.
Qed.

(** With fuel for the weight of the queue the loop of [LocateBlocks]
    returns; it adds stored blocks only. *)
Lemma locateLoop_terminates bd (gs : GraphState) :
  WF bd → ∀ (fuel : nat) (queue fs : list N),
  (∀ k, k ∈ queue → is_Some (bd_blocks bd !! k)) →
  (queueWeight bd queue ≤ fuel)%nat →
  ∃ fs', locateLoop fuel bd gs queue fs = Ok fs' ∧
    ∀ k, k ∈ fs' → k ∈ fs ∨ is_Some (bd_blocks bd !! k).
Proof.
  intros Hwf fuel. induction fuel as [|fuel IH]; intros queue fs Hknown Hfuel.
  - destruct queue as [|cur queue].
    + exists fs. split; [done|]. by left.
    + rewrite queueWeight_cons in Hfuel. pose proof (pow2_pos (idOf bd cur)). lia.
  - destruct queue as [|cur queue].
    + exists fs. split; [done|]. by left.
    + rewrite queueWeight_cons in Hfuel. pose proof (pow2_pos (idOf bd cur)).
      assert (∀ k, k ∈ queue → is_Some (bd_blocks bd !! k)) as Hknown'
        by (intros k Hk; apply Hknown; by right).
      simpl. destruct (hs_Has (gs_tips gs) cur).
      { apply IH; [done|lia]. }
      destruct (Hknown cur) as [curb Hcur]; [by left|].
      unfold payload. rewrite Hcur. simpl.
      destruct (if HasChildren curb
                then childrenLocated gs fs (b_children curb) else true);
        [|apply IH; [done|lia]].
      assert (∀ k, k ∈ hs_Add fs cur → k ∈ fs ∨ is_Some (bd_blocks bd !! k))
        as Hfs.
      { intros k [Hk| ->]%elem_of_hs_Add; [by left|right; by eexists]. }
      assert (∀ fs' : list N, (∀ k, k ∈ fs' → k ∈ hs_Add fs cur ∨
                                  is_Some (bd_blocks bd !! k)) →
                ∀ k, k ∈ fs' → k ∈ fs ∨ is_Some (bd_blocks bd !! k)) as Hfs'.
      { intros fs' H' k Hk. destruct (H' k Hk) as [Hin|Hin]; [by apply Hfs|by right]. }
      destruct (b_parents curb) as [ps|] eqn:Hps.
      * destruct (wf_parents bd Hwf cur curb ps Hcur Hps) as (_ & _ & Hin).
        pose proof (parents_weight bd cur curb ps Hwf Hcur Hps) as Hw.
        destruct (HasParents curb).
        -- destruct (IH (queue ++ parentsToVisit (hs_Add fs cur) ps)
                        (hs_Add fs cur)) as (fs' & Hrun & Hfs'').
           { intros k [Hk|Hk]%elem_of_app; [by apply Hknown'|].
             apply list_elem_of_filter in Hk as [_ Hk].
             destruct (Hin k Hk) as (pb & Hpb & _). by eexists. }
           { rewrite queueWeight_app.
             pose proof (queueWeight_filter bd
               (λ k, hs_Has (hs_Add fs cur) k = false) ps).
             unfold parentsToVisit. lia. }
           exists fs'. split; [done|]. by apply Hfs'.
        -- destruct (IH queue (hs_Add fs cur)) as (fs' & Hrun & Hfs'');
             [done|lia|].
           exists fs'. split; [done|]. by apply Hfs'.
      * destruct (IH queue (hs_Add fs cur)) as (fs' & Hrun & Hfs'');
          [done|lia|].
        exists fs'. split; [done|]. by apply Hfs'.
Qed.

(** More fuel does not change what the loop returns. *)
Lemma locateLoop_fuel bd (gs : GraphState) : ∀ (fuel fuel' : nat)
  (queue fs fs' : list N),
  locateLoop fuel bd gs queue fs = Ok fs' → (fuel ≤ fuel')%nat →
  locateLoop fuel' bd gs queue fs = Ok fs'.
Proof.
  induction fuel as [|fuel IH]; intros fuel' queue fs fs' Hrun Hle.
  - destruct queue; [|done]. by destruct fuel'.
  - destruct fuel' as [|fuel']; [lia|].
    destruct queue as [|cur queue]; [done|].
    simpl in *. destruct (hs_Has (gs_tips gs) cur).
    { apply (IH fuel'); [done|lia]. }
    destruct (payload bd cur) as [curb| |]; simpl in *; try done.
    destruct (if HasChildren curb
              then childrenLocated gs fs (b_children curb) else true);
      (apply (IH fuel'); [done|lia]).
Qed.

Lemma payloads_known bd (keys : list N) :
  (∀ k, k ∈ keys → is_Some (bd_blocks bd !! k)) →
  ∃ bs, payloads bd keys = Ok bs ∧
        Forall2 (λ k b, bd_blocks bd !! k = Some b) keys bs.
Proof.
  induction keys as [|k keys IH]; intros Hknown.
  - exists []. split; [done|constructor].
  - destruct (Hknown k) as [b Hb]; [by left|].
    destruct IH as (bs & Hrun & Hall); [intros k' Hk'; apply Hknown; by right|].
    exists (b :: bs). simpl. unfold payload. rewrite Hb. simpl.
    rewrite Hrun. simpl. split; [done|by constructor].
Qed.

Lemma int_of_uint_bound (m : Z) :
  0 ≤ m → Z.of_nat (Z.to_nat (int_of_uint m)) ≤ m.
Proof.
  intros Hm. unfold int_of_uint, uint_size. case_decide; lia.
Qed.

Lemma elem_of_hs_AddList (l s : list N) (k : N) :
  k ∈ hs_AddList s l ↔ k ∈ s ∨ k ∈ l.
Proof.
  unfold hs_AddList. revert s. induction l as [|x l IH]; intros s; simpl.
  - split; [by left|]. intros [?|H]; [done|by apply elem_of_nil in H].
  - rewrite IH, elem_of_hs_Add, elem_of_cons. tauto.
Qed.

Lemma StronglySorted_hashes bd (bs : list Block) :
  StronglySorted BlockLe bs →
  Forall (λ b, bd_blocks bd !! b_hash b = Some b) bs →
  StronglySorted (HashLe bd) (b_hash <$> bs).
Proof.
  induction 1 as [|b bs Hs IH Hb]; intros Hall; simpl; [constructor|].
  apply Forall_cons in Hall as [Hb0 Hall].
  constructor; [by apply IH|].
  apply Forall_fmap, Forall_forall. intros c Hc. simpl.
  rewrite Forall_forall in Hb, Hall.
  exists b, c. split; [done|]. split; [by apply Hall|by apply Hb].
Qed.

(** With fuel for the weight of the tips [LocateBlocks] returns, and a list
    it returns has at most [maxHashes] hashes, ascending in (order, id). *)
Lemma LocateBlocks_returns bd (gs ours : GraphState) (maxHashes : Z) :
  WF bd → 0 ≤ maxHashes < uint_size →
  GetGraphState inst bd = Ok ours → is_Some (bd_tips bd) →
  ∀ fuel : nat, (queueWeight bd (tips_of bd) ≤ fuel)%nat →
  ∃ r, LocateBlocks inst IsExcellent fuel bd gs maxHashes = Ok r ∧
    ∀ l, r = Some l →
      Z.of_nat (length l) ≤ maxHashes ∧ StronglySorted (HashLe bd) l.
Proof.
  intros Hwf Hm Hours [ts Hts] fuel Hfuel.
  unfold LocateBlocks. rewrite Hours. simpl.
  destruct (IsExcellent gs ours); [exists None; split; [done|]; by intros|].
  rewrite Hts. simpl. unfold tips_of in Hfuel. rewrite Hts in Hfuel.
  simpl in Hfuel.
  pose proof (wf_tips bd Hwf) as [_ Htips]. unfold TipsExact, tips_of in Htips.
  rewrite Hts in Htips. simpl in Htips.
  assert (∀ k, k ∈ ts → is_Some (bd_blocks bd !! k)) as Hknown.
  { intros k Hk. apply Htips in Hk as (b & Hb & _). by eexists. }
  destruct (locateLoop_terminates bd gs Hwf fuel ts (hs_AddList NewHashSet ts)
              Hknown Hfuel) as (fs & Hrun & Hfs).
  rewrite Hrun. simpl.
  destruct (payloads_known bd fs) as (bs & Hpay & Hall).
  { intros k Hk. destruct (Hfs k Hk) as [Hin|Hin]; [|done].
    apply elem_of_hs_AddList in Hin as [Hin|Hin]; [|by apply Hknown].
    by apply elem_of_nil in Hin. }
  rewrite Hpay. simpl. eexists. split; [done|].
  intros l Hl. simplify_eq. split.
  - rewrite length_fmap, length_take.
    pose proof (int_of_uint_bound maxHashes). lia.
  - apply StronglySorted_hashes.
    + apply StronglySorted_take. case_decide.
      * apply sort_Sort_sorted.
      * by apply StronglySorted_short.
    + assert (Forall (λ b, bd_blocks bd !! b_hash b = Some b) bs) as Hbs.
      { apply Forall_forall. intros b Hb.
        apply list_elem_of_lookup in Hb as [i Hi].
        destruct (Forall2_lookup_r _ _ _ _ _ Hall Hi) as (k & _ & Hk).
        by rewrite (wf_hash bd Hwf k b Hk). }
      apply Forall_forall. intros b Hb.
      rewrite Forall_forall in Hbs. apply Hbs.
      apply elem_of_take in Hb as (i & Hi & _).
      apply list_elem_of_lookup_2 in Hi.
      case_decide; [by apply sort_Sort_elem|done].
Qed.

End Locating.

(** [LocateBlocks] step by step, when no step fails. *)
Lemma LocateBlocks_steps {IState : Type} (inst : IBlockDAG IState)
  (IsExcellent : GraphState → GraphState → bool) (bd : BlockDAG IState)
  (gs ours : GraphState) (ts fs : list N) (bs : list Block) (fuel : nat)
  (maxHashes : Z) :
  GetGraphState inst bd = Ok ours → IsExcellent gs ours = false →
  bd_tips bd = Some ts →
  locateLoop fuel bd gs ts (hs_AddList NewHashSet ts) = Ok fs →
  payloads bd fs = Ok bs →
  LocateBlocks inst IsExcellent fuel bd gs maxHashes
  = Ok (Some (take (Z.to_nat (int_of_uint maxHashes))
                (b_hash <$> (if decide (2 ≤ length bs)%nat
                             then sort_Sort bs else bs)))).
Proof.
  intros Hours Hex Htips Hloop Hpay. unfold LocateBlocks.
  rewrite Hours. simpl. rewrite Hex, Htips. simpl. rewrite Hloop. simpl.
  rewrite Hpay. simpl. by rewrite fmap_take.
Qed.

(** The two-tips DAG seen by a peer at genesis. *)
Lemma twoTips_GetGraphState :
  GetGraphState FirstParentChain.strategy (Fixtures.built Fixtures.twoTips)
  = Ok (mkGraphState [101%N; 102%N] 1 3 1).
Proof. vm_compute. reflexivity. Qed.

Lemma twoTips_peer_not_excellent (l tot : Z) :
  lexIsExcellent (mkGraphState [100%N] l tot 0)
    (mkGraphState [101%N; 102%N] 1 3 1) = false.
Proof. reflexivity. Qed.

Lemma twoTips_tips :
  bd_tips (Fixtures.built Fixtures.twoTips) = Some [101%N; 102%N].
Proof. vm_compute. reflexivity. Qed.

Lemma twoTips_locateLoop (l tot : Z) :
  locateLoop 4 (Fixtures.built Fixtures.twoTips)
    (mkGraphState [100%N] l tot 0) [101%N; 102%N]
    (hs_AddList NewHashSet [101%N; 102%N]) = Ok [101%N; 102%N].
Proof. vm_compute. reflexivity. Qed.

Lemma twoTips_payloads :
  ∃ bs, payloads (Fixtures.built Fixtures.twoTips) [101%N; 102%N] = Ok bs ∧
    b_hash <$> (if decide (2 ≤ length bs)%nat then sort_Sort bs else bs)
    = [101%N; 102%N].
Proof. eexists. split; vm_compute; reflexivity. Qed.

Lemma LocateBlocks_twoTips (gs : GraphState) (maxHashes : Z) (fuel : nat) :
  gs_tips gs = [100%N] → gs_mainHeight gs = 0 → (4 ≤ fuel)%nat →
  LocateBlocks FirstParentChain.strategy lexIsExcellent fuel
    (Fixtures.built Fixtures.twoTips) gs maxHashes
  = Ok (Some (take (Z.to_nat (int_of_uint maxHashes)) [101%N; 102%N])).
Proof.
  destruct gs as [t l tot mh]. intros Ht Hmh Hfuel.
  simpl in Ht, Hmh. subst t mh.
  destruct twoTips_payloads as (bs & Hpay & Hsorted).
  rewrite <- Hsorted.
  apply (LocateBlocks_steps FirstParentChain.strategy lexIsExcellent
           (Fixtures.built Fixtures.twoTips) (mkGraphState [100%N] l tot 0)
           (mkGraphState [101%N; 102%N] 1 3 1) [101%N; 102%N] [101%N; 102%N]
           bs fuel maxHashes twoTips_GetGraphState
           (twoTips_peer_not_excellent l tot) twoTips_tips).
  - exact (locateLoop_fuel _ _ 4 fuel _ _ _ (twoTips_locateLoop l tot) Hfuel).
  - exact Hpay.
Qed.

(** C7: a list that [LocateBlocks] returns has at most [maxHashes] hashes
    and is ascending in (order, id), and on a framework built by
    [AddBlock] calls with a main-chain tip it does return, given fuel for
    the weight of the tips; on the two-tips DAG, for a peer whose only tip
    is genesis and whose main height is 0, it returns the hashes of A and
    B, in this order, cut at [maxHashes]. *)
Theorem LocateBlocks_bounded_sorted :
  (∀ (IState : Type) (inst : IBlockDAG IState)
     (IsExcellent : GraphState → GraphState → bool) (bd : BlockDAG IState)
     (gs ours : GraphState) (maxHashes : Z),
     Reachable inst bd → 0 ≤ maxHashes < uint_size →
     GetGraphState inst bd = Ok ours → is_Some (bd_tips bd) →
     ∀ fuel : nat, (queueWeight bd (tips_of bd) ≤ fuel)%nat →
     ∃ r, LocateBlocks inst IsExcellent fuel bd gs maxHashes = Ok r ∧
       ∀ l, r = Some l →
         Z.of_nat (length l) ≤ maxHashes ∧ StronglySorted (HashLe bd) l) ∧
  (∀ (gs : GraphState) (maxHashes : Z) (fuel : nat),
     gs_tips gs = [100%N] → gs_mainHeight gs = 0 → (4 ≤ fuel)%nat →
     LocateBlocks FirstParentChain.strategy lexIsExcellent fuel
       (Fixtures.built Fixtures.twoTips) gs maxHashes
     = Ok (Some (take (Z.to_nat (int_of_uint maxHashes)) [101%N; 102%N]))) ∧
  StronglySorted (HashLe (Fixtures.built Fixtures.twoTips)) [101%N; 102%N].
Proof.
  split; [|split].
  - intros IState inst IsExcellent bd gs ours maxHashes Hreach Hm Hours Htips
      fuel Hfuel.
    apply (LocateBlocks_returns inst IsExcellent bd gs ours); try done.
    by apply (Reachable_WF inst).
  - apply LocateBlocks_twoTips.
  - repeat constructor.
    eexists _, _. split; [vm_compute; reflexivity|].
    split; [vm_compute; reflexivity|]. left. simpl. lia.
Qed.

(** C7 at an input: the two-tips DAG, a peer at genesis, five hashes asked
    for. *)
Lemma LocateBlocks_bounded_sorted_witness :
  Reachable FirstParentChain.strategy (Fixtures.built Fixtures.twoTips) ∧
  0 ≤ 5 < uint_size ∧
  GetGraphState FirstParentChain.strategy (Fixtures.built Fixtures.twoTips)
    = Ok (mkGraphState [101%N; 102%N] 1 3 1) ∧
  is_Some (bd_tips (Fixtures.built Fixtures.twoTips)) ∧
  (queueWeight (Fixtures.built Fixtures.twoTips)
     (tips_of (Fixtures.built Fixtures.twoTips)) ≤ 6)%nat ∧
  ∃ r, LocateBlocks FirstParentChain.strategy lexIsExcellent 6
         (Fixtures.built Fixtures.twoTips) (mkGraphState [100%N] 0 1 0) 5
       = Ok r ∧
    ∀ l, r = Some l →
      Z.of_nat (length l) ≤ 5 ∧
      StronglySorted (HashLe (Fixtures.built Fixtures.twoTips)) l.
Proof.
  assert (0 ≤ 5 < uint_size) as Hm by (unfold uint_size; lia).
  pose proof twoTips_GetGraphState as Hours.
  assert (is_Some (bd_tips (Fixtures.built Fixtures.twoTips))) as Htips
    by (eexists; vm_compute; reflexivity).
  assert (queueWeight (Fixtures.built Fixtures.twoTips)
            (tips_of (Fixtures.built Fixtures.twoTips)) ≤ 6)%nat as Hfuel
    by (vm_compute; lia).
  split; [exact twoTips_Reachable|]. split; [exact Hm|].
  split; [exact Hours|]. split; [exact Htips|]. split; [exact Hfuel|].
  exact (proj1 LocateBlocks_bounded_sorted (list N) FirstParentChain.strategy
           lexIsExcellent (Fixtures.built Fixtures.twoTips)
           (mkGraphState [100%N] 0 1 0) (mkGraphState [101%N; 102%N] 1 3 1) 5
           twoTips_Reachable Hm Hours Htips 6%nat Hfuel).
Defined.

(** * Further properties of the framework *)

(** ** Invariants of the frameworks built by [AddBlock] *)

Section Invariants.
Context {IState : Type} (inst : IBlockDAG IState).
Implicit Types (bd : BlockDAG IState).

Lemma Accepted_fresh bd (d : BlockData) :
  Accepted bd d → bd_blocks bd !! d_hash d = None.
Proof.
  intros [Hfresh _]. unfold HasBlock, GetBlock in Hfresh.
  by destruct (bd_blocks bd !! d_hash d).
Qed.

Lemma AddBlocks_invariant (P : BlockDAG IState → Prop) :
  (∀ bd d bd' r, WF bd → P bd → bd_blockTotal bd + 1 < uint_size →
     Accepted bd d → AddBlock inst bd (Some d) = Ok (bd', r) →
     Added bd d bd' → P bd') →
  ∀ (bs : list (option BlockData)) bd bd',
    WF bd → P bd → bd_blockTotal bd + Z.of_nat (length bs) < uint_size →
    AddBlocks inst bd bs = Ok bd' → P bd'.
Proof.
  intros Hstep bs. induction bs as [|b bs IH]; intros bd bd' Hwf HP Hlen Hrun.
  - simpl in Hrun. by simplify_eq.
  - simpl length in Hlen. simpl in Hrun.
    assert (Rejected bd b → P bd') as Hrej.
    { intros Hr. rewrite (AddBlock_Rejected inst bd b Hr) in Hrun. simpl in Hrun.
      apply (IH bd bd'); try done. lia. }
    destruct b as [d|]; [|apply Hrej; constructor].
    destruct (Accepted_or_Rejected bd d) as [Hacc|Hr]; [|by apply Hrej].
    destruct (AddBlock_Added inst bd d Hwf) as (bd1 & r & Hrun1 & Had);
      [lia|done|].
    rewrite Hrun1 in Hrun. simpl in Hrun.
    apply (IH bd1 bd'); try done.
    + apply (Added_WF bd d bd1); try done; [lia|by apply Accepted_fresh].
    + apply (Hstep bd d bd1 r); try done. lia.
    + rewrite (ad_total _ _ _ Had). lia.
Qed.

(** Induction over the frameworks built by [AddBlock]. *)
Lemma Reachable_invariant (P : BlockDAG IState → Prop) :
  (∀ s0 now, P (Init s0 now)) →
  (∀ bd d bd' r, WF bd → P bd → bd_blockTotal bd + 1 < uint_size →
     Accepted bd d → AddBlock inst bd (Some d) = Ok (bd', r) →
     Added bd d bd' → P bd') →
  ∀ bd, Reachable inst bd → P bd.
Proof.
  intros Hinit Hstep bd (s0 & now & bs & Hlen & Hrun).
  apply (AddBlocks_invariant P Hstep bs (Init s0 now) bd);
    first [done | apply WF_Init | simpl; lia].
Qed.

Lemma Added_child bd (d : BlockData) bd' (x c : N) :
  Added bd d bd' → child bd x c → child bd' x c.
Proof.
  intros Had (b & Hb & Hc).
  destruct (ad_old _ _ _ Had x b Hb) as (b' & Hb' & _ & _ & _ & _ & Hch).
  exists b'. split; [done|]. rewrite Hch. case_decide; [|done].
  apply elem_of_hs_Add. by left.
Qed.

Lemma Added_Future bd (d : BlockData) bd' (x y : N) :
  Added bd d bd' → Future bd x y → Future bd' x y.
Proof.
  intros Had Hxy. induction Hxy as [x y Hc|x y z Hc _ IH].
  - apply tc_once. by eapply Added_child.
  - eapply tc_l; [|done]. by eapply Added_child.
Qed.

Lemma Added_dom bd (d : BlockData) bd' :
  Added bd d bd' →
  dom (bd_blocks bd') = {[d_hash d]} ∪ dom (bd_blocks bd).
Proof.
  intros Had. apply set_eq. intros k.
  rewrite elem_of_union, elem_of_singleton, !elem_of_dom.
  destruct (ad_new _ _ _ Had) as (nb & Hnb & _).
  split.
  - intros [b' Hb']. destruct (decide (k = d_hash d)) as [|Hne]; [by left|].
    right. destruct (bd_blocks bd !! k) as [b|] eqn:Hb; [by eexists|].
    by rewrite (ad_fresh _ _ _ Had k Hne Hb) in Hb'.
  - intros [->|[b Hb]]; [by eexists|].
    destruct (ad_old _ _ _ Had k b Hb) as (b' & Hb' & _). by eexists.
Qed.

Lemma child_id bd (x c : N) :
  WF bd → child bd x c →
  ∃ bx bc, bd_blocks bd !! x = Some bx ∧ bd_blocks bd !! c = Some bc ∧
           b_id bx < b_id bc ∧ b_layer bx < b_layer bc.
Proof.
  intros Hwf (bx & Hbx & Hc).
  destruct (wf_children bd Hwf x bx Hbx) as [_ Hin].
  destruct (Hin c Hc) as (bc & ps & Hbc & Hps & Hx).
  destruct (wf_parents bd Hwf c bc ps Hbc Hps) as (_ & _ & Hpar).
  destruct (Hpar x Hx) as (bx' & Hbx' & _ & Hlt).
  assert (bx' = bx) as -> by congruence.
  exists bx, bc. split; [done|]. split; [done|]. split; [done|].
  pose proof (wf_layer bd Hwf c bc Hbc) as [_ Hl]. rewrite Hps in Hl.
  destruct Hl as [Hall _]. destruct (Hall x Hx) as (bx'' & Hbx'' & Hle).
  assert (bx'' = bx) as -> by congruence. lia.
Qed.

Lemma Future_id bd (x y : N) :
  WF bd → Future bd x y →
  ∃ bx b_y, bd_blocks bd !! x = Some bx ∧ bd_blocks bd !! y = Some b_y ∧
            b_id bx < b_id b_y ∧ b_layer bx < b_layer b_y.
Proof.
  intros Hwf Hxy. induction Hxy as [x y Hc|x y z Hc _ IH].
  - by apply child_id.
  - destruct (child_id bd x y Hwf Hc) as (bx & b_y & Hbx & Hby & Hid & Hl).
    destruct IH as (b_y' & bz & Hby' & Hbz & Hid' & Hl').
    assert (b_y' = b_y) as -> by congruence.
    exists bx, bz. split; [done|]. split; [done|]. lia.
Qed.

(** X1: in a framework built by [AddBlock] calls the parent and child
    sets mirror each other: [p] is among the parents of [c] exactly when
    [c] is among the children of [p], and then both are stored and [p] was
    stored first. *)
Theorem edges_bidirectional bd (p c : N) :
  Reachable inst bd →
  ((∃ cb ps, bd_blocks bd !! c = Some cb ∧ b_parents cb = Some ps ∧ p ∈ ps) ↔
   (∃ pb, bd_blocks bd !! p = Some pb ∧ c ∈ b_children pb)) ∧
  (child bd p c →
   ∃ pb cb, bd_blocks bd !! p = Some pb ∧ bd_blocks bd !! c = Some cb ∧
            b_id pb < b_id cb).
Proof.
  intros Hreach. pose proof (Reachable_WF inst bd Hreach) as Hwf. split.
  - split.
    + intros (cb & ps & Hcb & Hps & Hp).
      destruct (wf_parents bd Hwf c cb ps Hcb Hps) as (_ & _ & Hpar).
      destruct (Hpar p Hp) as (pb & Hpb & Hc & _). eauto.
    + intros (pb & Hpb & Hc).
      destruct (wf_children bd Hwf p pb Hpb) as [_ Hin].
      destruct (Hin c Hc) as (cb & ps & Hcb & Hps & Hp). eauto.
  - intros Hchild.
    destruct (child_id bd p c Hwf Hchild) as (pb & cb & ? & ? & ? & _).
    eauto.
Qed.

(** X2: the stored graph is acyclic: along every path of child edges the
    insertion counter and the layer strictly increase, so no block is in
    its own future. *)
Theorem future_acyclic bd (x y : N) :
  Reachable inst bd → Future bd x y →
  x ≠ y ∧ ¬ Future bd y x ∧
  ∃ bx b_y, bd_blocks bd !! x = Some bx ∧ bd_blocks bd !! y = Some b_y ∧
            b_id bx < b_id b_y ∧ b_layer bx < b_layer b_y.
Proof.
  intros Hreach Hxy. pose proof (Reachable_WF inst bd Hreach) as Hwf.
  destruct (Future_id bd x y Hwf Hxy) as (bx & b_y & Hbx & Hby & Hid & Hl).
  split; [|split].
  - intros ->. assert (bx = b_y) as -> by congruence. lia.
  - intros Hyx.
    destruct (Future_id bd y x Hwf Hyx) as (b_y' & bx' & Hby' & Hbx' & Hid' & _).
    assert (bx' = bx) as -> by congruence.
    assert (b_y' = b_y) as -> by congruence. lia.
  - eauto 10.
Qed.

(** X3: [blockTotal] counts the stored blocks, and the insertion counters
    of the stored blocks are exactly 0, ..., blockTotal - 1. *)
Theorem blockTotal_counts bd :
  Reachable inst bd →
  Z.of_nat (size (bd_blocks bd)) = bd_blockTotal bd ∧
  (∀ h b, bd_blocks bd !! h = Some b → 0 ≤ b_id b < bd_blockTotal bd) ∧
  (∀ i, 0 ≤ i < bd_blockTotal bd →
     ∃ h b, bd_blocks bd !! h = Some b ∧ b_id b = i) ∧
  (∀ h1 h2 b1 b2, bd_blocks bd !! h1 = Some b1 → bd_blocks bd !! h2 = Some b2 →
     b_id b1 = b_id b2 → h1 = h2).
Proof.
  intros Hreach. pose proof (Reachable_WF inst bd Hreach) as Hwf.
  assert (Z.of_nat (size (bd_blocks bd)) = bd_blockTotal bd ∧
          ∀ i, 0 ≤ i < bd_blockTotal bd →
            ∃ h b, bd_blocks bd !! h = Some b ∧ b_id b = i) as [Hsize Hids].
  { revert bd Hreach Hwf.
    apply (Reachable_invariant (λ bd, WF bd →
      Z.of_nat (size (bd_blocks bd)) = bd_blockTotal bd ∧
      ∀ i, 0 ≤ i < bd_blockTotal bd →
        ∃ h b, bd_blocks bd !! h = Some b ∧ b_id b = i)).
    - intros s0 now _. simpl. split; [by rewrite map_size_empty|]. lia.
    - intros bd d bd' r Hwf IH Hbound Hacc Hrun Had _.
      destruct (IH Hwf) as [Hsize Hids].
      pose proof (Accepted_fresh bd d Hacc) as Hnew.
      rewrite (ad_total _ _ _ Had). split.
      + rewrite <- size_dom, (Added_dom bd d bd' Had), size_union.
        * rewrite size_singleton, size_dom. lia.
        * apply disjoint_singleton_l. by apply not_elem_of_dom.
      + intros i Hi. destruct (decide (i = bd_blockTotal bd)) as [->|Hne].
        * destruct (ad_new _ _ _ Had) as (nb & Hnb & Hid & _). eauto.
        * destruct (Hids i) as (h & b & Hb & Hid); [lia|].
          destruct (ad_old _ _ _ Had h b Hb) as (b' & Hb' & Hid' & _).
          exists h, b'. split; [done|lia]. }
  split; [done|]. split; [apply (wf_id bd Hwf)|]. split; [done|].
  apply (wf_id_inj bd Hwf).
Qed.

(** X4: once a block is stored, genesis is stored: it is the first block
    (insertion counter 0), at layer 0 and without parents, and every
    other stored block has parents and lies in the future of genesis. *)
Theorem genesis_is_root bd :
  Reachable inst bd → bd_blockTotal bd > 0 →
  ∃ g, GetGenesis bd = Some g ∧ b_hash g = bd_genesis bd ∧
    b_id g = 0 ∧ b_layer g = 0 ∧ b_parents g = None ∧
    ∀ h b, bd_blocks bd !! h = Some b → h ≠ bd_genesis bd →
      HasParents b = true ∧ Future bd (bd_genesis bd) h.
Proof.
  intros Hreach Hpos. pose proof (Reachable_WF inst bd Hreach) as Hwf.
  assert ((bd_blockTotal bd > 0 →
             ∃ g, bd_blocks bd !! bd_genesis bd = Some g ∧ b_id g = 0) ∧
          ∀ h b, bd_blocks bd !! h = Some b → h ≠ bd_genesis bd →
            Future bd (bd_genesis bd) h) as [Hgen Hroot].
  { clear Hpos. revert bd Hreach Hwf.
    apply (Reachable_invariant (λ bd, WF bd →
      (bd_blockTotal bd > 0 →
         ∃ g, bd_blocks bd !! bd_genesis bd = Some g ∧ b_id g = 0) ∧
      ∀ h b, bd_blocks bd !! h = Some b → h ≠ bd_genesis bd →
        Future bd (bd_genesis bd) h)).
    - intros s0 now _. simpl. split; [lia|].
      intros h b Hb. by rewrite lookup_empty in Hb.
    - intros bd d bd' r Hwf IH Hbound Hacc Hrun Had _.
      destruct (IH Hwf) as [Hgen Hroot].
      pose proof (wf_total bd Hwf) as Htotal.
      destruct (ad_new _ _ _ Had) as (nb & Hnb & Hnid & _ & _ & Hnpar).
      rewrite (ad_genesis _ _ _ Had).
      destruct (decide (bd_blockTotal bd = 0)) as [Hz|Hz].
      + split; [intros _; exists nb; split; [done|lia]|].
        intros k b' Hb' Hne.
        destruct (Added_lookup bd d bd' Had k b' Hb')
          as [->|(_ & b & Hb & _)]; [done|].
        pose proof (wf_id bd Hwf k b Hb). lia.
      + destruct Hgen as (g & Hg & Hgid); [lia|].
        split.
        { intros _. destruct (ad_old _ _ _ Had _ g Hg) as (g' & Hg' & Hid' & _).
          exists g'. split; [done|lia]. }
        intros k b' Hb' Hne.
        destruct (Added_lookup bd d bd' Had k b' Hb')
          as [->|(_ & b & Hb & _)].
        * destruct Hnpar as (qs & _ & _ & _ & Hqin & [_ (p & pb & Hp & Hpb & _)]).
          assert (child bd' p (d_hash d)) as Hchild.
          { destruct (ad_old _ _ _ Had p pb Hpb) as (pb' & Hpb' & _ & _ & _ & _ & Hch).
            exists pb'. split; [done|]. rewrite Hch.
            rewrite decide_True by by apply Hqin.
            apply elem_of_hs_Add. by right. }
          destruct (decide (p = bd_genesis bd)) as [->|Hpne];
            [by apply tc_once|].
          eapply tc_r; [|done].
          apply (Added_Future bd d bd' _ _ Had). by eapply Hroot.
        * apply (Added_Future bd d bd' _ _ Had). by eapply Hroot. }
  destruct Hgen as (g & Hg & Hgid); [done|].
  exists g. unfold GetGenesis, GetBlock.
  split; [done|]. split; [by apply (wf_hash bd Hwf)|]. split; [done|].
  pose proof (wf_layer bd Hwf _ g Hg) as [_ Hl].
  pose proof (proj2 (wf_genesis bd Hwf _ g Hg) eq_refl) as Hnone.
  rewrite Hnone in Hl. split; [done|]. split; [done|].
  intros h b Hb Hne. split; [|by eapply Hroot].
  unfold HasParents. destruct (b_parents b) as [ps|] eqn:Hps.
  - destruct (wf_parents bd Hwf h b ps Hb Hps) as (Hpne & _).
    by destruct ps.
  - exfalso. by apply Hne, (wf_genesis bd Hwf h b Hb).
Qed.


Lemma updateTips_set_tips bd (b : Block) bd2 :
  updateTips bd b = Ok bd2 → ∃ t, bd2 = set_tips bd t.
Proof.
  unfold updateTips. destruct (bd_tips bd) as [ts|].
  - destruct (pruneTips bd ts ts); simpl; intros; simplify_eq. eauto.
  - intros. simplify_eq. eauto.
Qed.

Lemma AddBlock_lastTime bd (b : option BlockData) bd' r :
  AddBlock inst bd b = Ok (bd', r) → bd_lastTime bd ≤ bd_lastTime bd'.
Proof.
  unfold AddBlock. destruct b as [d|]; [|intros; simplify_eq; lia].
  destruct (HasBlock bd (Some (d_hash d))); [intros; simplify_eq; lia|].
  match goal with
  | |- context [match ?c with Some _ => _ | None => _ end] =>
      destruct c as [parents|]; [|intros; simplify_eq; lia]
  end.
  unfold IsDAG. simpl.
  match goal with
  | |- context [mbind _ ?m] => destruct m as [st| |]; simpl; try done
  end.
  match goal with
  | |- context [updateTips ?x ?y] =>
      destruct (updateTips x y) as [bd2| |] eqn:Hupd; simpl; try done
  end.
  apply updateTips_set_tips in Hupd as [t ->]. simpl.
  intros. simplify_eq. simpl. case_decide; lia.
Qed.


End Invariants.

(** G is stored with the children A and B in the two-tips DAG. *)
Lemma twoTips_child_G_A : child (Fixtures.built Fixtures.twoTips) 100 101.
Proof.
  eexists. split; [vm_compute; reflexivity|]. simpl. by left.
Qed.

Lemma twoTips_total : bd_blockTotal (Fixtures.built Fixtures.twoTips) = 3.
Proof. vm_compute. reflexivity. Qed.

Lemma twoTips_run :
  AddBlocks FirstParentChain.strategy Fixtures.start
    [Some Fixtures.G; Some Fixtures.A; Some Fixtures.B]
  = Ok (Fixtures.built Fixtures.twoTips).
Proof. vm_compute. reflexivity. Qed.

(** X1 at an input: G and A in the two-tips DAG. *)
Lemma edges_bidirectional_witness :
  Reachable FirstParentChain.strategy (Fixtures.built Fixtures.twoTips) ∧
  ((∃ cb ps, bd_blocks (Fixtures.built Fixtures.twoTips) !! 101%N = Some cb ∧
             b_parents cb = Some ps ∧ 100%N ∈ ps) ↔
   (∃ pb, bd_blocks (Fixtures.built Fixtures.twoTips) !! 100%N = Some pb ∧
          101%N ∈ b_children pb)) ∧
  (child (Fixtures.built Fixtures.twoTips) 100 101 →
   ∃ pb cb, bd_blocks (Fixtures.built Fixtures.twoTips) !! 100%N = Some pb ∧
            bd_blocks (Fixtures.built Fixtures.twoTips) !! 101%N = Some cb ∧
            b_id pb < b_id cb).
Proof.
  split; [exact twoTips_Reachable|].
  exact (edges_bidirectional FirstParentChain.strategy
           (Fixtures.built Fixtures.twoTips) 100 101 twoTips_Reachable).
Defined.

(** X2 at an input: A is in the future of G in the two-tips DAG. *)
Lemma future_acyclic_witness :
  Reachable FirstParentChain.strategy (Fixtures.built Fixtures.twoTips) ∧
  Future (Fixtures.built Fixtures.twoTips) 100 101 ∧
  (100%N ≠ 101%N ∧ ¬ Future (Fixtures.built Fixtures.twoTips) 101 100 ∧
   ∃ bx b_y, bd_blocks (Fixtures.built Fixtures.twoTips) !! 100%N = Some bx ∧
             bd_blocks (Fixtures.built Fixtures.twoTips) !! 101%N = Some b_y ∧
             b_id bx < b_id b_y ∧ b_layer bx < b_layer b_y).
Proof.
  split; [exact twoTips_Reachable|].
  split; [exact (tc_once _ _ _ twoTips_child_G_A)|].
  exact (future_acyclic FirstParentChain.strategy
           (Fixtures.built Fixtures.twoTips) 100 101 twoTips_Reachable
           (tc_once _ _ _ twoTips_child_G_A)).
Defined.

(** X3 at an input: the two-tips DAG. *)
Lemma blockTotal_counts_witness :
  Reachable FirstParentChain.strategy (Fixtures.built Fixtures.twoTips) ∧
  Z.of_nat (size (bd_blocks (Fixtures.built Fixtures.twoTips)))
  = bd_blockTotal (Fixtures.built Fixtures.twoTips).
Proof.
  split; [exact twoTips_Reachable|].
  exact (proj1 (blockTotal_counts FirstParentChain.strategy
                  (Fixtures.built Fixtures.twoTips) twoTips_Reachable)).
Defined.

(** X4 at an input: the two-tips DAG. *)
Lemma genesis_is_root_witness :
  Reachable FirstParentChain.strategy (Fixtures.built Fixtures.twoTips) ∧
  bd_blockTotal (Fixtures.built Fixtures.twoTips) > 0 ∧
  ∃ g, GetGenesis (Fixtures.built Fixtures.twoTips) = Some g ∧
    b_hash g = bd_genesis (Fixtures.built Fixtures.twoTips) ∧
    b_id g = 0 ∧ b_layer g = 0 ∧ b_parents g = None ∧
    ∀ h b, bd_blocks (Fixtures.built Fixtures.twoTips) !! h = Some b →
      h ≠ bd_genesis (Fixtures.built Fixtures.twoTips) →
      HasParents b = true ∧
      Future (Fixtures.built Fixtures.twoTips)
        (bd_genesis (Fixtures.built Fixtures.twoTips)) h.
Proof.
  assert (bd_blockTotal (Fixtures.built Fixtures.twoTips) > 0) as Hpos
    by (rewrite twoTips_total; lia).
  split; [exact twoTips_Reachable|]. split; [exact Hpos|].
  exact (genesis_is_root FirstParentChain.strategy
           (Fixtures.built Fixtures.twoTips) twoTips_Reachable Hpos).
Defined.



(** ** Future sets *)

Section FutureSets.
Context {IState : Type} (inst : IBlockDAG IState).
Implicit Types (bd : BlockDAG IState).

Lemma GetFutureSet_children bd (fuel : nat) (h : N) (b : Block) :
  WF bd → bd_blocks bd !! h = Some b → (rank bd b ≤ S fuel)%nat →
  (∀ k kb fs, bd_blocks bd !! k = Some kb → NoDup fs →
     (rank bd kb ≤ fuel)%nat →
     ∃ fs', GetFutureSet fuel bd fs (Some kb) = Ok fs' ∧
            FutureAdded bd k kb fs fs') →
  ∀ (cs fs : list N), (∀ c, c ∈ cs → c ∈ b_children b) → NoDup fs →
  ∃ fs',
    forKeys (λ fs k,
      if negb (hs_Has fs k)
      then GetFutureSet fuel bd (hs_Add fs k) (GetBlock bd (Some k))
      else Ok fs) cs fs = Ok fs' ∧
    NoDup fs' ∧
    (∀ x, x ∈ fs → x ∈ fs') ∧
    (∀ x, x ∈ fs' → x ∈ fs ∨ Future bd h x) ∧
    (∀ c, c ∈ cs → c ∈ fs') ∧
    (∀ x, x ∈ fs' → x ∉ fs → ∀ c, child bd x c → c ∈ fs').
Proof.
  intros Hwf Hb Hrank IH cs. induction cs as [|k cs IHcs]; intros fs Hcs Hnd.
  - exists fs. simpl. split; [done|]. split; [done|]. split; [done|].
    split; [by left|]. split; [intros c Hc; by apply elem_of_nil in Hc|done].
  - assert (child bd h k) as Hchild by (exists b; split; [done|]; apply Hcs; by left).
    assert (∀ c, c ∈ cs → c ∈ b_children b) as Hcs'
      by (intros c Hc; apply Hcs; by right).
    simpl. destruct (hs_Has fs k) eqn:Hk; simpl.
    + apply hs_Has_true in Hk.
      destruct (IHcs fs Hcs' Hnd) as (fs' & Hrun & Hnd' & Hsub & Hfut & Hin & Hcl).
      exists fs'. split; [done|]. split; [done|]. split; [done|].
      split; [done|]. split; [|done].
      intros c [->|Hc]%elem_of_cons; [by apply Hsub|by apply Hin].
    + apply hs_Has_false in Hk.
      destruct (child_id bd h k Hwf Hchild) as (b0 & kb & Hb0 & Hkb & Hid & _).
      assert (b0 = b) as -> by congruence.
      pose proof (wf_id bd Hwf k kb Hkb) as Hkid.
      destruct (IH k kb (hs_Add fs k) Hkb) as (fs1 & Hrun1 & Hnd1 & Hsub1 & Hfut1 & Hin1 & Hcl1).
      { by apply NoDup_hs_Add. }
      { unfold rank in *. lia. }
      destruct (IHcs fs1 Hcs' Hnd1) as (fs' & Hrun & Hnd' & Hsub & Hfut & Hin & Hcl).
      exists fs'. rewrite Hkb, Hrun1. simpl.
      split; [done|]. split; [done|].
      assert (k ∈ fs1) as Hk1 by (apply Hsub1, elem_of_hs_Add; by right).
      split; [|split; [|split]].
      * intros x Hx. apply Hsub, Hsub1, elem_of_hs_Add. by left.
      * intros x Hx. destruct (Hfut x Hx) as [Hx1|Hx1]; [|by right].
        destruct (Hfut1 x Hx1) as [[Hx0| ->]%elem_of_hs_Add|Hx0].
        -- by left.
        -- right. by apply tc_once.
        -- right. by eapply tc_l.
      * intros c [->|Hc]%elem_of_cons; [by apply Hsub|by apply Hin].
      * intros x Hx Hnx c Hc.
        destruct (decide (x ∈ fs1)) as [Hx1|Hx1]; [|by eapply Hcl].
        apply Hsub. destruct (decide (x = k)) as [->|Hne].
        -- destruct Hc as (kb' & Hkb' & Hc).
           assert (kb' = kb) as -> by congruence. by apply Hin1.
        -- apply (Hcl1 x Hx1); [|done].
           rewrite elem_of_hs_Add. tauto.
Qed.

(** [GetFutureSet] returns when its fuel covers the rank of the block. *)
Lemma GetFutureSet_spec bd :
  WF bd → ∀ (fuel : nat) (h : N) (b : Block) (fs : list N),
  bd_blocks bd !! h = Some b → NoDup fs → (rank bd b ≤ fuel)%nat →
  ∃ fs', GetFutureSet fuel bd fs (Some b) = Ok fs' ∧
         FutureAdded bd h b fs fs'.
Proof.
  intros Hwf fuel. induction fuel as [|fuel IH]; intros h b fs Hb Hnd Hrank.
  - pose proof (wf_id bd Hwf h b Hb). unfold rank in Hrank. lia.
  - simpl. destruct (hs_IsEmpty (b_children b)) eqn:He.
    + apply hs_IsEmpty_true in He. exists fs. split; [done|].
      split; [done|]. split; [done|]. split; [by left|].
      split; [rewrite He; intros c Hc; by apply elem_of_nil in Hc|done].
    + destruct (GetFutureSet_children bd fuel h b Hwf Hb Hrank IH
                  (b_children b) fs) as (fs' & Hrun & Hrest); [done|done|].
      exists fs'. split; [done|]. unfold FutureAdded. tauto.
Qed.

(** X7: on a framework built by [AddBlock] calls, [GetFutureSet] started
    with the empty set on a stored block returns, given fuel for the number
    of blocks, exactly the blocks reachable from it over child edges, each
    once, and never the block itself. *)
Theorem GetFutureSet_exact bd (h : N) (b : Block) (fuel : nat) :
  Reachable inst bd → bd_blocks bd !! h = Some b →
  (Z.to_nat (bd_blockTotal bd) ≤ fuel)%nat →
  ∃ fs, GetFutureSet fuel bd NewHashSet (Some b) = Ok fs ∧
    NoDup fs ∧ (h ∉ fs) ∧ ∀ x, x ∈ fs ↔ Future bd h x.
Proof.
  intros Hreach Hb Hfuel. pose proof (Reachable_WF inst bd Hreach) as Hwf.
  pose proof (wf_id bd Hwf h b Hb) as Hid.
  destruct (GetFutureSet_spec bd Hwf fuel h b [] Hb) as
    (fs & Hrun & Hnd & _ & Hfut & Hin & Hcl);
    [constructor|unfold rank; lia|].
  assert (∀ x, x ∈ fs ↔ Future bd h x) as Hiff.
  { intros x. split.
    - intros Hx. destruct (Hfut x Hx) as [Hnil|]; [|done].
      by apply elem_of_nil in Hnil.
    - intros Hx.
      assert (∀ y z, Future bd y z → (y = h ∨ y ∈ fs) → z ∈ fs) as Hgen.
      { intros y z Hyz. induction Hyz as [y z Hc|y z z' Hc _ IH].
        - intros [->|Hy].
          + destruct Hc as (b' & Hb' & Hc).
            assert (b' = b) as -> by congruence. by apply Hin.
          + apply (Hcl y Hy); [apply not_elem_of_nil|done].
        - intros Hy. apply IH. right. destruct Hy as [->|Hy].
          + destruct Hc as (b' & Hb' & Hc).
            assert (b' = b) as -> by congruence. by apply Hin.
          + apply (Hcl y Hy); [apply not_elem_of_nil|done]. }
      apply (Hgen h x Hx). by left. }
  exists fs. split; [done|]. split; [done|]. split; [|done].
  intros Hh. apply Hiff in Hh.
  destruct (Future_id bd h h Hwf Hh) as (b1 & b2 & Hb1 & Hb2 & Hlt & _).
  assert (b1 = b2) as -> by congruence. lia.
Qed.

End FutureSets.

(** ** Tips, graph state, sorting *)

Section Tips.
Context {IState : Type} (inst : IBlockDAG IState).
Implicit Types (bd : BlockDAG IState).

(** Every stored block is a tip or has a tip in its future. *)
Lemma tip_above bd :
  WF bd → ∀ (n : nat) (h : N) (b : Block),
  bd_blocks bd !! h = Some b → (Z.to_nat (bd_blockTotal bd - b_id b) ≤ n)%nat →
  h ∈ tips_of bd ∨ ∃ t, t ∈ tips_of bd ∧ Future bd h t.
Proof.
  intros Hwf n. induction n as [|n IH]; intros h b Hb Hn.
  - pose proof (wf_id bd Hwf h b Hb). lia.
  - pose proof (wf_tips bd Hwf) as [_ Htips].
    destruct (b_children b) as [|c cs] eqn:Hch.
    + left. apply Htips. eauto.
    + right.
      assert (child bd h c) as Hchild
        by (exists b; split; [done|]; rewrite Hch; by left).
      destruct (child_id bd h c Hwf Hchild) as (b0 & cb & Hb0 & Hcb & Hid & _).
      assert (b0 = b) as -> by congruence.
      pose proof (wf_id bd Hwf c cb Hcb).
      destruct (IH c cb Hcb) as [Hc|(t & Ht & Hct)]; [lia|..].
      * exists c. split; [done|by apply tc_once].
      * exists t. split; [done|by eapply tc_l].
Qed.

(** X8: the tips are the frontier of the stored graph: nothing lies in
    the future of a tip, every stored block is a tip or has a tip in its
    future, and a DAG with a block has a tip. *)
Theorem tips_are_frontier bd :
  Reachable inst bd →
  (∀ t x, t ∈ tips_of bd → ¬ Future bd t x) ∧
  (∀ h b, bd_blocks bd !! h = Some b →
     h ∈ tips_of bd ∨ ∃ t, t ∈ tips_of bd ∧ Future bd h t) ∧
  (bd_blockTotal bd > 0 → tips_of bd ≠ []).
Proof.
  intros Hreach. pose proof (Reachable_WF inst bd Hreach) as Hwf.
  pose proof (wf_tips bd Hwf) as [_ Htips].
  split; [|split].
  - intros t x Ht Htx. apply Htips in Ht as (b & Hb & Hch).
    assert (∃ c, child bd t c) as (c & b' & Hb' & Hc).
    { destruct Htx as [? ? Hc|? ? ? Hc _]; eauto. }
    assert (b' = b) as -> by congruence.
    rewrite Hch in Hc. by apply elem_of_nil in Hc.
  - intros h b Hb. by apply (tip_above bd Hwf _ h b Hb (Nat.le_refl _)).
  - intros Hpos Hnil.
    destruct (blockTotal_counts inst bd Hreach) as (_ & _ & Hids & _).
    destruct (Hids 0) as (h & b & Hb & _); [lia|].
    destruct (tip_above bd Hwf _ h b Hb (Nat.le_refl _)) as [Hh|(t & Ht & _)].
    + rewrite Hnil in Hh. by apply elem_of_nil in Hh.
    + rewrite Hnil in Ht. by apply elem_of_nil in Ht.
Qed.

Lemma hs_AddList_app (l s : list N) :
  NoDup (s ++ l) → hs_AddList s l = s ++ l.
Proof.
  unfold hs_AddList. revert s. induction l as [|x l IH]; intros s Hnd; simpl.
  - by rewrite app_nil_r.
  - assert (hs_Add s x = s ++ [x]) as ->.
    { unfold hs_Add. assert (hs_Has s x = false) as ->; [|done].
      apply hs_Has_false. apply NoDup_app in Hnd as (_ & Hdis & _).
      intros Hx. apply (Hdis x Hx). by left. }
    rewrite IH; rewrite <- app_assoc; done.
Qed.

Lemma maxTipLayer_spec bd (keys : list N) : ∀ l0 : Z,
  (∀ k, k ∈ keys → is_Some (bd_blocks bd !! k)) →
  ∃ l, maxTipLayer bd keys l0 = Ok l ∧ l0 ≤ l ∧
    (∀ k b, k ∈ keys → bd_blocks bd !! k = Some b → b_layer b ≤ l) ∧
    (l = l0 ∨ ∃ k b, k ∈ keys ∧ bd_blocks bd !! k = Some b ∧ l = b_layer b).
Proof.
  induction keys as [|k keys IH]; intros l0 Hknown; simpl.
  - exists l0. split; [done|]. split; [lia|]. split; [|by left].
    intros k b Hk. by apply elem_of_nil in Hk.
  - destruct (Hknown k) as [kb Hkb]; [by left|].
    unfold payload. rewrite Hkb. simpl.
    destruct (IH (if decide (b_layer kb > l0) then b_layer kb else l0))
      as (l & Hrun & Hle & Hall & Hatt).
    { intros k' Hk'. apply Hknown. by right. }
    exists l. split; [done|]. split; [case_decide; lia|]. split.
    + intros k' b' [->|Hk']%elem_of_cons Hb'.
      * assert (b' = kb) as -> by congruence. case_decide; lia.
      * by eapply Hall.
    + destruct Hatt as [->|(k' & b' & Hk' & Hb' & ->)].
      * case_decide; [|by left]. right. exists k, kb.
        split; [by left|done].
      * right. exists k', b'. split; [by right|done].
Qed.

(** X9: when the strategy has a main-chain tip, [GetGraphState] of a
    non-empty framework built by [AddBlock] calls returns the tip set as
    it is, [blockTotal], the height of the main-chain tip, and as layer the
    largest layer of a stored block, which a tip attains. *)
Theorem GetGraphState_summary bd (mainTip : Block) :
  Reachable inst bd → bd_blockTotal bd > 0 →
  GetMainChainTip inst bd = Some mainTip →
  ∃ gs, GetGraphState inst bd = Ok gs ∧
    gs_tips gs = tips_of bd ∧
    gs_total gs = bd_blockTotal bd ∧
    gs_mainHeight gs = b_height mainTip ∧
    (∀ h b, bd_blocks bd !! h = Some b → b_layer b ≤ gs_layer gs) ∧
    (∃ t b, t ∈ tips_of bd ∧ bd_blocks bd !! t = Some b ∧
            b_layer b = gs_layer gs).
Proof.
  intros Hreach Hpos Hmain. pose proof (Reachable_WF inst bd Hreach) as Hwf.
  destruct (tips_are_frontier bd Hreach) as (_ & Habove & Hne).
  specialize (Hne Hpos).
  pose proof (wf_tips bd Hwf) as [Hnd Htips].
  unfold GetGraphState. unfold TipsExact, tips_of in *.
  destruct (bd_tips bd) as [ts|] eqn:Hts; simpl in *; [|done].
  assert (∀ k, k ∈ ts → is_Some (bd_blocks bd !! k)) as Hknown.
  { intros k Hk. apply Htips in Hk as (b & Hb & _). by eexists. }
  destruct (maxTipLayer_spec bd ts 0 Hknown) as (l & Hrun & Hl0 & Hall & Hatt).
  assert (hs_IsEmpty ts = false) as -> by by destruct ts.
  simpl. rewrite Hrun. simpl. rewrite Hmain. simpl.
  eexists. split; [done|]. simpl.
  split; [apply hs_AddList_app; by simpl|].
  split; [done|]. split; [done|].
  assert (∃ t b, t ∈ ts ∧ bd_blocks bd !! t = Some b ∧ b_layer b = l) as Htop.
  { destruct Hatt as [->|(t & b & Ht & Hb & ->)]; [|eauto].
    destruct ts as [|t ts']; [done|].
    destruct (Hknown t) as [b Hb]; [by left|].
    exists t, b. split; [by left|]. split; [done|].
    pose proof (Hall t b (list_elem_of_here _ _) Hb).
    pose proof (wf_layer bd Hwf t b Hb) as [? _]. lia. }
  split; [|done].
  intros h b Hb. destruct (Habove h b Hb) as [Hh|(t & Ht & Hfut)].
  - by eapply Hall.
  - destruct (Future_id bd h t Hwf Hfut) as (b1 & tb & Hb1 & Htb & _ & Hlt).
    assert (b1 = b) as -> by congruence.
    pose proof (Hall t tb Ht Htb). lia.
Qed.

End Tips.

Section Sorted.
Context {IState : Type} (inst : IBlockDAG IState).
Context (IsExcellent : GraphState → GraphState → bool).
Implicit Types (bd : BlockDAG IState).

Lemma sort_insert_perm (x : Block) (l : list Block) :
  sort_insert x l ≡ₚ x :: l.
Proof.
  induction l as [|y l IH]; simpl; [done|].
  destruct (Less y x); [|done]. rewrite IH. apply Permutation_swap.
Qed.

Lemma sort_Sort_perm (l : list Block) : sort_Sort l ≡ₚ l.
Proof.
  induction l as [|x l IH]; simpl; [done|].
  by rewrite sort_insert_perm, IH.
Qed.

Lemma sort_Sort_fixed (l : list Block) :
  StronglySorted BlockLe l → sort_Sort l = l.
Proof.
  induction 1 as [|x l Hs IH Hx]; simpl; [done|]. rewrite IH.
  destruct l as [|y l]; simpl; [done|].
  apply Forall_cons in Hx as [Hxy _]. apply Less_false in Hxy.
  by rewrite Hxy.
Qed.

Lemma omap_GetBlock_stored bd (src : list (option N)) :
  WF bd →
  Forall (λ b, bd_blocks bd !! b_hash b = Some b) (omap (GetBlock bd) src).
Proof.
  intros Hwf. apply Forall_forall. intros b Hb.
  apply list_elem_of_omap in Hb as (p & _ & Hp).
  destruct p as [k|]; simpl in Hp; [|done].
  by rewrite (wf_hash bd Hwf k b Hp).
Qed.

Lemma omap_GetBlock_hashes bd (bs : list Block) :
  Forall (λ b, bd_blocks bd !! b_hash b = Some b) bs →
  omap (GetBlock bd) ((λ b, Some (b_hash b)) <$> bs) = bs.
Proof.
  induction 1 as [|b bs Hb _ IH]; csimpl; [done|]. by rewrite Hb, IH.
Qed.

(** X10: [SortBlock] returns a slice of at most one pointer as it is,
    stored or not; of a longer slice it returns the hashes of the stored
    blocks among it (nil pointers and unknown hashes dropped, repetitions
    kept), ascending in (order, id); and sorting twice is sorting once. *)
Theorem SortBlock_sorted bd (src : list (option N)) :
  Reachable inst bd →
  ((length src ≤ 1)%nat → SortBlock bd src = src) ∧
  ((2 ≤ length src)%nat →
   ∃ hs, SortBlock bd src = Some <$> hs ∧
     hs ≡ₚ b_hash <$> omap (GetBlock bd) src ∧
     (∀ k, k ∈ hs ↔ Some k ∈ src ∧ is_Some (bd_blocks bd !! k)) ∧
     StronglySorted (HashLe bd) hs) ∧
  SortBlock bd (SortBlock bd src) = SortBlock bd src.
Proof.
  intros Hreach. pose proof (Reachable_WF inst bd Hreach) as Hwf.
  set (B := omap (GetBlock bd) src).
  set (bs := if decide (2 ≤ length B)%nat then sort_Sort B else B).
  assert (bs ≡ₚ B) as Hperm.
  { unfold bs. case_decide; [apply sort_Sort_perm|done]. }
  assert (StronglySorted BlockLe bs) as Hsorted.
  { unfold bs. case_decide; [apply sort_Sort_sorted|].
    by apply StronglySorted_short. }
  assert (Forall (λ b, bd_blocks bd !! b_hash b = Some b) bs) as Hstored.
  { rewrite Hperm. by apply omap_GetBlock_stored. }
  assert ((2 ≤ length src)%nat →
          SortBlock bd src = (λ b, Some (b_hash b)) <$> bs) as Hlong.
  { intros Hlen. unfold SortBlock. rewrite decide_False by lia. done. }
  split; [|split].
  - intros Hlen. unfold SortBlock. by rewrite decide_True.
  - intros Hlen. exists (b_hash <$> bs).
    split; [rewrite (Hlong Hlen), <- list_fmap_compose; done|].
    split; [by rewrite Hperm|]. split.
    + intros k. rewrite Hperm. unfold B. split.
      * intros (b & -> & Hb)%list_elem_of_fmap.
        apply list_elem_of_omap in Hb as (p & Hp & Hpb).
        destruct p as [k|]; simpl in Hpb; [|done].
        rewrite (wf_hash bd Hwf k b Hpb). split; [done|by eexists].
      * intros [Hk [b Hb]]. apply list_elem_of_fmap. exists b.
        split; [by rewrite (wf_hash bd Hwf k b Hb)|].
        apply list_elem_of_omap. by exists (Some k).
    + by apply StronglySorted_hashes.
  - destruct (decide (length src ≤ 1)%nat) as [Hshort|Hlen].
    { unfold SortBlock at 2. rewrite decide_True by done. done. }
    rewrite (Hlong ltac:(lia)).
    unfold SortBlock. case_decide as Hr; [done|].
    rewrite (omap_GetBlock_hashes bd bs Hstored).
    rewrite length_fmap in Hr. rewrite decide_True by lia.
    by rewrite (sort_Sort_fixed bs Hsorted).
Qed.

(** X11: a bound of 0, or one whose conversion to [int] is negative
    (2^63 and above), makes [LocateBlocks] return the empty list whenever
    it returns a list. *)
Theorem LocateBlocks_no_room (fuel : nat) bd (gs : GraphState)
  (maxHashes : Z) (l : list N) :
  maxHashes = 0 ∨ 2 ^ 63 ≤ maxHashes < uint_size →
  LocateBlocks inst IsExcellent fuel bd gs maxHashes = Ok (Some l) →
  l = [].
Proof.
  intros Hm. unfold LocateBlocks.
  destruct (GetGraphState inst bd) as [ours| |]; simpl; try done.
  destruct (IsExcellent gs ours); [done|].
  destruct (bd_tips bd) as [ts|]; simpl; try done.
  destruct (locateLoop fuel bd gs ts (hs_AddList NewHashSet ts))
    as [fs| |]; simpl; try done.
  destruct (payloads bd fs) as [bs| |]; simpl; try done.
  assert (Z.to_nat (int_of_uint maxHashes) = 0%nat) as ->.
  { unfold int_of_uint, uint_size in *. case_decide; lia. }
  intros. by simplify_eq.
Qed.

(** X12: [HasBlocks] holds exactly when every pointer of the slice is
    non-nil and names a stored block. *)
Theorem HasBlocks_iff bd (hs : list (option N)) :
  HasBlocks bd hs = true ↔
  ∀ p, p ∈ hs → ∃ k, p = Some k ∧ is_Some (bd_blocks bd !! k).
Proof.
  rewrite HasBlocks_true. split.
  - intros H p Hp. by apply HasBlock_true_inv, H.
  - intros H p Hp. destruct (H p Hp) as (k & -> & Hk).
    by apply HasBlock_Some.
Qed.

End Sorted.

Section TipsList.
Context {IState : Type} (inst : IBlockDAG IState).
Context (queries : IBlockDAGQueries IState).
Implicit Types (bd : BlockDAG IState).

Lemma lookups_known bd (ts : list N) :
  (∀ k, k ∈ ts → is_Some (bd_blocks bd !! k)) →
  ∃ bs, (λ k : N, GetBlock bd (Some k)) <$> ts = Some <$> bs ∧
        Forall2 (λ k b, bd_blocks bd !! k = Some b) ts bs.
Proof.
  induction ts as [|t ts IH]; intros Hknown.
  - exists []. split; [done|constructor].
  - destruct (Hknown t) as [b Hb]; [by left|].
    destruct IH as (bs & Heq & Hall); [intros k Hk; apply Hknown; by right|].
    exists (b :: bs). split; [|by constructor].
    rewrite !fmap_cons, Heq. unfold GetBlock. by rewrite Hb.
Qed.


End TipsList.

(** ** The properties above on the two-tips DAG *)

Lemma twoTips_lookup_G :
  bd_blocks (Fixtures.built Fixtures.twoTips) !! 100%N = Some twoTipsG.
Proof. vm_compute. reflexivity. Qed.

Lemma twoTips_mainTip :
  GetMainChainTip FirstParentChain.strategy (Fixtures.built Fixtures.twoTips)
  = Some twoTipsA.
Proof. vm_compute. reflexivity. Qed.

Lemma twoTips_fuel :
  (Z.to_nat (bd_blockTotal (Fixtures.built Fixtures.twoTips)) ≤ 3)%nat.
Proof. rewrite twoTips_total. simpl. lia. Qed.

Lemma twoTips_nonempty : bd_blockTotal (Fixtures.built Fixtures.twoTips) > 0.
Proof. rewrite twoTips_total. lia. Qed.

(** X7 at an input: the future of genesis in the two-tips DAG. *)
Lemma GetFutureSet_exact_witness :
  Reachable FirstParentChain.strategy (Fixtures.built Fixtures.twoTips) ∧
  bd_blocks (Fixtures.built Fixtures.twoTips) !! 100%N = Some twoTipsG ∧
  (Z.to_nat (bd_blockTotal (Fixtures.built Fixtures.twoTips)) ≤ 3)%nat ∧
  ∃ fs, GetFutureSet 3 (Fixtures.built Fixtures.twoTips) NewHashSet
          (Some twoTipsG) = Ok fs ∧
    NoDup fs ∧ (100%N ∉ fs) ∧
    ∀ x, x ∈ fs ↔ Future (Fixtures.built Fixtures.twoTips) 100 x.
Proof.
  split; [exact twoTips_Reachable|]. split; [exact twoTips_lookup_G|].
  split; [exact twoTips_fuel|].
  exact (GetFutureSet_exact FirstParentChain.strategy
           (Fixtures.built Fixtures.twoTips) 100 twoTipsG 3
           twoTips_Reachable twoTips_lookup_G twoTips_fuel).
Defined.

(** X8 at an input: the two-tips DAG. *)
Lemma tips_are_frontier_witness :
  Reachable FirstParentChain.strategy (Fixtures.built Fixtures.twoTips) ∧
  (∀ t x, t ∈ tips_of (Fixtures.built Fixtures.twoTips) →
          ¬ Future (Fixtures.built Fixtures.twoTips) t x) ∧
  (∀ h b, bd_blocks (Fixtures.built Fixtures.twoTips) !! h = Some b →
     h ∈ tips_of (Fixtures.built Fixtures.twoTips) ∨
     ∃ t, t ∈ tips_of (Fixtures.built Fixtures.twoTips) ∧
          Future (Fixtures.built Fixtures.twoTips) h t) ∧
  (bd_blockTotal (Fixtures.built Fixtures.twoTips) > 0 →
   tips_of (Fixtures.built Fixtures.twoTips) ≠ []).
Proof.
  split; [exact twoTips_Reachable|].
  exact (tips_are_frontier FirstParentChain.strategy
           (Fixtures.built Fixtures.twoTips) twoTips_Reachable).
Defined.

(** X9 at an input: the two-tips DAG, whose main-chain tip is A. *)
Lemma GetGraphState_summary_witness :
  Reachable FirstParentChain.strategy (Fixtures.built Fixtures.twoTips) ∧
  bd_blockTotal (Fixtures.built Fixtures.twoTips) > 0 ∧
  GetMainChainTip FirstParentChain.strategy (Fixtures.built Fixtures.twoTips)
  = Some twoTipsA ∧
  ∃ gs, GetGraphState FirstParentChain.strategy
          (Fixtures.built Fixtures.twoTips) = Ok gs ∧
    gs_tips gs = tips_of (Fixtures.built Fixtures.twoTips) ∧
    gs_total gs = bd_blockTotal (Fixtures.built Fixtures.twoTips) ∧
    gs_mainHeight gs = b_height twoTipsA ∧
    (∀ h b, bd_blocks (Fixtures.built Fixtures.twoTips) !! h = Some b →
            b_layer b ≤ gs_layer gs) ∧
    (∃ t b, t ∈ tips_of (Fixtures.built Fixtures.twoTips) ∧
            bd_blocks (Fixtures.built Fixtures.twoTips) !! t = Some b ∧
            b_layer b = gs_layer gs).
Proof.
  split; [exact twoTips_Reachable|]. split; [exact twoTips_nonempty|].
  split; [exact twoTips_mainTip|].
  exact (GetGraphState_summary FirstParentChain.strategy
           (Fixtures.built Fixtures.twoTips) twoTipsA twoTips_Reachable
           twoTips_nonempty twoTips_mainTip).
Defined.

(** X10 at an input: B, an unknown hash, a nil pointer and A, sorted on
    the two-tips DAG. *)
Lemma SortBlock_sorted_witness :
  Reachable FirstParentChain.strategy (Fixtures.built Fixtures.twoTips) ∧
  (2 ≤ length [Some 102%N; Some 7%N; None; Some 101%N])%nat ∧
  ∃ hs, SortBlock (Fixtures.built Fixtures.twoTips)
          [Some 102%N; Some 7%N; None; Some 101%N] = Some <$> hs ∧
    hs ≡ₚ b_hash <$> omap (GetBlock (Fixtures.built Fixtures.twoTips))
                       [Some 102%N; Some 7%N; None; Some 101%N] ∧
    (∀ k, k ∈ hs ↔ Some k ∈ [Some 102%N; Some 7%N; None; Some 101%N] ∧
                   is_Some (bd_blocks (Fixtures.built Fixtures.twoTips) !! k)) ∧
    StronglySorted (HashLe (Fixtures.built Fixtures.twoTips)) hs.
Proof.
  assert (2 ≤ length [Some 102%N; Some 7%N; None; Some 101%N])%nat as Hlen
    by (simpl; lia).
  split; [exact twoTips_Reachable|]. split; [exact Hlen|].
  exact (proj1 (proj2 (SortBlock_sorted FirstParentChain.strategy
                         (Fixtures.built Fixtures.twoTips)
                         [Some 102%N; Some 7%N; None; Some 101%N]
                         twoTips_Reachable)) Hlen).
Defined.

(** X11 at an input: the two-tips DAG asked for 2^63 hashes by a peer at
    genesis. *)
Lemma LocateBlocks_no_room_witness :
  (2 ^ 63 = 0 ∨ 2 ^ 63 ≤ 2 ^ 63 < uint_size) ∧
  LocateBlocks FirstParentChain.strategy lexIsExcellent 4
    (Fixtures.built Fixtures.twoTips) (mkGraphState [100%N] 0 1 0) (2 ^ 63)
  = Ok (Some (take (Z.to_nat (int_of_uint (2 ^ 63))) [101%N; 102%N])) ∧
  take (Z.to_nat (int_of_uint (2 ^ 63))) [101%N; 102%N] = [].
Proof.
  assert (2 ^ 63 = 0 ∨ 2 ^ 63 ≤ 2 ^ 63 < uint_size) as Hm
    by (right; unfold uint_size; lia).
  pose proof (LocateBlocks_twoTips (mkGraphState [100%N] 0 1 0) (2 ^ 63) 4
                eq_refl eq_refl (Nat.le_refl 4)) as Hrun.
  split; [exact Hm|]. split; [exact Hrun|].
  exact (LocateBlocks_no_room FirstParentChain.strategy lexIsExcellent 4
           (Fixtures.built Fixtures.twoTips) (mkGraphState [100%N] 0 1 0)
           (2 ^ 63) _ Hm Hrun).
Defined.


(** ** Confirmations *)

Section Confirmations.
Context {IState : Type} (inst : IBlockDAG IState).
Implicit Types (bd : BlockDAG IState).

Lemma confirmWeight_app bd (q1 q2 : list N) :
  confirmWeight bd (q1 ++ q2)
  = (confirmWeight bd q1 + confirmWeight bd q2)%nat.
Proof. unfold confirmWeight. by rewrite fmap_app, sum_pow2_app. Qed.

Lemma confirmWeight_cons bd k (q : list N) :
  confirmWeight bd (k :: q) = (2 ^ coId bd k + confirmWeight bd q)%nat.
Proof. done. Qed.

Lemma children_weight bd k b :
  WF bd → bd_blocks bd !! k = Some b →
  (confirmWeight bd (b_children b) < 2 ^ coId bd k)%nat.
Proof.
  intros Hwf Hb.
  destruct (wf_children bd Hwf k b Hb) as [Hnd _].
  assert (∀ c, c ∈ b_children b →
            ∃ cb, bd_blocks bd !! c = Some cb ∧ b_id b < b_id cb ∧
                  b_id cb < bd_blockTotal bd) as Hin.
  { intros c Hc.
    destruct (child_id bd k c Hwf) as (b0 & cb & Hb0 & Hcb & Hid & _);
      [by exists b|].
    assert (b0 = b) as -> by congruence.
    pose proof (wf_id bd Hwf c cb Hcb). exists cb. split; [done|lia]. }
  pose proof (wf_id bd Hwf k b Hb) as Hkid.
  apply sum_pow2_lt.
  - apply NoDup_fmap_2_strong; [|done].
    intros c1 c2 Hc1 Hc2 Heq.
    destruct (Hin c1 Hc1) as (b1 & Hb1 & ? & ?),
             (Hin c2 Hc2) as (b2 & Hb2 & ? & ?).
    unfold coId in Heq. rewrite Hb1, Hb2 in Heq.
    apply (wf_id_inj bd Hwf c1 c2 b1 b2 Hb1 Hb2). lia.
  - apply Forall_forall. intros i (c & -> & Hc)%list_elem_of_fmap.
    destruct (Hin c Hc) as (cb & Hcb & ? & ?).
    unfold coId. rewrite Hb, Hcb. lia.
Qed.

(** With fuel for the weight of the queue the loop of [GetConfirmations]
    returns 0 or counts from a main-chain block in the queue or in the
    future of the queue. *)
Lemma confirmLoop_spec bd (mt : Block) :
  WF bd → ∀ (fuel : nat) (queue : list N),
  (∀ k, k ∈ queue → is_Some (bd_blocks bd !! k)) →
  (confirmWeight bd queue ≤ fuel)%nat →
  ∃ z, confirmLoop inst fuel bd (Some mt) queue = Ok z ∧
    (z = 0 ∨
     ∃ m mb, (m ∈ queue ∨ ∃ q, q ∈ queue ∧ Future bd q m) ∧
       bd_blocks bd !! m = Some mb ∧
       IsOnMainChain inst bd (Some m) = true ∧
       z = uint (1 + b_height mt - b_height mb)).
Proof.
  intros Hwf fuel. induction fuel as [|fuel IH]; intros queue Hknown Hfuel.
  - destruct queue as [|cur queue]; [exists 0; split; [done|by left]|].
    rewrite confirmWeight_cons in Hfuel.
    pose proof (pow2_pos (coId bd cur)). lia.
  - destruct queue as [|cur queue]; [exists 0; split; [done|by left]|].
    destruct (Hknown cur) as [curb Hcur]; [by left|].
    pose proof (wf_hash bd Hwf cur curb Hcur) as Hhash.
    simpl. unfold payload. rewrite Hcur. simpl. rewrite Hhash.
    destruct (IsOnMainChain inst bd (Some cur)) eqn:Hmain.
    { simpl. eexists. split; [done|]. right. exists cur, curb.
      split; [left; by left|done]. }
    destruct (HasChildren curb) eqn:Hch; simpl;
      [|exists 0; split; [done|by left]].
    pose proof (children_weight bd cur curb Hwf Hcur) as Hw.
    destruct (IH (queue ++ b_children curb)) as (z & Hrun & Hz).
    { intros k [Hk|Hk]%elem_of_app; [apply Hknown; by right|].
      destruct (wf_children bd Hwf cur curb Hcur) as [_ Hin].
      destruct (Hin k Hk) as (cb & ps & Hcb & _). by eexists. }
    { rewrite confirmWeight_app. rewrite confirmWeight_cons in Hfuel.
      lia. }
    exists z. split; [done|].
    destruct Hz as [->|(m & mb & Hm & Hmb & Hon & ->)]; [by left|].
    right. exists m, mb. split; [|done].
    assert (∀ c, c ∈ b_children curb → child bd cur c) as Hchild
      by (intros c Hc; by exists curb).
    destruct Hm as [[Hm|Hm]%elem_of_app|(q & [Hq|Hq]%elem_of_app & Hfut)].
    + left. by right.
    + right. exists cur. split; [by left|]. by apply tc_once, Hchild.
    + right. exists q. split; [by right|done].
    + right. exists cur. split; [by left|]. eapply tc_l; [|done].
      by apply Hchild.
Qed.

(** X14: with a main-chain tip and fuel for 2^blockTotal queue entries
    [GetConfirmations] of a stored block returns: the height difference to
    the main-chain tip for a main-chain block; otherwise 0 or one more
    than the height difference between the main-chain tip and some
    main-chain block in the future of the block, and 0 when no block of
    its future is on the main chain. *)
Theorem GetConfirmations_sound bd (h : N) (b mt : Block) (fuel : nat) :
  Reachable inst bd → bd_blocks bd !! h = Some b →
  GetMainChainTip inst bd = Some mt →
  (2 ^ Z.to_nat (bd_blockTotal bd) ≤ fuel)%nat →
  ∃ z, GetConfirmations inst fuel bd (Some h) = Ok z ∧
    (IsOnMainChain inst bd (Some h) = true →
     z = uint (b_height mt - b_height b)) ∧
    (IsOnMainChain inst bd (Some h) = false →
     (z = 0 ∨
      ∃ m mb, Future bd h m ∧ bd_blocks bd !! m = Some mb ∧
        IsOnMainChain inst bd (Some m) = true ∧
        z = uint (1 + b_height mt - b_height mb)) ∧
     ((∀ m, Future bd h m → IsOnMainChain inst bd (Some m) = false) →
      z = 0)).
Proof.
  intros Hreach Hb Hmt Hfuel. pose proof (Reachable_WF inst bd Hreach) as Hwf.
  unfold GetConfirmations, GetBlock. rewrite Hb, Hmt.
  destruct (IsOnMainChain inst bd (Some h)) eqn:Hmain.
  { simpl. eexists. split; [done|]. split; [done|]. done. }
  assert (∃ z, (if negb (HasChildren b) then Ok 0
                else confirmLoop inst fuel bd (Some mt) [b_hash b]) = Ok z ∧
            (z = 0 ∨
             ∃ m mb, Future bd h m ∧ bd_blocks bd !! m = Some mb ∧
               IsOnMainChain inst bd (Some m) = true ∧
               z = uint (1 + b_height mt - b_height mb)))
    as (z & Hrun & Hz).
  { destruct (HasChildren b); simpl; [|exists 0; split; [done|by left]].
    rewrite (wf_hash bd Hwf h b Hb).
    destruct (confirmLoop_spec bd mt Hwf fuel [h]) as (z & Hrun & Hz).
    { intros k ->%list_elem_of_singleton. by eexists. }
    { unfold confirmWeight, coId. simpl. rewrite Hb.
      pose proof (wf_id bd Hwf h b Hb).
      assert (2 ^ Z.to_nat (bd_blockTotal bd - 1 - b_id b)
              ≤ 2 ^ Z.to_nat (bd_blockTotal bd))%nat
        by (apply Nat.pow_le_mono_r; lia).
      lia. }
    exists z. split; [done|].
    destruct Hz as [->|(m & mb & Hm & Hmb & Hon & ->)]; [by left|].
    right. exists m, mb. split; [|done].
    destruct Hm as [->%list_elem_of_singleton|(q & ->%list_elem_of_singleton & Hfut)];
      [congruence|done]. }
  exists z. split; [done|]. split; [done|]. intros _. split; [done|].
  intros Hnone. destruct Hz as [->|(m & mb & Hm & _ & Hon & _)]; [done|].
  rewrite (Hnone m Hm) in Hon. done.
Qed.

End Confirmations.

(** ** Lookups by order *)

Section OrderIndex.
Context {IState : Type} (queries : IBlockDAGQueries IState).
Implicit Types (bd : BlockDAG IState).

(** X15: when the strategy leaves [GetBlockByOrder] to the framework and
    the order index lists the stored blocks by their order,
    [GetBlockByOrder] returns the stored block of the order asked for and
    nil beyond the index, [GetPrevious] of a stored block other than
    genesis and of order above 0 returns the stored block ordered right
    before it, [GetPrevious] of genesis is nil, and [GetLastBlock] the
    block of the last order. *)
Theorem order_index_lookups bd :
  (∀ o, iGetBlockByOrder queries bd o = None) → OrderIndexed bd →
  (∀ i, 0 ≤ i < Z.of_nat (size (bd_order bd)) →
     ∃ p pb, GetBlockByOrder queries bd i = Some p ∧
             bd_blocks bd !! p = Some pb ∧ b_order pb = i) ∧
  (∀ i, Z.of_nat (size (bd_order bd)) ≤ i →
     GetBlockByOrder queries bd i = None) ∧
  (∀ h b, bd_blocks bd !! h = Some b → h ≠ bd_genesis bd →
     b_order b ≠ 0 → b_order b < uint_size →
     ∃ p pb, GetPrevious queries bd (Some h) = Some p ∧
             bd_blocks bd !! p = Some pb ∧ b_order pb = b_order b - 1) ∧
  GetPrevious queries bd (Some (bd_genesis bd)) = None ∧
  (0 < bd_blockTotal bd < uint_size →
   Z.of_nat (size (bd_order bd)) = bd_blockTotal bd →
   ∃ lb, GetLastBlock queries bd = Some lb ∧
         b_order lb = bd_blockTotal bd - 1).
Proof.
  intros Hq (Hdense & Hstored & Hindexed).
  assert (∀ i, 0 ≤ i < Z.of_nat (size (bd_order bd)) →
     ∃ p pb, GetBlockByOrder queries bd i = Some p ∧
             bd_blocks bd !! p = Some pb ∧ b_order pb = i) as Hget.
  { intros i Hi. destruct (proj2 (Hdense i) Hi) as [p Hp].
    destruct (Hstored i p Hp) as (pb & Hpb & Ho).
    exists p, pb. unfold GetBlockByOrder. rewrite Hq.
    rewrite decide_False by lia. done. }
  split; [done|]. split; [|split; [|split]].
  - intros i Hi. unfold GetBlockByOrder. rewrite Hq.
    by rewrite decide_True.
  - intros h b Hb Hne Ho Hu.
    pose proof (Hindexed h b Hb) as Hidx.
    assert (0 ≤ b_order b < Z.of_nat (size (bd_order bd))) as Hrange
      by (apply Hdense; by eexists).
    destruct (Hget (b_order b - 1)) as (p & pb & Hp & Hpb & Hpo); [lia|].
    exists p, pb. split; [|done].
    unfold GetPrevious, GetGenesisHash, IsEqual, GetBlock.
    rewrite bool_decide_eq_false_2 by done. rewrite Hb.
    rewrite decide_False by done.
    assert (uint (b_order b - 1) = b_order b - 1) as ->; [|done].
    unfold uint. apply Z.mod_small. lia.
  - unfold GetPrevious, GetGenesisHash, IsEqual.
    by rewrite bool_decide_eq_true_2.
  - intros Htotal Hsize. unfold GetLastBlock, GetBlockTotal.
    rewrite decide_False by lia.
    assert (uint (bd_blockTotal bd - 1) = bd_blockTotal bd - 1) as ->
      by (unfold uint; apply Z.mod_small; lia).
    destruct (Hget (bd_blockTotal bd - 1)) as (p & pb & Hp & Hpb & Hpo);
      [lia|].
    rewrite Hp. exists pb. done.
Qed.

End OrderIndex.

Lemma fork_Reachable :
  Reachable FirstParentChain.strategy (Fixtures.built Fixtures.fork).
Proof.
  exists [], 0, [Some Fixtures.G; Some Fixtures.A; Some Fixtures.B;
                 Some Fixtures.D; Some Fixtures.E].
  split; vm_compute; reflexivity.
Qed.

Lemma fork_lookup_B :
  bd_blocks (Fixtures.built Fixtures.fork) !! 102%N = Some forkB.
Proof. vm_compute. reflexivity. Qed.

Lemma fork_mainTip :
  GetMainChainTip FirstParentChain.strategy (Fixtures.built Fixtures.fork)
  = Some forkE.
Proof. vm_compute. reflexivity. Qed.

Lemma fork_fuel :
  (2 ^ Z.to_nat (bd_blockTotal (Fixtures.built Fixtures.fork)) ≤ 32)%nat.
Proof.
  assert (bd_blockTotal (Fixtures.built Fixtures.fork) = 5) as ->
    by (vm_compute; reflexivity).
  simpl. lia.
Qed.

(** X14 at an input: B in the fork, whose main-chain tip is E. *)
Lemma GetConfirmations_sound_witness :
  Reachable FirstParentChain.strategy (Fixtures.built Fixtures.fork) ∧
  bd_blocks (Fixtures.built Fixtures.fork) !! 102%N = Some forkB ∧
  GetMainChainTip FirstParentChain.strategy (Fixtures.built Fixtures.fork)
  = Some forkE ∧
  (2 ^ Z.to_nat (bd_blockTotal (Fixtures.built Fixtures.fork)) ≤ 32)%nat ∧
  ∃ z, GetConfirmations FirstParentChain.strategy 32
         (Fixtures.built Fixtures.fork) (Some 102%N) = Ok z ∧
    (IsOnMainChain FirstParentChain.strategy (Fixtures.built Fixtures.fork)
       (Some 102%N) = true →
     z = uint (b_height forkE - b_height forkB)) ∧
    (IsOnMainChain FirstParentChain.strategy (Fixtures.built Fixtures.fork)
       (Some 102%N) = false →
     (z = 0 ∨
      ∃ m mb, Future (Fixtures.built Fixtures.fork) 102 m ∧
        bd_blocks (Fixtures.built Fixtures.fork) !! m = Some mb ∧
        IsOnMainChain FirstParentChain.strategy
          (Fixtures.built Fixtures.fork) (Some m) = true ∧
        z = uint (1 + b_height forkE - b_height mb)) ∧
     ((∀ m, Future (Fixtures.built Fixtures.fork) 102 m →
            IsOnMainChain FirstParentChain.strategy
              (Fixtures.built Fixtures.fork) (Some m) = false) →
      z = 0)).
Proof.
  split; [exact fork_Reachable|]. split; [exact fork_lookup_B|].
  split; [exact fork_mainTip|]. split; [exact fork_fuel|].
  exact (GetConfirmations_sound FirstParentChain.strategy
           (Fixtures.built Fixtures.fork) 102 forkB forkE 32
           fork_Reachable fork_lookup_B fork_mainTip fork_fuel).
Defined.

Lemma chain3_order :
  bd_order (Fixtures.built Fixtures.chain3)
  = <[2 := 102%N]> (<[1 := 101%N]> (<[0 := 100%N]> ∅)).
Proof. vm_compute. reflexivity. Qed.

Lemma chain3_blocks :
  bd_blocks (Fixtures.built Fixtures.chain3)
  = <[102%N := chain3B]> (<[101%N := chain3A]> (<[100%N := chain3G]> ∅)).
Proof. vm_compute. reflexivity. Qed.

Lemma chain3_order_size :
  Z.of_nat (size (bd_order (Fixtures.built Fixtures.chain3))) = 3.
Proof. vm_compute. reflexivity. Qed.

Lemma chain3_OrderIndexed : OrderIndexed (Fixtures.built Fixtures.chain3).
Proof.
  unfold OrderIndexed. rewrite chain3_order_size, chain3_order, chain3_blocks.
  split; [|split].
  - intros i.
    destruct (decide (i = 2)) as [->|?]; [split; [lia|by eexists]|].
    destruct (decide (i = 1)) as [->|?]; [split; [lia|by eexists]|].
    destruct (decide (i = 0)) as [->|?]; [split; [lia|by eexists]|].
    rewrite !lookup_insert_ne, lookup_empty by done.
    split; [by intros [? ?]|lia].
  - intros i p Hp.
    destruct (decide (i = 2)) as [->|?];
      [rewrite lookup_insert_eq in Hp; simplify_eq; by eexists|].
    rewrite lookup_insert_ne in Hp by done.
    destruct (decide (i = 1)) as [->|?];
      [rewrite lookup_insert_eq in Hp; simplify_eq; by eexists|].
    rewrite lookup_insert_ne in Hp by done.
    destruct (decide (i = 0)) as [->|?];
      [rewrite lookup_insert_eq in Hp; simplify_eq; by eexists|].
    by rewrite lookup_insert_ne, lookup_empty in Hp.
  - intros h b Hb.
    destruct (decide (h = 102%N)) as [->|?];
      [rewrite lookup_insert_eq in Hb; by simplify_eq|].
    rewrite lookup_insert_ne in Hb by done.
    destruct (decide (h = 101%N)) as [->|?];
      [rewrite lookup_insert_eq in Hb; by simplify_eq|].
    rewrite lookup_insert_ne in Hb by done.
    destruct (decide (h = 100%N)) as [->|?];
      [rewrite lookup_insert_eq in Hb; by simplify_eq|].
    by rewrite lookup_insert_ne, lookup_empty in Hb.
Qed.

Lemma chain3_declines (o : Z) :
  iGetBlockByOrder FirstParentChain.queries (Fixtures.built Fixtures.chain3) o
  = None.
Proof. reflexivity. Qed.

Lemma chain3_lookup_B :
  bd_blocks (Fixtures.built Fixtures.chain3) !! 102%N = Some chain3B.
Proof. vm_compute. reflexivity. Qed.

Lemma chain3_B_not_genesis :
  102%N ≠ bd_genesis (Fixtures.built Fixtures.chain3).
Proof.
  assert (bd_genesis (Fixtures.built Fixtures.chain3) = 100%N) as ->
    by (vm_compute; reflexivity).
  done.
Qed.

(** X15 at an input: the last block of the chain of three blocks. *)
Lemma order_index_lookups_witness :
  (∀ o, iGetBlockByOrder FirstParentChain.queries
          (Fixtures.built Fixtures.chain3) o = None) ∧
  OrderIndexed (Fixtures.built Fixtures.chain3) ∧
  ∃ p pb,
    GetPrevious FirstParentChain.queries (Fixtures.built Fixtures.chain3)
      (Some 102%N) = Some p ∧
    bd_blocks (Fixtures.built Fixtures.chain3) !! p = Some pb ∧
    b_order pb = b_order chain3B - 1.
Proof.
  assert (b_order chain3B ≠ 0) as Hne by (simpl; lia).
  assert (b_order chain3B < uint_size) as Hu by (unfold uint_size; simpl; lia).
  split; [exact chain3_declines|]. split; [exact chain3_OrderIndexed|].
  exact (proj1 (proj2 (proj2
           (order_index_lookups FirstParentChain.queries
              (Fixtures.built Fixtures.chain3) chain3_declines
              chain3_OrderIndexed))) 102%N chain3B chain3_lookup_B
           chain3_B_not_genesis Hne Hu).
Defined.

(** ** Anticone *)

Section Anticones.
Context {IState : Type} (bd : BlockDAG IState) (Hwf : WF bd).
Context (hb : N) (b : Block) (Hb : bd_blocks bd !! hb = Some b).
Context (F : list N) (HF : ∀ x, x ∈ F ↔ Future bd hb x).

Lemma isVirtualTip_spec (A cs : list N) :
  isVirtualTip b F A cs = true ↔
  Forall (λ c, c ≠ hb ∧ (c ∈ F ∨ c ∈ A)) cs.
Proof.
  pose proof (wf_hash bd Hwf hb b Hb) as Hhash.
  induction cs as [|c cs IH]; simpl; [split; [constructor|done]|].
  rewrite Hhash. rewrite Forall_cons.
  destruct (decide (c = hb)) as [->|Hne]; [split; [done|by intros [[? _] _]]|].
  destruct (hs_Has F c) eqn:HcF; simpl.
  - apply hs_Has_true in HcF. rewrite IH. tauto.
  - apply hs_Has_false in HcF. destruct (hs_Has A c) eqn:HcA; simpl.
    + apply hs_Has_true in HcA. rewrite IH. tauto.
    + apply hs_Has_false in HcA. split; [done|]. tauto.
Qed.

Lemma needRecursion_spec (A : list N) (x : N) (xb : Block) :
  bd_blocks bd !! x = Some xb →
  (if hs_IsEmpty (b_children xb) then true
   else isVirtualTip b F A (b_children xb)) = true ↔ admissible bd hb F A x.
Proof.
  intros Hxb. unfold admissible.
  assert ((if hs_IsEmpty (b_children xb) then true
           else isVirtualTip b F A (b_children xb)) = true ↔
          Forall (λ c, c ≠ hb ∧ (c ∈ F ∨ c ∈ A)) (b_children xb)) as ->.
  { destruct (hs_IsEmpty (b_children xb)) eqn:He; [|apply isVirtualTip_spec].
    apply hs_IsEmpty_true in He. rewrite He. split; [constructor|done]. }
  split; [intros Hall; by exists xb|].
  intros (xb' & Hxb' & Hall). by simplify_eq.
Qed.

#[local] Instance admissible_dec (A : list N) (x : N) :
  Decision (admissible bd hb F A x).
Proof.
  unfold admissible. destruct (bd_blocks bd !! x) as [xb|] eqn:Hxb.
  - destruct (decide (Forall (λ c, c ≠ hb ∧ (c ∈ F ∨ c ∈ A)) (b_children xb)))
      as [Hall|Hno].
    + left. by exists xb.
    + right. intros (xb' & Hxb' & Hall). by simplify_eq.
  - right. by intros (xb' & Hxb' & _).
Defined.

Lemma admissible_mono (A A' : list N) (x : N) :
  (∀ y, y ∈ A → y ∈ A') → admissible bd hb F A x → admissible bd hb F A' x.
Proof.
  intros Hsub (xb & Hxb & Hall). exists xb. split; [done|].
  eapply Forall_impl; [done|]. intros c [Hne [HcF|HcA]]; auto.
Qed.

(** An admissible block other than [hb] is not in the past of [hb]. *)
Lemma admissible_Outside (A : list N) (V : gset N) (x : N) :
  AnticoneInv bd hb F A V → x ≠ hb → admissible bd hb F A x →
  Outside bd hb x.
Proof.
  intros Hinv Hne (xb & Hxb & Hall). split; [by eexists|]. split; [done|].
  intros Hpast.
  assert (∃ c, child bd x c ∧ (c = hb ∨ Future bd c hb)) as (c & Hc & Hcb).
  { inversion Hpast as [? ? Hc|? c ? Hc Hrest]; subst; eauto. }
  destruct Hc as (xb' & Hxb' & Hc). assert (xb' = xb) as -> by congruence.
  rewrite Forall_forall in Hall. destruct (Hall c Hc) as [Hcne Hcl].
  destruct Hcb as [->|Hcfut]; [done|].
  destruct Hcl as [HcF|HcA].
  - apply HF in HcF.
    destruct (Future_id bd hb hb Hwf) as (b1 & b2 & Hb1 & Hb2 & Hlt & _);
      [by eapply tc_transitive|].
    assert (b1 = b2) as -> by congruence. lia.
  - apply (ai_split _ _ _ _ _ Hinv) in HcA as [HcV _].
    by destruct (ai_sound _ _ _ _ _ Hinv c HcV) as (_ & _ & Hno).
Qed.

Lemma AnticoneStep_refl (A : list N) (V : gset N) :
  AnticoneInv bd hb F A V → AnticoneStep bd hb F A V A V.
Proof. intros Hinv. split; [done|done|]. intros x p Hx Hnx. done. Qed.

Lemma AnticoneInv_sub (A A' : list N) (V V' : gset N) :
  AnticoneInv bd hb F A V → AnticoneInv bd hb F A' V' → V ⊆ V' →
  ∀ y, y ∈ A → y ∈ A'.
Proof.
  intros Hinv Hinv' Hsub y Hy.
  apply (ai_split _ _ _ _ _ Hinv) in Hy as [HyV HyF].
  apply (ai_split _ _ _ _ _ Hinv'). split; [by apply Hsub|done].
Qed.

(** A block that is admissible after a step, and was expanded if it was
    admissible before, is expanded after the step. *)
Lemma AnticoneStep_catch (A A' : list N) (V V' : gset N) (p : N) :
  AnticoneInv bd hb F A V → AnticoneStep bd hb F A V A' V' →
  p ≠ hb → admissible bd hb F A' p →
  (admissible bd hb F A p → p ∈ V') → p ∈ V'.
Proof.
  intros Hinv Hstep Hne Hadm' Hearly.
  destruct (decide (admissible bd hb F A p)) as [Hadm|Hno]; [by apply Hearly|].
  destruct Hadm' as (pb & Hpb & Hall').
  assert (¬ Forall (λ c, c ≠ hb ∧ (c ∈ F ∨ c ∈ A)) (b_children pb)) as Hno'.
  { intros Hall. apply Hno. by exists pb. }
  apply not_Forall_Exists in Hno'; [|solve_decision].
  apply Exists_exists in Hno' as (c & Hc & Hcno). simpl in Hcno.
  destruct (proj1 (Forall_forall _ _) Hall' c Hc) as [Hcne Hcl].
  assert (c ∈ A' ∧ (c ∉ A) ∧ (c ∉ F)) as (HcA' & HcA & HcF).
  { destruct Hcl as [HcF|HcA']; [exfalso; apply Hcno; auto|].
    split; [done|]. split.
    - intros HcA. apply Hcno. auto.
    - intros HcF. apply Hcno. auto. }
  pose proof (as_inv _ _ _ _ _ _ _ Hstep) as Hinv'.
  apply (ai_split _ _ _ _ _ Hinv') in HcA' as [HcV' _].
  apply (as_closed _ _ _ _ _ _ _ Hstep c p HcV').
  - intros HcV. apply HcA. apply (ai_split _ _ _ _ _ Hinv). done.
  - by exists pb.
  - done.
  - by exists pb.
Qed.

Lemma AnticoneStep_trans (A0 A1 A2 : list N) (V0 V1 V2 : gset N) :
  AnticoneInv bd hb F A0 V0 →
  AnticoneStep bd hb F A0 V0 A1 V1 → AnticoneStep bd hb F A1 V1 A2 V2 →
  AnticoneStep bd hb F A0 V0 A2 V2.
Proof.
  intros Hinv0 H01 H12.
  pose proof (as_inv _ _ _ _ _ _ _ H01) as Hinv1.
  pose proof (as_mono _ _ _ _ _ _ _ H01) as Hsub01.
  pose proof (as_mono _ _ _ _ _ _ _ H12) as Hsub12.
  split; [apply (as_inv _ _ _ _ _ _ _ H12)|by transitivity V1|].
  intros x p Hx2 Hx0 Hchild Hne Hadm.
  destruct (decide (x ∈ V1)) as [Hx1|Hx1].
  - apply (AnticoneStep_catch A1 A2 V1 V2 p Hinv1 H12 Hne Hadm).
    intros Hadm1. apply Hsub12.
    by apply (as_closed _ _ _ _ _ _ _ H01 x p).
  - by apply (as_closed _ _ _ _ _ _ _ H12 x p).
Qed.

(** Every stored block other than the genesis descends from it. *)
Lemma WF_root :
  ∀ (n : nat) (h : N) (xb : Block),
  bd_blocks bd !! h = Some xb → (Z.to_nat (b_id xb) < n)%nat →
  h ≠ bd_genesis bd → Future bd (bd_genesis bd) h.
Proof.
  induction n as [|n IH]; intros h xb Hxb Hn Hne; [lia|].
  destruct (b_parents xb) as [ps|] eqn:Hps;
    [|by apply (wf_genesis bd Hwf h xb Hxb) in Hps].
  destruct (wf_parents bd Hwf h xb ps Hxb Hps) as (Hnil & _ & Hpar).
  destruct ps as [|p ps']; [done|].
  destruct (Hpar p) as (pb & Hpb & Hch & Hlt); [by left|].
  pose proof (wf_id bd Hwf p pb Hpb) as Hidp.
  assert (child bd p h) as Hchild by (by exists pb).
  destruct (decide (p = bd_genesis bd)) as [<-|Hpne]; [by apply tc_once|].
  eapply tc_r; [|done]. apply (IH p pb Hpb); [lia|done].
Qed.

(** One call of [recAnticone] on a stored block. *)
Definition recAnticone_post (fuel : nat) : Prop :=
  ∀ (A : list N) (V : gset N) (h : N) (xb : Block),
  AnticoneInv bd hb F A V → bd_blocks bd !! h = Some xb →
  (Z.to_nat (b_id xb) < fuel)%nat →
  ∃ A' V', recAnticone fuel bd b F A h = Ok A' ∧
    AnticoneStep bd hb F A V A' V' ∧
    (h ≠ hb → admissible bd hb F A h → h ∈ V').

(** The calls of one loop: over the tips, or over the parents of a
    block. *)
Lemma recAnticone_keys (fuel : nat) :
  recAnticone_post fuel →
  ∀ (ks : list N) (A : list N) (V : gset N),
  AnticoneInv bd hb F A V →
  (∀ k, k ∈ ks → ∃ kb, bd_blocks bd !! k = Some kb ∧
                      (Z.to_nat (b_id kb) < fuel)%nat) →
  ∃ A' V',
    forKeys (λ anticone k, recAnticone fuel bd b F anticone k) ks A = Ok A' ∧
    AnticoneStep bd hb F A V A' V' ∧
    ∀ k, k ∈ ks → k ≠ hb → admissible bd hb F A' k → k ∈ V'.
Proof.
  intros Hcall ks. induction ks as [|k ks IH]; intros A V Hinv Hks.
  - exists A, V. split; [done|]. split; [by apply AnticoneStep_refl|].
    intros k Hk. by apply elem_of_nil in Hk.
  - destruct (Hks k) as (kb & Hkb & Hfuel); [by left|].
    destruct (Hcall A V k kb Hinv Hkb Hfuel) as (A1 & V1 & Hrun1 & H01 & Hk1).
    pose proof (as_inv _ _ _ _ _ _ _ H01) as Hinv1.
    destruct (IH A1 V1 Hinv1) as (A2 & V2 & Hrun2 & H12 & Hks2).
    { intros k' Hk'. apply Hks. by right. }
    pose proof (AnticoneStep_trans _ _ _ _ _ _ Hinv H01 H12) as H02.
    exists A2, V2. split; [simpl; rewrite Hrun1; simpl; exact Hrun2|].
    split; [done|].
    intros k' Hk' Hne Hadm. apply elem_of_cons in Hk' as [->|Hk'].
    + apply (AnticoneStep_catch A A2 V V2 k Hinv H02 Hne Hadm).
      intros Hadm0. apply (as_mono _ _ _ _ _ _ _ H12). by apply Hk1.
    + by apply Hks2.
Qed.

Lemma recAnticone_spec : ∀ fuel : nat, recAnticone_post fuel.
Proof.
  pose proof (wf_hash bd Hwf hb b Hb) as Hhash.
  induction fuel as [|fuel IH]; intros A V h xb Hinv Hxb Hfuel; [lia|].
  simpl. rewrite Hhash.
  destruct (decide (h = hb)) as [->|Hne].
  { exists A, V. split; [done|]. split; [by apply AnticoneStep_refl|done]. }
  unfold GetBlock. simpl. rewrite Hxb. simpl.
  pose proof (needRecursion_spec A h xb Hxb) as Hneed.
  destruct (if hs_IsEmpty (b_children xb) then true
            else isVirtualTip b F A (b_children xb)) eqn:Hrec.
  2:{ exists A, V. split; [done|]. split; [by apply AnticoneStep_refl|].
      intros _ Hadm. apply Hneed in Hadm. done. }
  assert (admissible bd hb F A h) as Hadm by (by apply Hneed).
  pose proof (admissible_Outside A V h Hinv Hne Hadm) as Hout.
  assert (h ≠ bd_genesis bd) as Hng.
  { intros ->. destruct Hout as (_ & _ & Hno). apply Hno.
    apply (WF_root (S (Z.to_nat (b_id b))) hb b Hb); [lia|done]. }
  destruct (b_parents xb) as [ps|] eqn:Hps;
    [|by apply (wf_genesis bd Hwf h xb Hxb) in Hps].
  simpl.
  destruct (wf_parents bd Hwf h xb ps Hxb Hps) as (_ & _ & Hpar).
  pose proof (wf_id bd Hwf h xb Hxb) as Hid.
  set (A1 := if negb (hs_Has F h) then hs_Add A h else A).
  assert (AnticoneInv bd hb F A1 ({[h]} ∪ V)) as Hinv1.
  { split.
    - unfold A1. destruct (hs_Has F h); simpl;
        [apply Hinv|apply NoDup_hs_Add, Hinv].
    - intros x. unfold A1. destruct (hs_Has F h) eqn:HhF; simpl.
      + apply hs_Has_true in HhF.
        rewrite (ai_split _ _ _ _ _ Hinv x), elem_of_union, elem_of_singleton.
        split; [tauto|]. intros [[->|HxV] HxF]; [done|tauto].
      + apply hs_Has_false in HhF.
        rewrite elem_of_hs_Add, (ai_split _ _ _ _ _ Hinv x), elem_of_union,
          elem_of_singleton.
        split; [intros [[? ?]| ->]; tauto|].
        intros [[->|HxV] HxF]; tauto.
    - intros x. rewrite elem_of_union, elem_of_singleton.
      intros [->|HxV]; [done|by apply (ai_sound _ _ _ _ _ Hinv)]. }
  destruct (recAnticone_keys fuel IH ps A1 ({[h]} ∪ V) Hinv1)
    as (A2 & V2 & Hrun & H12 & Hps2).
  { intros p Hp. destruct (Hpar p Hp) as (pb & Hpb & _ & Hlt).
    pose proof (wf_id bd Hwf p pb Hpb). exists pb. split; [done|lia]. }
  pose proof (as_mono _ _ _ _ _ _ _ H12) as Hsub.
  exists A2, V2. split; [exact Hrun|]. split.
  - split; [apply H12| |].
    { intros y Hy. apply Hsub, elem_of_union. by right. }
    intros x p Hx2 Hx0 Hchild Hpne Hpadm.
    destruct (decide (x = h)) as [->|Hxh].
    + apply Hps2; [|done|done].
      destruct Hchild as (pb & Hpb & Hch).
      destruct (wf_children bd Hwf p pb Hpb) as [_ Hin].
      destruct (Hin h Hch) as (xb' & ps' & Hxb' & Hps' & Hp).
      by simplify_eq.
    + apply (as_closed _ _ _ _ _ _ _ H12 x p); [done| |done|done|done].
      rewrite elem_of_union, elem_of_singleton. tauto.
  - intros _ _. apply Hsub, elem_of_union. left. by apply elem_of_singleton.
Qed.

End Anticones.

Lemma fork_blocks_fuel :
  (Z.to_nat (bd_blockTotal (Fixtures.built Fixtures.fork)) ≤ 5)%nat.
Proof.
  assert (bd_blockTotal (Fixtures.built Fixtures.fork) = 5) as ->
    by (vm_compute; reflexivity).
  lia.
Qed.

Section AnticoneResult.
Context {IState : Type} (inst : IBlockDAG IState).
Implicit Types (bd : BlockDAG IState).

Lemma GetFutureSet_WF bd (h : N) (b : Block) (fuel : nat) :
  WF bd → bd_blocks bd !! h = Some b →
  (Z.to_nat (bd_blockTotal bd) ≤ fuel)%nat →
  ∃ fs, GetFutureSet fuel bd NewHashSet (Some b) = Ok fs ∧
    NoDup fs ∧ ∀ x, x ∈ fs ↔ Future bd h x.
Proof.
  intros Hwf Hb Hfuel. pose proof (wf_id bd Hwf h b Hb) as Hid.
  destruct (GetFutureSet_spec bd Hwf fuel h b [] Hb) as
    (fs & Hrun & Hnd & _ & Hfut & Hin & Hcl);
    [constructor|unfold rank; lia|].
  exists fs. split; [done|]. split; [done|].
  intros x. split.
  - intros Hx. destruct (Hfut x Hx) as [Hnil|]; [|done].
    by apply elem_of_nil in Hnil.
  - intros Hx.
    assert (∀ y z, Future bd y z → (y = h ∨ y ∈ fs) → z ∈ fs) as Hgen.
    { assert (∀ y z, child bd y z → (y = h ∨ y ∈ fs) → z ∈ fs) as Hone.
      { intros y z Hc [->|Hy].
        - destruct Hc as (b' & Hb' & Hc).
          assert (b' = b) as -> by congruence. by apply Hin.
        - apply (Hcl y Hy); [apply not_elem_of_nil|done]. }
      intros y z Hyz. induction Hyz as [y z Hc|y z z' Hc _ IH]; [by apply Hone|].
      intros Hy. apply IH. right. by apply (Hone y z). }
    apply (Hgen h x Hx). by left.
Qed.

Lemma Future_dec bd (x y : N) :
  WF bd → is_Some (bd_blocks bd !! x) → Future bd x y ∨ ¬ Future bd x y.
Proof.
  intros Hwf [xb Hxb].
  destruct (GetFutureSet_WF bd x xb (Z.to_nat (bd_blockTotal bd)) Hwf Hxb)
    as (fs & _ & _ & Hfs); [lia|].
  destruct (decide (y ∈ fs)) as [Hy|Hy]; [left|right]; by rewrite <- Hfs.
Qed.

(** The loop over the tips expands every block that is neither [h] nor in
    its past. *)
Lemma Outside_expanded bd (h : N) (F A : list N) (V : gset N) :
  WF bd → (∀ x, x ∈ F ↔ Future bd h x) →
  AnticoneStep bd h F [] ∅ A V →
  (∀ t, t ∈ tips_of bd → t ≠ h → admissible bd h F A t → t ∈ V) →
  ∀ (n : nat) (x : N) (xb : Block),
  bd_blocks bd !! x = Some xb →
  (Z.to_nat (bd_blockTotal bd - b_id xb) ≤ n)%nat →
  Outside bd h x → x ∈ V.
Proof.
  intros Hwf HF Hstep Htips n.
  pose proof (as_inv _ _ _ _ _ _ _ Hstep) as Hinv.
  induction n as [|n IH]; intros x xb Hxb Hn (_ & Hne & Hpast).
  { pose proof (wf_id bd Hwf x xb Hxb). lia. }
  assert (∀ c, c ∈ b_children xb → c ∈ V ∧ c ≠ h) as Hch.
  { intros c Hc. assert (child bd x c) as Hchild by (by exists xb).
    destruct (child_id bd x c Hwf Hchild) as (xb' & cb & Hxb' & Hcb & Hlt & _).
    assert (xb' = xb) as -> by congruence.
    assert (c ≠ h) as Hcne by (intros ->; by apply Hpast, tc_once).
    split; [|done]. apply (IH c cb Hcb); [lia|].
    split; [by eexists|]. split; [done|].
    intros Hcpast. apply Hpast. by eapply tc_l. }
  assert (admissible bd h F A x) as Hadm.
  { exists xb. split; [done|]. apply Forall_forall. intros c Hc.
    destruct (Hch c Hc) as [HcV Hcne]. split; [done|].
    destruct (decide (c ∈ F)) as [HcF|HcF]; [by left|right].
    by apply (ai_split _ _ _ _ _ Hinv). }
  destruct (b_children xb) as [|c cs] eqn:Hcs.
  - apply Htips; [|done|done].
    apply (proj2 (wf_tips bd Hwf)). by exists xb.
  - destruct (Hch c) as [HcV _]; [by left|].
    apply (as_closed _ _ _ _ _ _ _ Hstep c x HcV);
      [apply not_elem_of_empty| |done|done].
    exists xb. split; [done|]. rewrite Hcs. by left.
Qed.

(** X16: on a framework built by [AddBlock] calls, [GetAnticone] of a
    stored block returns, given fuel for the number of blocks, exactly the
    stored blocks that are neither the block, nor in its future, nor in its
    past, less the excluded ones, each once; without an exclude set every
    stored block is the block itself, in its future, in its past or in the
    result. *)
Theorem GetAnticone_exact bd (h : N) (b : Block) (exclude : option (list N))
  (fuel : nat) :
  Reachable inst bd → bd_blocks bd !! h = Some b →
  (Z.to_nat (bd_blockTotal bd) ≤ fuel)%nat →
  ∃ ac, GetAnticone fuel bd (Some b) exclude = Ok ac ∧ NoDup ac ∧
    (∀ x, x ∈ ac ↔ Anticone bd h x ∧ ∀ e, exclude = Some e → x ∉ e) ∧
    (exclude = None → ∀ x, is_Some (bd_blocks bd !! x) →
       x = h ∨ Future bd h x ∨ Future bd x h ∨ x ∈ ac).
Proof.
  intros Hreach Hb Hfuel. pose proof (Reachable_WF inst bd Hreach) as Hwf.
  destruct (GetFutureSet_WF bd h b fuel Hwf Hb Hfuel) as (F & HrunF & _ & HF).
  pose proof (wf_tips bd Hwf) as [Hts Htips].
  assert (AnticoneInv bd h F [] ∅) as Hinv0.
  { split; [constructor| |].
    - intros x. split; [intros Hx; by apply elem_of_nil in Hx|].
      intros [Hx _]. by apply elem_of_empty in Hx.
    - intros x Hx. by apply elem_of_empty in Hx. }
  destruct (recAnticone_keys bd h b F fuel
              (recAnticone_spec bd Hwf h b Hb F HF fuel)
              (tips_of bd) [] ∅ Hinv0) as (A & V & Hrun & Hstep & Hexp).
  { intros t Ht. apply Htips in Ht as (tb & Htb & _).
    pose proof (wf_id bd Hwf t tb Htb). exists tb. split; [done|lia]. }
  pose proof (as_inv _ _ _ _ _ _ _ Hstep) as Hinv.
  assert (∀ x, Outside bd h x → x ∈ V) as Hall.
  { intros x Hout. pose proof Hout as ([xb Hxb] & _).
    by apply (Outside_expanded bd h F A V Hwf HF Hstep Hexp
                (Z.to_nat (bd_blockTotal bd - b_id xb)) x xb). }
  assert (∀ x, x ∈ A ↔ Anticone bd h x) as Hanti.
  { intros x. rewrite (ai_split _ _ _ _ _ Hinv x), HF. split.
    - intros [HxV HxF].
      destruct (ai_sound _ _ _ _ _ Hinv x HxV) as (Hst & Hne & Hpast).
      done.
    - intros (Hst & Hne & Hfut & Hpast). split; [|done]. by apply Hall. }
  assert (∃ ts, bd_tips bd = Some ts ∧ tips_of bd = ts) as (ts & Htsome & Hteq).
  { unfold tips_of. destruct (bd_tips bd) as [ts|]; [by exists ts|].
    rewrite Hts in Hb. by rewrite lookup_empty in Hb. }
  rewrite Hteq in Hrun.
  exists (match exclude with
          | Some e => hs_Exclude A e
          | None => A
          end).
  split.
  { unfold GetAnticone. rewrite HrunF. simpl. rewrite Htsome. simpl.
    unfold NewHashSet. rewrite Hrun. done. }
  split.
  { destruct exclude as [e|]; [apply NoDup_filter|]; apply Hinv. }
  split.
  { intros x. destruct exclude as [e|].
    - unfold hs_Exclude. rewrite list_elem_of_filter, Hanti. split.
      + intros [Hxe Hx]. split; [done|]. intros e' [= <-]. done.
      + intros [Hx Hxe]. split; [by apply Hxe|done].
    - rewrite Hanti. split; [intros Hx; by split|by intros [Hx _]]. }
  intros -> x Hst.
  destruct (decide (x = h)) as [->|Hne]; [by left|].
  destruct (decide (x ∈ F)) as [HxF|HxF]; [right; left; by apply HF|].
  destruct (Future_dec bd x h Hwf Hst) as [Hpast|Hpast]; [by right; right; left|].
  right; right; right. apply (ai_split _ _ _ _ _ Hinv). split; [|done].
  by apply Hall.
Qed.

End AnticoneResult.

(** X16 at an input: B in the fork DAG, whose anticone is A. *)
Lemma GetAnticone_exact_witness :
  Reachable FirstParentChain.strategy (Fixtures.built Fixtures.fork) ∧
  bd_blocks (Fixtures.built Fixtures.fork) !! 102%N = Some forkB ∧
  (Z.to_nat (bd_blockTotal (Fixtures.built Fixtures.fork)) ≤ 5)%nat ∧
  ∃ ac, GetAnticone 5 (Fixtures.built Fixtures.fork) (Some forkB) None
        = Ok ac ∧ NoDup ac ∧
    (∀ x, x ∈ ac ↔ Anticone (Fixtures.built Fixtures.fork) 102 x ∧
                   ∀ e, @None (list N) = Some e → x ∉ e) ∧
    (@None (list N) = None →
     ∀ x, is_Some (bd_blocks (Fixtures.built Fixtures.fork) !! x) →
       x = 102%N ∨ Future (Fixtures.built Fixtures.fork) 102 x ∨
       Future (Fixtures.built Fixtures.fork) x 102 ∨ x ∈ ac).
Proof.
  split; [exact fork_Reachable|]. split; [exact fork_lookup_B|].
  split; [exact fork_blocks_fuel|].
  exact (GetAnticone_exact FirstParentChain.strategy
           (Fixtures.built Fixtures.fork) 102 forkB None 5
           fork_Reachable fork_lookup_B fork_blocks_fuel).
Defined.
